(** * SVG Animator: the response sanitizer and its callers (main.py)

    A shallow embedding of [clean_svg_response], [get_animated_svg] and the
    acceptance check of the button handler.  Python strings are sequences of
    Unicode code points; the three regular expressions of the sanitizer are
    written as syntax trees and run by a backtracking matcher that follows
    the priorities of Python's [re] module (leftmost match, greedy and lazy
    repetition, retry on failure).  One call of the chat-completion endpoint
    is a function from the request to its reply, and what the program does
    to the page and to the network is recorded as a list of effects.

    The properties come after the definitions: first the patterns in closed
    form and how a substitution treats a text cut in two, then the claims of
    the specification, C1 to C10, and further properties of the code. *)

From Stdlib Require Import String Ascii.
From Stdlib Require Import List NArith Bool Lia Arith.
Import ListNotations.
Local Open Scope N_scope.

(** ** Strings *)

Definition char := N.
Definition str := list char.

(** A literal of the source, read one code point per byte. *)
Fixpoint lit (s : string) : str :=
  match s with
  | EmptyString => []
  | String a s' => N_of_ascii a :: lit s'
  end.

Definition dq : char := 34.        (* the double quote *)
Definition nl : char := 10.        (* \n *)
Definition sp : char := 32.        (* the ordinary space *)
Definition nbsp : char := 160.     (* \xa0 *)
Definition eq_sign : char := 61.   (* = *)
Definition backtick : char := 96.

(** [Py_UNICODE_ISSPACE]: what [\s] matches in a str pattern and what
    [str.strip()] removes. *)
Definition is_space (c : char) : bool :=
  ((9 <=? c) && (c <=? 13)) || ((28 <=? c) && (c <=? 32)) ||
  (c =? 133) || (c =? 160) || (c =? 5760) ||
  ((8192 <=? c) && (c <=? 8202)) || (c =? 8232) || (c =? 8233) ||
  (c =? 8239) || (c =? 8287) || (c =? 12288).

(** [s.replace('\xa0', ' ')] *)
Definition replace_nbsp (s : str) : str :=
  map (fun c => if c =? nbsp then sp else c) s.

Fixpoint lstrip (s : str) : str :=
  match s with
  | c :: s' => if is_space c then lstrip s' else s
  | [] => []
  end.

Definition rstrip (s : str) : str := rev (lstrip (rev s)).

(** [s.strip()] *)
Definition strip (s : str) : str := rstrip (lstrip s).

Fixpoint startswith (p s : str) : bool :=
  match p, s with
  | [], _ => true
  | a :: p', c :: s' => (a =? c) && startswith p' s'
  | _ :: _, [] => false
  end.

(** [p in s] *)
Fixpoint contains (p s : str) : bool :=
  startswith p s || match s with [] => false | _ :: s' => contains p s' end.

(** ** Regular expressions *)

Record flags := { ignorecase : bool; dotall : bool }.

Definition no_flags := {| ignorecase := false; dotall := false |}.

Inductive item :=
| Ch (c : char)
| Range (lo hi : char)
| Space.                 (* the category \s *)

(** One-character matchers. *)
Inductive atom :=
| Dot
| OneOf (items : list item)    (* [...]  *)
| NoneOf (items : list item).  (* [^...] *)

Inductive regex :=
| Txt (l : str)                (* a run of literal characters *)
| One (a : atom)
| Seq (r1 r2 : regex)
| Opt (r : regex)              (* r?   *)
| Rep (min : nat) (a : atom)   (* a* with min = 0, a+ with min = 1 *)
| RepLazy (min : nat) (a : atom)   (* a*? *)
| Group (n : nat) (r : regex). (* (r), numbered; (?:r) is r itself *)

Definition is_upper (c : char) : bool := (65 <=? c) && (c <=? 90).
Definition is_lower (c : char) : bool := (97 <=? c) && (c <=? 122).

(** A literal of the pattern against a character of the text.  Under
    IGNORECASE an ASCII letter of a str pattern matches both of its cases,
    and i, s and k also match the four non-ASCII letters that fold to them
    (U+0130, U+0131, U+017F, U+212A). *)
Definition lit_ok (fl : flags) (p c : char) : bool :=
  (p =? c) ||
  (ignorecase fl &&
   (if is_lower p then
      (c =? p - 32) ||
      ((p =? 105) && ((c =? 304) || (c =? 305))) ||
      ((p =? 115) && (c =? 383)) ||
      ((p =? 107) && (c =? 8490))
    else if is_upper p then
      (c =? p + 32) ||
      ((p =? 73) && ((c =? 304) || (c =? 305))) ||
      ((p =? 83) && (c =? 383)) ||
      ((p =? 75) && (c =? 8490))
    else false)).

Definition item_ok (i : item) (c : char) : bool :=
  match i with
  | Ch a => a =? c
  | Range lo hi => (lo <=? c) && (c <=? hi)
  | Space => is_space c
  end.

(** The classes of this program are used without IGNORECASE or hold only
    the category [\s], so case folding inside a class is not modelled. *)
Definition atom_ok (fl : flags) (a : atom) (c : char) : bool :=
  match a with
  | Dot => dotall fl || negb (c =? nl)
  | OneOf items => existsb (fun i => item_ok i c) items
  | NoneOf items => negb (existsb (fun i => item_ok i c) items)
  end.

(** The captured groups, latest first. *)
Definition caps := list (nat * str).

Fixpoint group (n : nat) (cs : caps) : str :=
  match cs with
  | [] => []
  | (m, g) :: cs' => if Nat.eqb n m then g else group n cs'
  end.

(** What a successful match leaves: the text after it and the groups. *)
Definition result := (str * caps)%type.

Fixpoint eat (fl : flags) (l s : str) : option str :=
  match l, s with
  | [], _ => Some s
  | p :: l', c :: s' => if lit_ok fl p c then eat fl l' s' else None
  | _ :: _, [] => None
  end.

(** Greedy repetition of a one-character matcher: take as many characters as
    match, then give back one at a time until the rest of the pattern
    succeeds, never going below [min]. *)
Fixpoint greedy (p : char -> bool) (min : nat) (s : str)
    (k : str -> option result) : option result :=
  let stop := match min with O => k s | S _ => None end in
  match s with
  | c :: s' =>
      if p c then
        match greedy p (pred min) s' k with
        | Some r => Some r
        | None => stop
        end
      else stop
  | [] => stop
  end.

(** Lazy repetition: try the rest of the pattern first, and take one more
    character only when it fails. *)
Fixpoint lazy_rep (p : char -> bool) (min : nat) (s : str)
    (k : str -> option result) : option result :=
  let more := match s with
              | c :: s' => if p c then lazy_rep p (pred min) s' k else None
              | [] => None
              end in
  match min with
  | O => match k s with
         | Some r => Some r
         | None => more
         end
  | S _ => more
  end.

(** The matcher, in continuation-passing style: [k] is the rest of the
    pattern.  The first success in priority order is returned. *)
Fixpoint exec (fl : flags) (r : regex) (s : str) (cs : caps)
    (k : str -> caps -> option result) : option result :=
  match r with
  | Txt l => match eat fl l s with
             | Some s' => k s' cs
             | None => None
             end
  | One a => match s with
             | c :: s' => if atom_ok fl a c then k s' cs else None
             | [] => None
             end
  | Seq r1 r2 => exec fl r1 s cs (fun s1 cs1 => exec fl r2 s1 cs1 k)
  | Opt r1 => match exec fl r1 s cs k with
              | Some x => Some x
              | None => k s cs
              end
  | Rep min a => greedy (atom_ok fl a) min s (fun s' => k s' cs)
  | RepLazy min a => lazy_rep (atom_ok fl a) min s (fun s' => k s' cs)
  | Group n r1 =>
      exec fl r1 s cs
        (fun s1 cs1 => k s1 ((n, firstn (length s - length s1)%nat s) :: cs1))
  end.

(** A match anchored at the start of [s]. *)
Definition match_at (fl : flags) (r : regex) (s : str) : option result :=
  exec fl r s [] (fun s' cs => Some (s', cs)).

(** [re.search]: the match at the leftmost position that has one. *)
Fixpoint search (fl : flags) (r : regex) (s : str) : option result :=
  match match_at fl r s with
  | Some m => Some m
  | None => match s with
            | [] => None
            | _ :: s' => search fl r s'
            end
  end.

(** Replacement templates: literal text and group references. *)
Inductive piece :=
| Plain (l : str)
| Ref (n : nat).       (* \n *)

Fixpoint expand (t : list piece) (cs : caps) : str :=
  match t with
  | [] => []
  | Plain l :: t' => l ++ expand t' cs
  | Ref n :: t' => group n cs ++ expand t' cs
  end.

(** [re.sub]: scan from the left; where the pattern matches, write the
    replacement and go on after the match; elsewhere copy one character.
    [skip] counts the characters of the current match still to be passed
    over.  A match of the empty string is replaced and the scan moves on by
    one character. *)
Fixpoint sub_from (fl : flags) (r : regex) (t : list piece)
    (skip : nat) (s : str) : str :=
  match skip with
  | S n => match s with
           | [] => []
           | _ :: s' => sub_from fl r t n s'
           end
  | O =>
      match match_at fl r s with
      | Some (rest, cs) =>
          expand t cs ++
          match (length s - length rest)%nat, s with
          | S n, _ :: s' => sub_from fl r t n s'
          | _, c :: s' => c :: sub_from fl r t 0 s'
          | _, [] => []
          end
      | None =>
          match s with
          | [] => []
          | c :: s' => c :: sub_from fl r t 0 s'
          end
      end
  end.

Definition sub (fl : flags) (r : regex) (t : list piece) (s : str) : str :=
  sub_from fl r t 0 s.

(** ** clean_svg_response *)

Notation "r1 ;; r2" := (Seq r1 r2) (at level 61, right associativity).

(** r'```(?:svg)?\s*(<svg.*?</svg>)\s*```' *)
Definition fence_re : regex :=
  Txt (lit "```") ;; Opt (Txt (lit "svg")) ;; Rep 0 (OneOf [Space]) ;;
  Group 1 (Txt (lit "<svg") ;; RepLazy 0 Dot ;; Txt (lit "</svg>")) ;;
  Rep 0 (OneOf [Space]) ;; Txt (lit "```").

Definition fence_flags := {| ignorecase := true; dotall := true |}.

(** [a-zA-Z0-9\-:] *)
Definition name_class : atom :=
  OneOf [Range 97 122; Range 65 90; Range 48 57; Ch 45; Ch 58].

(** The negated class of the second group: any character but the double
    quote, [\s] and [>]. *)
Definition value_class : atom := NoneOf [Ch dq; Space; Ch 62].

(** Step 3's pattern: group 1 is [[a-zA-Z0-9\-:]+=], group 2 is one or
    more characters of the negated class.  The replacement is group 1, a
    double quote, group 2, a double quote. *)
Definition quote_re : regex :=
  Group 1 (Rep 1 name_class ;; Txt [eq_sign]) ;; Group 2 (Rep 1 value_class).

Definition quote_repl : list piece := [Ref 1; Plain [dq]; Ref 2; Plain [dq]].

(** Step 4's pattern: [\s+], the name as group 1, then [=] and two double
    quotes.  It is replaced by the empty string. *)
Definition empty_re : regex :=
  Rep 1 (OneOf [Space]) ;; Group 1 (Rep 1 name_class) ;; Txt [eq_sign; dq; dq].

(** Step 1: the text inside the fence when the search matches. *)
Definition fence_extract (response_text : str) : str :=
  match search fence_flags fence_re response_text with
  | Some (_, cs) => group 1 cs
  | None => response_text
  end.

(** Step 2 *)
Definition normalize (s : str) : str := strip (replace_nbsp s).

(** Step 3 *)
Definition quote_attrs (s : str) : str := sub no_flags quote_re quote_repl s.

(** Step 4 *)
Definition drop_empty_attrs (s : str) : str := sub no_flags empty_re [] s.

(** [None] is Python's None. *)
Definition clean_svg_response (response_text : option str) : str :=
  match response_text with
  | None => []
  | Some [] => []
  | Some t => drop_empty_attrs (quote_attrs (normalize (fence_extract t)))
  end.

(** The text that steps 3 and 4 work on. *)
Definition working_text (response_text : str) : str :=
  normalize (fence_extract response_text).

(** ** Scenario A *)

Definition scenario_A_input : str :=
  lit "```svg" ++ [nl] ++
  lit "<svg width=" ++ [dq] ++ lit "1" ++ [dq] ++
  lit " transform=scale(2) from=" ++ [dq; dq] ++ lit ">content</svg>" ++
  [nl] ++ lit "```".

Definition scenario_A_output : str :=
  lit "<svg width=" ++ [dq] ++ lit "1" ++ [dq] ++
  lit " transform=" ++ [dq] ++ lit "scale(2)" ++ [dq] ++
  lit ">content</svg>".

(** ** get_animated_svg and the button handler *)

Fixpoint str_eqb (a b : str) : bool :=
  match a, b with
  | [], [] => true
  | x :: a', y :: b' => (x =? y) && str_eqb a' b'
  | _, _ => false
  end.

(** Python's truth value of a str. *)
Definition truthy (s : str) : bool :=
  match s with [] => false | _ :: _ => true end.

(** A bytes object: numbers below 256. *)
Definition bytes := list N.

(** The UTF-8 form of one code point.  The surrogates U+D800 to U+DFFF have
    none: the strict encoder raises UnicodeEncodeError on them.  Numbers
    above U+10FFFF, which no Python string holds, are refused as well. *)
Definition utf8_char (c : char) : option bytes :=
  if c <? 128 then Some [c]
  else if c <? 2048 then Some [192 + c / 64; 128 + c mod 64]
  else if c <? 65536 then
    if (55296 <=? c) && (c <=? 57343) then None
    else Some [224 + c / 4096; 128 + (c / 64) mod 64; 128 + c mod 64]
  else if c <? 1114112 then
    Some [240 + c / 262144; 128 + (c / 4096) mod 64;
          128 + (c / 64) mod 64; 128 + c mod 64]
  else None.

(** [s.encode('utf-8')]; [None] when it raises. *)
Fixpoint encode_utf8 (s : str) : option bytes :=
  match s with
  | [] => Some []
  | c :: s' =>
      match utf8_char c, encode_utf8 s' with
      | Some b, Some bs => Some (b ++ bs)
      | _, _ => None
      end
  end.

(** The three connection parameters, as read at start-up. *)
Record config := {
  AZURE_OPENAI_ENDPOINT : str;
  AZURE_OPENAI_API_KEY : str;
  AZURE_OPENAI_DEPLOYMENT_NAME : str
}.

Definition ENDPOINT_PLACEHOLDER : str := lit "YOUR_AZURE_OPENAI_ENDPOINT_URL".
Definition API_KEY_PLACEHOLDER : str := lit "YOUR_AZURE_OPENAI_API_KEY".
Definition DEPLOYMENT_PLACEHOLDER : str := lit "YOUR_DEPLOYMENT_NAME".
Definition API_VERSION : str := lit "2024-02-01".

(** The chat-completion request; temperature and max_tokens are constants
    of the call and carry no input. *)
Record request := {
  rq_model : str;
  rq_system : str;
  rq_user : str
}.

(** What one call of [client.chat.completions.create] comes back with: the
    content of the first choice (which may be None) or an exception, given
    by its message. *)
Inductive reply :=
| Content (c : option str)
| Raised (e : str).

(** The effects of the program, in the order they happen. *)
Inductive event :=
| StError (msg : str)
| StWarning (msg : str)
| StSuccess (msg : str)
| ClientCreated (endpoint key version : str)
| ChatRequest (rq : request)   (* one call of client.chat.completions.create *)
| ResultError (msg : str)
| ResultMarkdown (html : str)
| DownloadButton (data : bytes) (file_name mime : str)
| CodeExpander (code : str)    (* st.code(code, language='xml') in the expander *)
| StCode (code language : str)
| Uncaught (exception : str).  (* an exception that leaves the script *)

Definition CREDENTIALS_ERROR : str :=
  lit "Error: Azure OpenAI credentials are not configured. Please set the variables in the code or use environment variables.".

(** The pieces of the f-string [user_prompt], around its three fields. *)
Definition prompt_head : str :=
  [nl] ++ lit "        Here is the SVG code:" ++ [nl] ++
  lit "        ---" ++ [nl] ++ lit "        ".

Definition prompt_mid1 : str :=
  [nl] ++ lit "        ---" ++ [nl] ++ [nl] ++
  lit "        Description of what the graphic shows:" ++ [nl] ++
  lit "        ---" ++ [nl] ++ lit "        ".

Definition prompt_mid2 : str :=
  [nl] ++ lit "        ---" ++ [nl] ++ [nl] ++
  lit "        Animation instructions:" ++ [nl] ++
  lit "        ---" ++ [nl] ++ lit "        ".

Definition prompt_tail : str :=
  [nl] ++ lit "        ---" ++ [nl] ++ lit "        ".

Definition user_prompt (cleaned_svg_code description animation_instructions : str)
  : str :=
  prompt_head ++ cleaned_svg_code ++ prompt_mid1 ++ description ++
  prompt_mid2 ++ animation_instructions ++ prompt_tail.

Section App.

(** The system instruction, an opaque constant. *)
Variable SYSTEM_PROMPT : str.

Variable cfg : config.

(** The hosted endpoint, as [get_animated_svg] sees one call of
    [client.chat.completions.create]: the content that comes back or the
    exception that is raised.  What the client library does inside that
    call is not modelled; the client is built with the library's default
    for max_retries, so a failing request may be sent again there. *)
Variable chat_completion : request -> reply.

(** The statements under the last [if animated_svg_result:] of the
    handler.  The source has [show_rejected] there (below, after the
    section); the handler takes them as a parameter, so that what is proved
    of it for every such parameter does not rest on that line. *)
Variable rejected_details : str -> list event.

Definition configured : bool :=
  forallb (fun b : bool => b)
    [ negb (str_eqb (AZURE_OPENAI_ENDPOINT cfg) ENDPOINT_PLACEHOLDER);
      negb (str_eqb (AZURE_OPENAI_API_KEY cfg) API_KEY_PLACEHOLDER);
      negb (str_eqb (AZURE_OPENAI_DEPLOYMENT_NAME cfg) DEPLOYMENT_PLACEHOLDER) ].

Definition get_animated_svg (svg_code description animation_instructions : str)
  : list event * option str :=
  let cleaned_svg_code := replace_nbsp svg_code in
  if negb configured then ([StError CREDENTIALS_ERROR], None)
  else
    let client :=
      ClientCreated (AZURE_OPENAI_ENDPOINT cfg) (AZURE_OPENAI_API_KEY cfg)
        API_VERSION in
    let rq := {| rq_model := AZURE_OPENAI_DEPLOYMENT_NAME cfg;
                 rq_system := SYSTEM_PROMPT;
                 rq_user := user_prompt cleaned_svg_code description
                              animation_instructions |} in
    match chat_completion rq with
    | Content animated_svg =>
        ([client; ChatRequest rq], Some (clean_svg_response animated_svg))
    | Raised e =>
        ([client; ChatRequest rq;
          StError (lit "An error occurred with the API request: " ++ e)],
         None)
    end.

(** The condition of the handler: a truthy result whose stripped text
    starts with the root tag, case-sensitively. *)
Definition acceptable (animated_svg_result : option str) : bool :=
  match animated_svg_result with
  | None => false
  | Some r => truthy r && startswith (lit "<svg") (strip r)
  end.

Definition display_html (animated_svg_result : str) : str :=
  [nl] ++ lit "            <div style=" ++ [dq] ++
  lit "border: 1px solid #ccc; border-radius: 8px; padding: 20px; text-align: center; background-color: #f9f9f9;" ++
  [dq] ++ lit ">" ++ [nl] ++
  lit "                <div style=" ++ [dq] ++
  lit "max-width: 100%; height: auto;" ++ [dq] ++ lit ">" ++ [nl] ++
  lit "                    " ++ animated_svg_result ++ [nl] ++
  lit "                </div>" ++ [nl] ++
  lit "            </div>" ++ [nl] ++ lit "            ".

(** What the handler does with the result of [get_animated_svg].  The data
    of the download button is the result encoded as UTF-8; when the encoder
    raises, nothing catches the exception and the statements after it are
    not reached. *)
Definition present (animated_svg_result : option str) : list event :=
  if acceptable animated_svg_result then
    match animated_svg_result with
    | Some r =>
        StSuccess (lit "Animation created successfully!") ::
        ResultMarkdown (display_html r) ::
        match encode_utf8 r with
        | Some data =>
            [ DownloadButton data (lit "animated_graphic.svg")
                (lit "image/svg+xml");
              CodeExpander r ]
        | None => [Uncaught (lit "UnicodeEncodeError")]
        end
    | None => []
    end
  else
    ResultError (lit "Could not create a valid SVG animation. Please try a different description or check your original SVG code.")
    :: match animated_svg_result with
       | Some ((_ :: _) as r) => rejected_details r
       | _ => []
       end.

(** The handler of the Animate button. *)
Definition on_animate (svg_code_input description_input animation_input : str)
  : list event :=
  if negb (truthy svg_code_input) || negb (truthy description_input)
     || negb (truthy animation_input)
  then [StWarning (lit "Please fill in all fields to continue.")]
  else
    let (effects, animated_svg_result) :=
      get_animated_svg svg_code_input description_input animation_input in
    effects ++ present animated_svg_result.

(** The user message of the request that [get_animated_svg] sends, when it
    sends one. *)
Definition sent_user_message (svg_code description animation_instructions : str)
  : option str :=
  match fst (get_animated_svg svg_code description animation_instructions) with
  | [_; ChatRequest rq] | [_; ChatRequest rq; _] => Some (rq_user rq)
  | _ => None
  end.

(** Whether a run of the program reached the network. *)
Definition calls_remote (effects : list event) : bool :=
  existsb (fun e => match e with
                    | ClientCreated _ _ _ | ChatRequest _ => true
                    | _ => false
                    end) effects.

End App.

(** [st.code(animated_svg_result, language='text')], the statement under
    the last [if animated_svg_result:]. *)
Definition show_rejected (animated_svg_result : str) : list event :=
  [StCode animated_svg_result (lit "text")].

(** ** Notions used to state the properties *)

(** The longest prefix of [s] whose characters satisfy [p], and what follows. *)
Fixpoint span (p : char -> bool) (s : str) : str * str :=
  match s with
  | c :: s' => if p c then let (run, rest) := span p s' in (c :: run, rest)
               else ([], s)
  | [] => ([], [])
  end.

(** The first suffix of [s], from the left, on which [f] succeeds. *)
Fixpoint first_at {A : Type} (f : str -> option A) (s : str) : option A :=
  match f s with
  | Some r => Some r
  | None => match s with
            | [] => None
            | _ :: s' => first_at f s'
            end
  end.

Definition is_name_char (c : char) : bool := atom_ok no_flags name_class c.
Definition is_value_char (c : char) : bool := atom_ok no_flags value_class c.

(** [m] is the literal [l] up to the case folding of the fence search. *)
Definition same_text (l m : str) : bool :=
  match eat fence_flags l m with
  | Some [] => true
  | _ => false
  end.

Definition fence : str := lit "```".

(** The language tag the fence pattern accepts: none, or svg in any case. *)
Definition tag_ok (tag : str) : bool :=
  match tag with
  | [] => true
  | _ => same_text (lit "svg") tag
  end.

(** [g] opens with the root tag and closes with its closing tag. *)
Definition svg_doc (g : str) : Prop :=
  exists o body c,
    g = o ++ body ++ c /\
    same_text (lit "<svg") o = true /\ same_text (lit "</svg>") c = true.

(** [s] starts with a fenced block with content [g], followed by [rest]. *)
Definition fenced_then (s g rest : str) : Prop :=
  exists tag ws ws',
    s = fence ++ tag ++ ws ++ g ++ ws' ++ fence ++ rest /\
    tag_ok tag = true /\
    forallb is_space ws = true /\ forallb is_space ws' = true /\
    svg_doc g.

Definition fenced (s g : str) : Prop := exists rest, fenced_then s g rest.

(** ** Notions used in the proofs *)

(** What follows the optional language tag in the fence pattern. *)
Definition fence_tail : regex :=
  Rep 0 (OneOf [Space]) ;;
  Group 1 (Txt (lit "<svg") ;; RepLazy 0 Dot ;; Txt (lit "</svg>")) ;;
  Rep 0 (OneOf [Space]) ;; Txt (lit "```").

(** The end of the fence pattern tried at [u], for a group opened at [s3]. *)
Definition close_at (s3 u : str) : option result :=
  match eat fence_flags (lit "</svg>") u with
  | None => None
  | Some s5 =>
      match eat fence_flags fence (snd (span is_space s5)) with
      | None => None
      | Some s7 => Some (s7, [(1%nat, firstn (length s3 - length s5)%nat s3)])
      end
  end.

(** An anchored match of step 3's pattern: the key, the value and the text
    after them. *)
Definition quote_match (s : str) : option (str * str * str) :=
  let (key, s1) := span is_name_char s in
  match key, s1 with
  | _ :: _, c :: s2 =>
      if c =? eq_sign then
        let (v, rest) := span is_value_char s2 in
        match v with
        | [] => None
        | _ :: _ => Some (key, v, rest)
        end
      else None
  | _, _ => None
  end.

(** An anchored match of step 4's pattern: the name and the text after the
    attribute. *)
Definition empty_match (s : str) : option (str * str) :=
  let (ws, s1) := span is_space s in
  match ws with
  | [] => None
  | _ :: _ =>
      let (name, s2) := span is_name_char s1 in
      match name with
      | [] => None
      | _ :: _ =>
          match eat no_flags [eq_sign; dq; dq] s2 with
          | Some rest => Some (name, rest)
          | None => None
          end
      end
  end.

(** A block after the language tag: spaces, the content, spaces, the fence. *)
Definition tail_block (s g rest : str) : Prop :=
  exists ws ws',
    s = ws ++ g ++ ws' ++ fence ++ rest /\
    forallb is_space ws = true /\ forallb is_space ws' = true /\ svg_doc g.

(** [t] is empty or starts with a character outside [p]. *)
Definition stops (p : char -> bool) (t : str) : Prop :=
  match t with [] => True | c :: _ => p c = false end.

(** The result of an anchored match, seen from a longer text. *)
Definition extend (t : str) (m : option result) : option result :=
  match m with
  | Some (rest, cs) => Some (rest ++ t, cs)
  | None => None
  end.

(** The result of [empty_match], seen from a longer text. *)
Definition extend_empty (t : str) (m : option (str * str)) : option (str * str) :=
  match m with
  | Some (name, rest) => Some (name, rest ++ t)
  | None => None
  end.

Definition no_space (c : char) : bool := negb (is_space c).

(** [pre] is empty or ends with a character that no unquoted value holds:
    white space, [>] or the double quote. *)
Definition ends_token (pre : str) : bool := negb (is_value_char (last pre sp)).

(** The text [pre] closes every double quote it opens, so that what follows
    it does not lie inside a double-quoted value. *)
Definition outside_quotes (pre : str) : bool :=
  Nat.even (length (filter (fun c => c =? dq) pre)).

(** [post] is empty or starts with such a character. *)
Definition value_stops (post : str) : bool := negb (is_value_char (hd sp post)).

(** [pre] is empty or ends with a character that is no white space. *)
Definition no_trailing_space (pre : str) : bool := negb (is_space (last pre 0)).

(** No character of [s] is the non-breaking space. *)
Definition no_nbsp (s : str) : bool := forallb (fun c => negb (c =? nbsp)) s.

(** A text is stripped when neither end is white space. *)
Definition stripped (s : str) : Prop :=
  is_space (hd 0 s) = false /\ is_space (last s 0) = false.

(** ** Texts used as examples *)

(** A fenced block tagged xml. *)
Definition xml_fenced : str :=
  lit "```xml" ++ [nl] ++ lit "<svg></svg>" ++ [nl] ++ lit "```".

(** Two fenced blocks in one text. *)
Definition two_blocks : str :=
  lit "```<svg>a</svg>``` or ```<svg>b</svg>```".

(** A fenced block whose content holds a fence. *)
Definition fence_inside : str := lit "```<svg><svg>a</svg>```</svg>```".

(** A fenced document with a nested root element. *)
Definition nested_fenced : str := lit "```<svg><svg></svg></svg>```".

(** The content [g] holds the closing tag only at its end. *)
Definition ends_at_first_close (g : str) : bool :=
  negb (contains (lit "</svg>") (removelast g)).

(** A root element whose style value holds an equals sign, before and after
    step 3. *)
Definition styled_svg : str :=
  lit "<svg style=" ++ [dq] ++ lit "a=b" ++ [dq] ++ lit "></svg>".

Definition styled_svg_quoted : str :=
  lit "<svg style=" ++ [dq] ++ lit "a=" ++ [dq] ++ lit "b" ++ [dq; dq] ++
  lit "></svg>".

(** An assignment in the prose before a fenced block. *)
Definition assignment_in_prose : str := lit "x=1 ```<svg></svg>```".

(** An empty attribute that directly follows a quoted value. *)
Definition glued_empty_attr : str :=
  lit "<g id=" ++ [dq] ++ lit "a" ++ [dq] ++ lit "to=" ++ [dq; dq] ++ lit ">".

(** A text on which removing one empty attribute forms another. *)
Definition cascading_empty_attrs : str :=
  lit "a x y=" ++ [dq; dq] ++ lit "=" ++ [dq; dq].

Definition refusal : str := lit "Sorry, I can't help with that.".

(** Connection parameters that are all set, and with the key left at its
    placeholder. *)
Definition some_config : config :=
  {| AZURE_OPENAI_ENDPOINT := lit "https://example.openai.azure.com";
     AZURE_OPENAI_API_KEY := lit "key";
     AZURE_OPENAI_DEPLOYMENT_NAME := lit "deployment" |}.

Definition keyless_config : config :=
  {| AZURE_OPENAI_ENDPOINT := lit "https://example.openai.azure.com";
     AZURE_OPENAI_API_KEY := API_KEY_PLACEHOLDER;
     AZURE_OPENAI_DEPLOYMENT_NAME := lit "deployment" |}.

(** The user message with the three inputs put in unchanged. *)
Definition verbatim_message (svg_code description animation_instructions : str)
  : str :=
  prompt_head ++ svg_code ++ prompt_mid1 ++ description ++
  prompt_mid2 ++ animation_instructions ++ prompt_tail.

(** The effects that show or offer a result. *)
Definition renders (effects : list event) : bool :=
  existsb (fun e => match e with
                    | StSuccess _ | ResultMarkdown _ | DownloadButton _ _ _
                    | CodeExpander _ => true
                    | _ => false
                    end) effects.

(** ** Notions used for the further properties *)

(** No character of [s] is the equals sign. *)
Definition no_eq_sign (s : str) : bool :=
  forallb (fun c => negb (c =? eq_sign)) s.

(** A character that steps 3 and 4 neither write nor delete: anything but
    white space, a name character, the equals sign and the double quote. *)
Definition structural (c : char) : bool :=
  negb (is_space c || is_name_char c || (c =? eq_sign) || (c =? dq)).

Definition not_dq (c : char) : bool := negb (c =? dq).

(** A reply fenced as svg whose root tag is written in capitals. *)
Definition capital_fenced : str :=
  lit "Here you go:" ++ [nl] ++ lit "```svg" ++ [nl] ++
  lit "<SVG width=10></SVG>" ++ [nl] ++ lit "```".

(** The request that [get_animated_svg] builds from its inputs. *)
Definition request_for (SYSTEM_PROMPT : str) (cfg : config)
    (svg_code description animation_instructions : str) : request :=
  {| rq_model := AZURE_OPENAI_DEPLOYMENT_NAME cfg;
     rq_system := SYSTEM_PROMPT;
     rq_user := user_prompt (replace_nbsp svg_code) description
                  animation_instructions |}.

(** The client that [get_animated_svg] creates. *)
Definition client_for (cfg : config) : event :=
  ClientCreated (AZURE_OPENAI_ENDPOINT cfg) (AZURE_OPENAI_API_KEY cfg) API_VERSION.

(** An endpoint that always raises, and one that always answers. *)
Definition failing_endpoint (rq : request) : reply := Raised (lit "timeout").

Definition answering_endpoint (rq : request) : reply :=
  Content (Some scenario_A_input).

(** ** Notions used for the second pass *)

(** [f] holds of every suffix of [s], the empty one included. *)
Fixpoint each_suffix (f : str -> bool) (s : str) : bool :=
  f s && match s with
         | [] => true
         | _ :: s' => each_suffix f s'
         end.

Definition no_backtick (s : str) : bool :=
  forallb (fun c => negb (c =? backtick)) s.

(** An equals sign at the head of [t] is the only one up to the next white
    space, double quote or [>]. *)
Definition single_eq (t : str) : bool :=
  match t with
  | c :: t' => negb (c =? eq_sign) || no_eq_sign (fst (span is_value_char t'))
  | [] => true
  end.

(** An equals sign at the head of [t] is not followed by white space. *)
Definition eq_before_text (t : str) : bool :=
  match t with
  | a :: b :: _ => negb ((a =? eq_sign) && is_space b)
  | _ => true
  end.

(** [rest] is empty or starts with a character other than a name character,
    the equals sign and the double quote. *)
Definition follow_ok (rest : str) : bool :=
  match rest with
  | [] => true
  | c :: _ => negb (is_name_char c || (c =? eq_sign) || (c =? dq))
  end.

(** When step 4's pattern matches at the head of [t], what follows the
    match is [follow_ok]. *)
Definition empty_attr_closed (t : str) : bool :=
  match match_at no_flags empty_re t with
  | Some (rest, _) => follow_ok rest
  | None => true
  end.

(** The working texts on which a second pass changes nothing: no backtick;
    no two equals signs in one run of characters free of white space, double
    quotes and [>]; no equals sign directly before white space; and after
    every empty attribute the end of the text or a character that is no
    name character, equals sign or double quote. *)
Definition tidy (w : str) : bool :=
  no_backtick w && each_suffix single_eq w &&
  each_suffix eq_before_text w && each_suffix empty_attr_closed w.

(** Step 3's pattern does not match at the head of [t]. *)
Definition no_quote_match (t : str) : bool :=
  match match_at no_flags quote_re t with
  | Some _ => false
  | None => true
  end.

(** What step 3's pattern needs after a name in order to fail. *)
Definition no_value_after (s2 : str) : Prop :=
  match s2 with
  | c :: s3 => c = eq_sign -> stops is_value_char s3
  | [] => True
  end.

(** Texts on which a second pass changes the result: a value that holds an
    equals sign, an equals sign before the white space of an empty
    attribute, and backticks that meet once an empty attribute is gone. *)
Definition chained_assignment : str := lit "a=b=c".

Definition dangling_assignment : str :=
  lit "a= b=" ++ [dq; dq] ++ lit "/".

Definition fence_closed_by_removal : str :=
  lit "```<svg></svg> a=" ++ [dq; dq] ++ lit "```".

(** * Properties *)

#[local] Arguments N.eqb : simpl never.
#[local] Arguments N.leb : simpl never.

(** ** Runs of characters *)

Section Runs.

Variable p : char -> bool.

Lemma span_app (s : str) : fst (span p s) ++ snd (span p s) = s.
Proof.
  induction s as [|c s IH]; simpl; [reflexivity|].
  destruct (p c); [|reflexivity].
  destruct (span p s) as [run rest]; simpl in *. now rewrite IH.
Qed.

Lemma span_all (s : str) : forallb p (fst (span p s)) = true.
Proof.
  induction s as [|c s IH]; simpl; [reflexivity|].
  destruct (p c) eqn:E; [|reflexivity].
  destruct (span p s) as [run rest]; simpl in *. now rewrite E, IH.
Qed.

Lemma span_stop (s : str) :
  match snd (span p s) with
  | [] => True
  | c :: _ => p c = false
  end.
Proof.
  induction s as [|c s IH]; simpl; [exact I|].
  destruct (p c) eqn:E; [|exact E].
  destruct (span p s) as [run rest]; simpl in *. exact IH.
Qed.

(** A run followed by a character outside [p] is the whole span. *)
Lemma span_run (run rest : str) :
  forallb p run = true ->
  match rest with [] => True | c :: _ => p c = false end ->
  span p (run ++ rest) = (run, rest).
Proof.
  intros Hrun Hrest. induction run as [|c run IH]; simpl in *.
  - destruct rest as [|c rest]; [reflexivity|]. simpl. now rewrite Hrest.
  - apply andb_prop in Hrun as [Hc Hrun]. rewrite Hc, (IH Hrun). reflexivity.
Qed.

(** Greedy repetition settles on the longest run as soon as the rest of the
    pattern accepts what follows it, or cannot start inside a run. *)
Lemma greedy_span (min : nat) (s : str) (k : str -> option result) :
  k (snd (span p s)) <> None \/ (forall c s', p c = true -> k (c :: s') = None) ->
  greedy p min s k =
  if (min <=? length (fst (span p s)))%nat then k (snd (span p s)) else None.
Proof.
  revert min. induction s as [|c s IH]; intros min Hk; simpl in *.
  - destruct min; reflexivity.
  - destruct (p c) eqn:E.
    + destruct (span p s) as [run rest] eqn:Es; simpl in *.
      rewrite IH by exact Hk.
      destruct min as [|min]; simpl.
      * destruct (k rest) eqn:Ek; [reflexivity|].
        destruct Hk as [Hk|Hk]; [congruence|]. now apply Hk.
      * destruct (min <=? length run)%nat; [|reflexivity].
        now destruct (k rest).
    + destruct min; reflexivity.
Qed.

End Runs.

(** ** The first suffix that succeeds *)

Section First.

Context {A : Type}.
Variable f : str -> option A.

Lemma first_at_some (s : str) (r : A) :
  first_at f s = Some r ->
  exists a b, s = a ++ b /\ f b = Some r /\
    forall a1 a2, a = a1 ++ a2 -> a2 <> [] -> f (a2 ++ b) = None.
Proof.
  induction s as [|c s IH]; simpl; intros H.
  - destruct (f []) eqn:E; [|discriminate]. injection H as <-.
    exists [], []. repeat split; trivial.
    intros a1 a2 Ha. now destruct a1, a2.
  - destruct (f (c :: s)) eqn:E.
    + injection H as <-. exists [], (c :: s). repeat split; trivial.
      intros a1 a2 Ha. now destruct a1, a2.
    + destruct (IH H) as (a & b & -> & Hb & Hmin).
      exists (c :: a), b. repeat split; trivial.
      intros a1 a2 Ha Hne. destruct a1 as [|x a1]; simpl in Ha.
      * subst a2. exact E.
      * injection Ha as _ Ha. now apply (Hmin a1).
Qed.

Lemma first_at_none (s : str) :
  first_at f s = None -> forall a b, s = a ++ b -> f b = None.
Proof.
  induction s as [|c s IH]; simpl; intros H a b Hs.
  - destruct a, b; try discriminate. now destruct (f []).
  - destruct (f (c :: s)) eqn:E; [discriminate|].
    destruct a as [|x a]; simpl in Hs.
    + now subst b.
    + injection Hs as _ Hs. now apply (IH H a).
Qed.

Lemma first_at_skip (a b : str) :
  (forall a1 a2, a = a1 ++ a2 -> a2 <> [] -> f (a2 ++ b) = None) ->
  first_at f (a ++ b) = first_at f b.
Proof.
  induction a as [|c a IH]; intros H; [reflexivity|].
  assert (E : f ((c :: a) ++ b) = None) by (apply (H []); [reflexivity|discriminate]).
  simpl in *. rewrite E.
  apply IH. intros a1 a2 -> Hne. now apply (H (c :: a1)).
Qed.

Lemma first_at_here (s : str) (r : A) : f s = Some r -> first_at f s = Some r.
Proof. intros H. destruct s; simpl; now rewrite H. Qed.

End First.

Lemma first_at_ext {A : Type} (f g : str -> option A) (s : str) :
  (forall u, f u = g u) -> first_at f s = first_at g s.
Proof.
  intros H. induction s as [|c s IH]; simpl; rewrite H; [reflexivity|].
  now rewrite IH.
Qed.

(** The search is the first suffix that matches. *)
Lemma search_first (fl : flags) (r : regex) (s : str) :
  search fl r s = first_at (match_at fl r) s.
Proof. induction s as [|c s IH]; simpl; [reflexivity|]. now rewrite IH. Qed.

(** A lazy repetition of a matcher that accepts every character. *)
Lemma lazy_rep_first (p : char -> bool) (s : str) (k : str -> option result) :
  (forall c, p c = true) -> lazy_rep p 0 s k = first_at k s.
Proof.
  intros Hp. induction s as [|c s IH]; simpl.
  - now destruct (k []).
  - rewrite Hp, IH. reflexivity.
Qed.

(** ** Literal text *)

Lemma eat_app (fl : flags) (l m rest : str) :
  eat fl l m = Some [] -> eat fl l (m ++ rest) = Some rest.
Proof.
  revert m. induction l as [|x l IH]; intros m; simpl.
  - destruct m; [reflexivity|discriminate].
  - destruct m as [|c m]; [discriminate|]. simpl.
    destruct (lit_ok fl x c); [apply IH|discriminate].
Qed.

Lemma eat_split (fl : flags) (l s rest : str) :
  eat fl l s = Some rest ->
  exists m, s = m ++ rest /\ eat fl l m = Some [] /\ length m = length l.
Proof.
  revert s. induction l as [|x l IH]; intros s; simpl.
  - intros [= ->]. now exists [].
  - destruct s as [|c s]; [discriminate|].
    destruct (lit_ok fl x c) eqn:E; [|discriminate].
    intros H. destruct (IH _ H) as (m & -> & Hm & Hlen).
    exists (c :: m). simpl. rewrite E. auto.
Qed.

Lemma same_text_eat (l m rest : str) :
  same_text l m = true -> eat fence_flags l (m ++ rest) = Some rest.
Proof.
  unfold same_text. intros H. apply eat_app.
  destruct (eat fence_flags l m) as [[|]|]; try discriminate H; reflexivity.
Qed.

Lemma same_text_length (l m : str) :
  same_text l m = true -> length m = length l.
Proof.
  unfold same_text. destruct (eat fence_flags l m) as [[|]|] eqn:E; try discriminate.
  intros _. destruct (eat_split _ _ _ _ E) as (m' & -> & _ & H).
  now rewrite app_nil_r.
Qed.

Lemma eat_same_text (l s rest : str) :
  eat fence_flags l s = Some rest ->
  exists m, s = m ++ rest /\ same_text l m = true.
Proof.
  intros H. destruct (eat_split _ _ _ _ H) as (m & -> & Hm & _).
  exists m. split; [reflexivity|]. unfold same_text. now rewrite Hm.
Qed.

(** ** The three patterns in closed form *)

Lemma lit_ok_plain (x c : char) : lit_ok no_flags x c = (x =? c).
Proof. unfold lit_ok. simpl. apply orb_false_r. Qed.

Lemma name_not_eq (c : char) :
  is_name_char c = true -> lit_ok no_flags eq_sign c = false.
Proof.
  rewrite lit_ok_plain. intros H.
  destruct (N.eqb_spec eq_sign c) as [<-|]; [discriminate|reflexivity].
Qed.

Lemma greedy_ext (p q : char -> bool) (min : nat) (s : str) k :
  (forall c, p c = q c) -> greedy p min s k = greedy q min s k.
Proof.
  intros H. revert min. induction s as [|c s IH]; intros min; simpl; [reflexivity|].
  now rewrite H, IH.
Qed.

Lemma space_class (fl : flags) (c : char) : atom_ok fl (OneOf [Space]) c = is_space c.
Proof. simpl. apply orb_false_r. Qed.

Lemma dot_all (c : char) : atom_ok fence_flags Dot c = true.
Proof. reflexivity. Qed.

Lemma match_fence_unfold (s : str) :
  match_at fence_flags fence_re s =
  match eat fence_flags fence s with
  | None => None
  | Some s1 =>
      match match eat fence_flags (lit "svg") s1 with
            | Some s2 => match_at fence_flags fence_tail s2
            | None => None
            end with
      | Some x => Some x
      | None => match_at fence_flags fence_tail s1
      end
  end.
Proof. reflexivity. Qed.

Lemma space_not_lit (fl : flags) (x c : char) :
  is_space c = true -> is_space x = false -> is_upper x = false ->
  is_lower x = false -> lit_ok fl x c = false.
Proof.
  intros Hc Hx Hu Hl. unfold lit_ok. rewrite Hl, Hu, andb_false_r, orb_false_r.
  apply N.eqb_neq. intros ->. congruence.
Qed.

Lemma match_fence_tail (s : str) :
  match_at fence_flags fence_tail s =
  match eat fence_flags (lit "<svg") (snd (span is_space s)) with
  | None => None
  | Some s4 => first_at (close_at (snd (span is_space s))) s4
  end.
Proof.
  unfold match_at, fence_tail. cbn [exec].
  rewrite (greedy_ext _ is_space) by apply space_class.
  rewrite greedy_span.
  2:{ right. intros c s' Hc. cbn [eat lit]. 
      rewrite (space_not_lit _ _ _ Hc) by reflexivity. reflexivity. }
  cbn [Nat.leb].
  destruct (eat fence_flags (lit "<svg") (snd (span is_space s))) as [s4|]; [|reflexivity].
  rewrite lazy_rep_first by apply dot_all.
  apply first_at_ext. intros u. unfold close_at.
  destruct (eat fence_flags (lit "</svg>") u) as [s5|]; [|reflexivity].
  rewrite (greedy_ext _ is_space) by apply space_class.
  rewrite greedy_span.
  2:{ right. intros c s' Hc. cbn [eat lit]. 
      rewrite (space_not_lit _ _ _ Hc) by reflexivity. reflexivity. }
  cbn [Nat.leb]. reflexivity.
Qed.

Lemma firstn_consumed (m rest : str) :
  firstn (length (m ++ rest) - length rest)%nat (m ++ rest) = m.
Proof.
  rewrite length_app, Nat.add_sub. rewrite firstn_app, Nat.sub_diag, firstn_all.
  simpl. apply app_nil_r.
Qed.

Lemma match_quote (s : str) :
  match_at no_flags quote_re s =
  match quote_match s with
  | Some (key, v, rest) => Some (rest, [(2%nat, v); (1%nat, key ++ [eq_sign])])
  | None => None
  end.
Proof.
  unfold match_at, quote_re, quote_match. cbn [exec].
  change (atom_ok no_flags name_class) with is_name_char.
  change (atom_ok no_flags value_class) with is_value_char.
  rewrite greedy_span.
  2:{ right. intros c s' Hc. cbn [eat]. now rewrite name_not_eq. }
  pose proof (span_app is_name_char s) as Hs.
  destruct (span is_name_char s) as [key s1]. simpl fst in *. simpl snd in *.
  destruct key as [|k0 key]; [reflexivity|].
  cbn [length Nat.leb eat].
  destruct s1 as [|c s2]; [reflexivity|].
  rewrite lit_ok_plain, N.eqb_sym.
  destruct (N.eqb_spec c eq_sign) as [->|]; [|reflexivity].
  rewrite greedy_span.
  2:{ left.
      destruct (snd (span is_value_char s2)); discriminate. }
  pose proof (span_app is_value_char s2) as Hv.
  destruct (span is_value_char s2) as [v rest]. simpl fst in *. simpl snd in *.
  destruct v as [|v0 v]; [reflexivity|].
  cbn [length Nat.leb]. subst s2.
  rewrite firstn_consumed. subst s.
  replace ((k0 :: key) ++ eq_sign :: (v0 :: v) ++ rest)
    with (((k0 :: key) ++ [eq_sign]) ++ (v0 :: v) ++ rest)
    by (rewrite <- app_assoc; reflexivity).
  rewrite firstn_consumed. reflexivity.
Qed.

Lemma quote_match_split (s key v rest : str) :
  quote_match s = Some (key, v, rest) ->
  s = key ++ [eq_sign] ++ v ++ rest /\ key <> [] /\ v <> [] /\
  forallb is_name_char key = true /\ forallb is_value_char v = true /\
  match rest with [] => True | c :: _ => is_value_char c = false end.
Proof.
  unfold quote_match.
  pose proof (span_app is_name_char s) as Hs.
  pose proof (span_all is_name_char s) as Hk.
  destruct (span is_name_char s) as [key' s1]. simpl fst in *. simpl snd in *.
  destruct key' as [|k0 key']; [discriminate|].
  destruct s1 as [|c s2]; [discriminate|].
  destruct (N.eqb_spec c eq_sign) as [->|]; [|discriminate].
  pose proof (span_app is_value_char s2) as Hs2.
  pose proof (span_all is_value_char s2) as Hv.
  pose proof (span_stop is_value_char s2) as Hr.
  destruct (span is_value_char s2) as [v' rest']. simpl fst in *. simpl snd in *.
  destruct v' as [|v0 v']; [discriminate|].
  intros [= <- <- <-]. subst. repeat split; trivial; discriminate.
Qed.

Lemma name_not_space (c : char) : is_name_char c = true -> is_space c = false.
Proof.
  unfold is_name_char, is_space. simpl. intros H.
  repeat match goal with
  | H : _ || _ = true |- _ => apply orb_prop in H as [H|H]
  | H : _ && _ = true |- _ => apply andb_prop in H as [? ?]
  | H : (_ <=? _) = true |- _ => apply N.leb_le in H
  | H : (_ =? _) = true |- _ => apply N.eqb_eq in H
  | H : false = true |- _ => discriminate H
  end;
  repeat match goal with
  | |- _ || _ = false => apply orb_false_intro
  | |- _ && _ = false => apply andb_false_iff
  end;
  try (apply N.eqb_neq; lia);
  try (left; apply N.leb_gt; lia); try (right; apply N.leb_gt; lia).
Qed.

Lemma match_empty (s : str) :
  match_at no_flags empty_re s =
  match empty_match s with
  | Some (name, rest) => Some (rest, [(1%nat, name)])
  | None => None
  end.
Proof.
  unfold match_at, empty_re, empty_match. cbn [exec].
  rewrite (greedy_ext _ is_space) by apply space_class.
  change (atom_ok no_flags name_class) with is_name_char.
  rewrite greedy_span.
  2:{ right. intros c s' Hc. simpl.
      destruct (is_name_char c) eqn:E; [|reflexivity].
      apply name_not_space in E. congruence. }
  destruct (span is_space s) as [ws s1]. simpl fst. simpl snd.
  destruct ws as [|w0 ws]; [reflexivity|].
  cbn [length Nat.leb].
  rewrite greedy_span.
  2:{ right. intros c s' Hc. cbn [eat]. now rewrite name_not_eq. }
  pose proof (span_app is_name_char s1) as Hs.
  destruct (span is_name_char s1) as [name s2]. simpl fst in *. simpl snd in *.
  destruct name as [|k0 name]; [reflexivity|].
  cbn [length Nat.leb].
  destruct (eat no_flags [eq_sign; dq; dq] s2) as [rest|]; [|reflexivity].
  subst s1. rewrite firstn_consumed. reflexivity.
Qed.

(** ** Substitution, one match at a time *)

Section Sub.

Variables (fl : flags) (r : regex) (t : list piece).

Lemma sub_from_skip (m rest : str) :
  sub_from fl r t (length m) (m ++ rest) = sub_from fl r t 0 rest.
Proof. induction m as [|c m IH]; [reflexivity|exact IH]. Qed.

Lemma sub_match (m rest : str) (cs : caps) :
  m <> [] -> match_at fl r (m ++ rest) = Some (rest, cs) ->
  sub fl r t (m ++ rest) = expand t cs ++ sub fl r t rest.
Proof.
  intros Hm H. destruct m as [|c m]; [contradiction|].
  unfold sub. cbn [app] in *. cbn [sub_from]. rewrite H. f_equal.
  replace (length (c :: m ++ rest) - length rest)%nat with (S (length m))
    by (cbn [length]; rewrite length_app; lia).
  apply sub_from_skip.
Qed.

Lemma sub_copy (c : char) (s : str) :
  match_at fl r (c :: s) = None ->
  sub fl r t (c :: s) = c :: sub fl r t s.
Proof. intros H. unfold sub. cbn [sub_from]. now rewrite H. Qed.

Lemma sub_nil : match_at fl r [] = None -> sub fl r t [] = [].
Proof. intros H. unfold sub. cbn [sub_from]. now rewrite H. Qed.

End Sub.

Lemma quote_attrs_copy (c : char) (s : str) :
  quote_match (c :: s) = None -> quote_attrs (c :: s) = c :: quote_attrs s.
Proof.
  intros H. apply sub_copy. rewrite match_quote. now rewrite H.
Qed.

Lemma quote_attrs_match (s key v rest : str) :
  quote_match s = Some (key, v, rest) ->
  quote_attrs s = key ++ [eq_sign] ++ [dq] ++ v ++ [dq] ++ quote_attrs rest.
Proof.
  intros H. destruct (quote_match_split _ _ _ _ H) as (Hs & Hk & _).
  unfold quote_attrs.
  replace s with ((key ++ [eq_sign] ++ v) ++ rest)
    by (rewrite Hs, <- !app_assoc; reflexivity).
  rewrite (sub_match _ _ _ _ _ [(2%nat, v); (1%nat, key ++ [eq_sign])]).
  - cbn [expand quote_repl group Nat.eqb].
    rewrite app_nil_r, <- !app_assoc. reflexivity.
  - destruct key; [contradiction|discriminate].
  - rewrite match_quote.
    replace ((key ++ [eq_sign] ++ v) ++ rest) with s
      by (rewrite Hs, <- !app_assoc; reflexivity).
    now rewrite H.
Qed.

Lemma empty_match_split (s name rest : str) :
  empty_match s = Some (name, rest) ->
  exists ws, s = ws ++ name ++ [eq_sign; dq; dq] ++ rest /\
    ws <> [] /\ name <> [] /\
    forallb is_space ws = true /\ forallb is_name_char name = true.
Proof.
  unfold empty_match.
  pose proof (span_app is_space s) as Hs.
  pose proof (span_all is_space s) as Hw.
  destruct (span is_space s) as [ws s1]. simpl fst in *. simpl snd in *.
  destruct ws as [|w0 ws]; [discriminate|].
  pose proof (span_app is_name_char s1) as Hs1.
  pose proof (span_all is_name_char s1) as Hn.
  destruct (span is_name_char s1) as [name' s2]. simpl fst in *. simpl snd in *.
  destruct name' as [|n0 name']; [discriminate|].
  destruct (eat no_flags [eq_sign; dq; dq] s2) as [rest'|] eqn:E; [|discriminate].
  intros [= <- <-].
  exists (w0 :: ws). repeat split; trivial; try discriminate.
  rewrite <- Hs, <- Hs1. do 2 f_equal.
  destruct s2 as [|a [|b [|c s2]]]; try discriminate;
    cbn [eat] in E; rewrite ?lit_ok_plain in E.
  - destruct (eq_sign =? a); discriminate.
  - destruct (eq_sign =? a); [|discriminate]. destruct (dq =? b); discriminate.
  - destruct (N.eqb_spec eq_sign a) as [<-|]; [|discriminate].
    destruct (N.eqb_spec dq b) as [<-|]; [|discriminate].
    destruct (N.eqb_spec dq c) as [<-|]; [|discriminate].
    now injection E as ->.
Qed.

Lemma drop_empty_attrs_nil : drop_empty_attrs [] = [].
Proof. reflexivity. Qed.

Lemma drop_empty_attrs_copy (c : char) (s : str) :
  empty_match (c :: s) = None ->
  drop_empty_attrs (c :: s) = c :: drop_empty_attrs s.
Proof.
  intros H. apply sub_copy. rewrite match_empty. now rewrite H.
Qed.

Lemma drop_empty_attrs_match (s name rest : str) :
  empty_match s = Some (name, rest) ->
  drop_empty_attrs s = drop_empty_attrs rest.
Proof.
  intros H. destruct (empty_match_split _ _ _ H) as (ws & Hs & Hw & _).
  unfold drop_empty_attrs.
  replace s with ((ws ++ name ++ [eq_sign; dq; dq]) ++ rest)
    by (rewrite Hs, <- !app_assoc; reflexivity).
  rewrite (sub_match _ _ _ _ _ [(1%nat, name)]).
  - reflexivity.
  - destruct ws; [contradiction|discriminate].
  - rewrite match_empty.
    replace ((ws ++ name ++ [eq_sign; dq; dq]) ++ rest) with s
      by (rewrite Hs, <- !app_assoc; reflexivity).
    now rewrite H.
Qed.

(** ** The fence pattern against fenced blocks *)

Lemma lit_ok_nonletter (fl : flags) (x c : char) :
  is_lower x = false -> is_upper x = false -> lit_ok fl x c = (x =? c).
Proof.
  intros Hl Hu. unfold lit_ok. now rewrite Hl, Hu, andb_false_r, orb_false_r.
Qed.

Lemma backtick_ok (fl : flags) (c : char) : lit_ok fl backtick c = (backtick =? c).
Proof. now apply lit_ok_nonletter. Qed.

Lemma eat_fence (fl : flags) (s rest : str) :
  eat fl fence s = Some rest <-> s = fence ++ rest.
Proof.
  change fence with [backtick; backtick; backtick]. split.
  - destruct s as [|a [|b [|c s]]]; cbn [eat]; rewrite ?backtick_ok;
      try discriminate.
    + destruct (backtick =? a); discriminate.
    + destruct (backtick =? a); [|discriminate].
      destruct (backtick =? b); discriminate.
    + destruct (N.eqb_spec backtick a) as [<-|]; [|discriminate].
      destruct (N.eqb_spec backtick b) as [<-|]; [|discriminate].
      destruct (N.eqb_spec backtick c) as [<-|]; [|discriminate].
      now intros [= ->].
  - intros ->. cbn [eat app]. rewrite !backtick_ok. reflexivity.
Qed.

Lemma printable_no_space (c : char) : 33 <= c <= 132 -> is_space c = false.
Proof.
  intros H. unfold is_space.
  replace (c <=? 13) with false by (symmetry; apply N.leb_gt; lia).
  replace (c <=? 32) with false by (symmetry; apply N.leb_gt; lia).
  replace (8192 <=? c) with false by (symmetry; apply N.leb_gt; lia).
  replace (c =? 133) with false by (symmetry; apply N.eqb_neq; lia).
  replace (c =? 160) with false by (symmetry; apply N.eqb_neq; lia).
  replace (c =? 5760) with false by (symmetry; apply N.eqb_neq; lia).
  replace (c =? 8232) with false by (symmetry; apply N.eqb_neq; lia).
  replace (c =? 8233) with false by (symmetry; apply N.eqb_neq; lia).
  replace (c =? 8239) with false by (symmetry; apply N.eqb_neq; lia).
  replace (c =? 8287) with false by (symmetry; apply N.eqb_neq; lia).
  replace (c =? 12288) with false by (symmetry; apply N.eqb_neq; lia).
  now rewrite !andb_false_r.
Qed.

(** A character that a letter of the fence pattern matches is no space, no
    backtick and no angle bracket. *)
Lemma letter_like (x c : char) :
  is_lower x = true -> lit_ok fence_flags x c = true ->
  is_space c = false /\ c <> backtick /\ c <> 60 /\ c <> 62.
Proof.
  unfold lit_ok, is_lower. cbn [ignorecase fence_flags]. intros Hx H.
  rewrite Hx in H. apply andb_prop in Hx as [H1 H2].
  apply N.leb_le in H1, H2.
  assert (Hc : c = x \/ c = x - 32 \/ c = 304 \/ c = 305 \/ c = 383 \/ c = 8490).
  { apply orb_prop in H as [H|H]; [apply N.eqb_eq in H; auto|].
    rewrite andb_true_l in H.
    apply orb_prop in H as [H|H].
    - apply orb_prop in H as [H|H].
      + apply orb_prop in H as [H|H]; [apply N.eqb_eq in H; auto|].
        apply andb_prop in H as [_ H].
        apply orb_prop in H as [H|H]; apply N.eqb_eq in H; auto.
      + apply andb_prop in H as [_ H]. apply N.eqb_eq in H; auto 6.
    - apply andb_prop in H as [_ H]. apply N.eqb_eq in H; auto 6. }
  unfold backtick.
  destruct Hc as [ -> | [ -> | [ -> | [ -> | [ -> | -> ] ] ] ] ];
    (split; [first [reflexivity | apply printable_no_space; lia] | lia]).
Qed.

Lemma same_text_cons (x : char) (l m : str) :
  same_text (x :: l) m = true ->
  exists c m', m = c :: m' /\ lit_ok fence_flags x c = true /\ same_text l m' = true.
Proof.
  unfold same_text. destruct m as [|c m]; cbn [eat]; [discriminate|].
  destruct (lit_ok fence_flags x c) eqn:E; [|discriminate].
  intros H. now exists c, m.
Qed.

(** The content of a fenced block starts with the opening angle bracket. *)
Lemma open_head (o : str) :
  same_text (lit "<svg") o = true -> exists o', o = 60 :: o' /\ length o' = 3%nat.
Proof.
  intros H. pose proof (same_text_length _ _ H) as Hlen.
  apply same_text_cons in H as (c & o' & -> & Hc & _).
  rewrite lit_ok_nonletter in Hc by reflexivity. apply N.eqb_eq in Hc as <-.
  exists o'. split; [reflexivity|]. simpl in Hlen. now injection Hlen.
Qed.

(** ... and ends with the closing one. *)
Lemma close_last (c : str) :
  same_text (lit "</svg>") c = true -> exists c', c = c' ++ [62] /\ length c' = 5%nat.
Proof.
  intros H.
  apply same_text_cons in H as (c1 & m1 & -> & _ & H).
  apply same_text_cons in H as (c2 & m2 & -> & _ & H).
  apply same_text_cons in H as (c3 & m3 & -> & _ & H).
  apply same_text_cons in H as (c4 & m4 & -> & _ & H).
  apply same_text_cons in H as (c5 & m5 & -> & _ & H).
  apply same_text_cons in H as (c6 & m6 & -> & H6 & H).
  destruct m6; [|discriminate H].
  rewrite lit_ok_nonletter in H6 by reflexivity. apply N.eqb_eq in H6 as <-.
  now exists [c1; c2; c3; c4; c5].
Qed.

Lemma close_at_some (s3 u rest : str) (cs : caps) :
  close_at s3 u = Some (rest, cs) ->
  exists c ws',
    u = c ++ ws' ++ fence ++ rest /\
    same_text (lit "</svg>") c = true /\ forallb is_space ws' = true /\
    cs = [(1%nat, firstn (length s3 - length (ws' ++ fence ++ rest))%nat s3)].
Proof.
  unfold close_at.
  destruct (eat fence_flags (lit "</svg>") u) as [s5|] eqn:E; [|discriminate].
  destruct (eat_same_text _ _ _ E) as (c & -> & Hc).
  pose proof (span_app is_space s5) as Hs5.
  pose proof (span_all is_space s5) as Hw.
  destruct (eat fence_flags fence (snd (span is_space s5))) as [s7|] eqn:E7;
    [|discriminate].
  apply eat_fence in E7. rewrite E7 in Hs5.
  intros [= <- <-]. exists c, (fst (span is_space s5)).
  rewrite Hs5. auto.
Qed.

Lemma close_at_intro (s3 c ws' rest : str) :
  same_text (lit "</svg>") c = true -> forallb is_space ws' = true ->
  close_at s3 (c ++ ws' ++ fence ++ rest) =
  Some (rest, [(1%nat, firstn (length s3 - length (ws' ++ fence ++ rest))%nat s3)]).
Proof.
  intros Hc Hw. unfold close_at. rewrite (same_text_eat _ _ _ Hc).
  rewrite (span_run is_space ws' (fence ++ rest) Hw) by reflexivity.
  cbn [snd]. now rewrite (proj2 (eat_fence _ _ rest) eq_refl).
Qed.

Lemma app_same_length {A : Type} (a a' b b' : list A) :
  length a = length a' -> a ++ b = a' ++ b' -> a = a' /\ b = b'.
Proof.
  revert a'. induction a as [|x a IH]; intros [|y a'] Hl H; try discriminate.
  - now split.
  - injection H as -> H. injection Hl as Hl.
    destruct (IH _ Hl H) as [-> ->]. now split.
Qed.

Lemma tail_block_span (s g rest : str) :
  tail_block s g rest ->
  exists ws', snd (span is_space s) = g ++ ws' ++ fence ++ rest /\
              forallb is_space ws' = true.
Proof.
  intros (ws & ws' & -> & Hws & Hws' & o & body & c & -> & Ho & _).
  destruct (open_head _ Ho) as (o' & -> & _).
  exists ws'. split; [|exact Hws'].
  now rewrite (span_run is_space ws _ Hws).
Qed.

Lemma fence_tail_some (s rest : str) (cs : caps) :
  match_at fence_flags fence_tail s = Some (rest, cs) ->
  exists g, cs = [(1%nat, g)] /\ tail_block s g rest /\
    forall g2 rest2, tail_block s g2 rest2 -> (length g <= length g2)%nat.
Proof.
  rewrite match_fence_tail.
  pose proof (span_app is_space s) as Hs.
  pose proof (span_all is_space s) as Hws.
  set (s3 := snd (span is_space s)) in *.
  destruct (eat fence_flags (lit "<svg") s3) as [s4|] eqn:E4; [|discriminate].
  destruct (eat_same_text _ _ _ E4) as (o & Hs3 & Ho).
  intros H. apply first_at_some in H as (a & b & -> & Hb & Hmin).
  destruct (close_at_some _ _ _ _ Hb) as (c & ws' & -> & Hc & Hws' & ->).
  assert (Hg : s3 = (o ++ a ++ c) ++ ws' ++ fence ++ rest)
    by (rewrite Hs3, <- !app_assoc; reflexivity).
  exists (o ++ a ++ c). split; [|split].
  - rewrite Hg at 2. rewrite Hg at 1. now rewrite firstn_consumed.
  - exists (fst (span is_space s)), ws'. rewrite <- Hg, Hs.
    repeat split; trivial. now exists o, a, c.
  - intros g2 rest2 Hblock.
    destruct (tail_block_span _ _ _ Hblock) as (ws2' & Hs3' & Hws2').
    destruct Hblock as (_ & _ & _ & _ & _ & o2 & body2 & c2 & -> & Ho2 & Hc2).
    fold s3 in Hs3'. rewrite Hs3 in Hs3'. rewrite <- !app_assoc in Hs3'.
    apply app_same_length in Hs3' as [<- Hs4];
      [|now rewrite (same_text_length _ _ Ho), (same_text_length _ _ Ho2)].
    pose proof (close_at_intro s3 c2 ws2' rest2 Hc2 Hws2') as Hok.
    apply app_eq_app in Hs4 as [l [[-> Hl]|[-> Hl]]].
    + destruct l as [|x l].
      * rewrite !length_app, (same_text_length _ _ Hc), (same_text_length _ _ Hc2).
        simpl. lia.
      * rewrite Hl in Hok.
        rewrite (Hmin body2 (x :: l) eq_refl) in Hok by discriminate.
        discriminate.
    + rewrite !length_app, (same_text_length _ _ Hc), (same_text_length _ _ Hc2).
      simpl. lia.
Qed.

Lemma first_at_exists {A : Type} (f : str -> option A) (a b : str) :
  f b <> None -> first_at f (a ++ b) <> None.
Proof.
  intros Hb H. apply Hb. now apply (first_at_none f _ H a b).
Qed.

Lemma fence_tail_complete (s g rest : str) :
  tail_block s g rest -> match_at fence_flags fence_tail s <> None.
Proof.
  intros Hblock. rewrite match_fence_tail.
  destruct (tail_block_span _ _ _ Hblock) as (ws' & Hs3 & Hws').
  destruct Hblock as (_ & _ & _ & _ & _ & o & body & c & -> & Ho & Hc).
  rewrite Hs3 at 1. rewrite <- !app_assoc. rewrite (same_text_eat _ _ _ Ho).
  apply first_at_exists. rewrite (close_at_intro _ _ _ _ Hc Hws'). discriminate.
Qed.

Lemma tail_block_head (s g rest : str) :
  tail_block s g rest ->
  exists c s', s = c :: s' /\ (is_space c = true \/ c = 60).
Proof.
  intros (ws & ws' & -> & Hws & _ & o & body & c & -> & Ho & _).
  destruct (open_head _ Ho) as (o' & -> & _).
  destruct ws as [|w ws]; simpl in *.
  - eauto.
  - apply andb_prop in Hws as [Hw _]. eauto.
Qed.

Lemma svg_tag_head (tag : str) :
  same_text (lit "svg") tag = true ->
  exists c t, tag = c :: t /\ is_space c = false /\ c <> 60.
Proof.
  intros H. apply same_text_cons in H as (c & t & -> & Hc & _).
  apply letter_like in Hc as (? & _ & ? & _); [|reflexivity]. eauto.
Qed.

(** The tag and a block cannot be confused: a block starts with a space or
    the opening angle bracket, the tag with a letter. *)
Lemma tag_then_block (tag s2 g rest : str) :
  same_text (lit "svg") tag = true -> ~ tail_block (tag ++ s2) g rest.
Proof.
  intros Ht Hb. destruct (svg_tag_head _ Ht) as (c & t & -> & Hc & Hc').
  destruct (tail_block_head _ _ _ Hb) as (c0 & s' & [= <- _] & [H|H]); congruence.
Qed.

Lemma fenced_then_tail (s g rest : str) :
  fenced_then s g rest <->
  exists tag s1, s = fence ++ tag ++ s1 /\ tag_ok tag = true /\ tail_block s1 g rest.
Proof.
  split.
  - intros (tag & ws & ws' & -> & Ht & Hws & Hws' & Hg).
    exists tag, (ws ++ g ++ ws' ++ fence ++ rest). repeat split; trivial.
    now exists ws, ws'.
  - intros (tag & s1 & -> & Ht & ws & ws' & -> & Hws & Hws' & Hg).
    now exists tag, ws, ws'.
Qed.

Lemma match_fence_some (s rest : str) (cs : caps) :
  match_at fence_flags fence_re s = Some (rest, cs) ->
  exists g, cs = [(1%nat, g)] /\ fenced_then s g rest /\
    forall g2, fenced s g2 -> (length g <= length g2)%nat.
Proof.
  rewrite match_fence_unfold.
  destruct (eat fence_flags fence s) as [s1|] eqn:E1; [|discriminate].
  apply eat_fence in E1 as ->.
  destruct (eat fence_flags (lit "svg") s1) as [s2|] eqn:E2.
  - destruct (eat_same_text _ _ _ E2) as (tag & -> & Ht).
    destruct (match_at fence_flags fence_tail s2) as [[rest' cs']|] eqn:E3.
    + intros [= -> ->].
      destruct (fence_tail_some _ _ _ E3) as (g & -> & Hb & Hmin).
      exists g. split; [reflexivity|]. split.
      * apply fenced_then_tail. exists tag, s2. repeat split; trivial.
        unfold tag_ok. destruct tag; [reflexivity|exact Ht].
      * intros g2 (rest2 & H2). apply fenced_then_tail in H2
          as (tag2 & s1' & Heq & Ht2 & Hb2).
        apply app_inv_head in Heq.
        destruct tag2 as [|t0 tag2].
        -- simpl in Heq. subst s1'. now apply tag_then_block in Hb2.
        -- unfold tag_ok in Ht2.
           apply app_same_length in Heq as [_ <-];
             [|now rewrite (same_text_length _ _ Ht), (same_text_length _ _ Ht2)].
           now apply (Hmin g2 rest2).
    + intros H. destruct (fence_tail_some _ _ _ H) as (g & _ & Hb & _).
      now apply tag_then_block in Hb.
  - intros H. destruct (fence_tail_some _ _ _ H) as (g & -> & Hb & Hmin).
    exists g. split; [reflexivity|]. split.
    + apply fenced_then_tail. now exists [], s1.
    + intros g2 (rest2 & H2). apply fenced_then_tail in H2
        as (tag2 & s1' & Heq & Ht2 & Hb2).
      apply app_inv_head in Heq.
      destruct tag2 as [|t0 tag2].
      * simpl in Heq. subst s1'. now apply (Hmin g2 rest2).
      * unfold tag_ok in Ht2. subst s1.
        rewrite (same_text_eat _ _ _ Ht2) in E2. discriminate.
Qed.

Lemma match_fence_complete (s g : str) :
  fenced s g -> match_at fence_flags fence_re s <> None.
Proof.
  intros (rest & H). apply fenced_then_tail in H as (tag & s1 & -> & Ht & Hb).
  rewrite match_fence_unfold, (proj2 (eat_fence _ _ _) eq_refl).
  destruct tag as [|t0 tag].
  - simpl app.
    destruct (match eat fence_flags (lit "svg") s1 with
              | Some s2 => match_at fence_flags fence_tail s2
              | None => None
              end); [discriminate|].
    now apply (fence_tail_complete _ g rest).
  - unfold tag_ok in Ht. rewrite (same_text_eat _ _ _ Ht).
    pose proof (fence_tail_complete _ _ _ Hb) as Hc.
    destruct (match_at fence_flags fence_tail s1); [discriminate|contradiction].
Qed.

(** The search finds the leftmost fenced block, with the shortest content
    that a closing tag, spaces and a fence can end. *)
Lemma search_fence_some (raw rest : str) (cs : caps) :
  search fence_flags fence_re raw = Some (rest, cs) ->
  exists pre s g,
    raw = pre ++ s /\ cs = [(1%nat, g)] /\ fenced_then s g rest /\
    (forall g2, fenced s g2 -> (length g <= length g2)%nat) /\
    (forall p1 p2 g2, pre = p1 ++ p2 -> p2 <> [] -> ~ fenced (p2 ++ s) g2).
Proof.
  rewrite search_first. intros H.
  apply first_at_some in H as (pre & s & -> & Hs & Hleft).
  destruct (match_fence_some _ _ _ Hs) as (g & -> & Hf & Hmin).
  exists pre, s, g. repeat split; trivial.
  intros p1 p2 g2 Hp Hne Hf2.
  now apply (match_fence_complete _ _ Hf2), (Hleft p1 p2).
Qed.

Lemma search_fence_none (raw : str) :
  search fence_flags fence_re raw = None ->
  forall p s g, raw = p ++ s -> ~ fenced s g.
Proof.
  rewrite search_first. intros H p s g Hraw Hf.
  now apply (match_fence_complete _ _ Hf), (first_at_none _ _ H p s).
Qed.

Lemma startswith_app (p b : str) : startswith p (p ++ b) = true.
Proof. induction p as [|x p IH]; simpl; [reflexivity|]. now rewrite N.eqb_refl. Qed.

Lemma contains_here (p s : str) : startswith p s = true -> contains p s = true.
Proof. intros H. destruct s; simpl; now rewrite H. Qed.

Lemma contains_app (p a b : str) : contains p (a ++ p ++ b) = true.
Proof.
  induction a as [|x a IH].
  - cbn [app]. apply contains_here, startswith_app.
  - simpl. rewrite IH. apply orb_true_r.
Qed.

Lemma fenced_same_start (s g rest g' rest' : str) :
  fenced_then s g rest -> fenced_then s g' rest' ->
  exists w w',
    forallb is_space w = true /\ forallb is_space w' = true /\
    g ++ w ++ fence ++ rest = g' ++ w' ++ fence ++ rest'.
Proof.
  intros H H'.
  apply fenced_then_tail in H as (tag & s1 & -> & Ht & Hb).
  apply fenced_then_tail in H' as (tag' & s1' & Heq & Ht' & Hb').
  apply app_inv_head in Heq.
  assert (s1 = s1') as <-.
  { destruct tag as [|t0 tag], tag' as [|t0' tag']; unfold tag_ok in *.
    - exact Heq.
    - simpl in Heq. subst s1. exfalso.
      exact (tag_then_block (t0' :: tag') s1' g rest Ht' Hb).
    - simpl in Heq. subst s1'. exfalso.
      exact (tag_then_block (t0 :: tag) s1 g' rest' Ht Hb').
    - apply app_same_length in Heq as [_ Heq]; [exact Heq|].
      now rewrite (same_text_length _ _ Ht), (same_text_length _ _ Ht'). }
  destruct (tail_block_span _ _ _ Hb) as (w & Hw & Hws).
  destruct (tail_block_span _ _ _ Hb') as (w' & Hw' & Hws').
  exists w, w'. repeat split; trivial. now rewrite <- Hw, <- Hw'.
Qed.

(** No fenced block starts on the last characters of a text that is
    followed by a fence, unless the text holds a fence itself. *)
Lemma no_block_before (p2 x g : str) :
  p2 <> [] -> contains fence p2 = false -> ~ fenced (p2 ++ fence ++ x) g.
Proof.
  intros Hne Hc (rest & H).
  apply fenced_then_tail in H as (tag & s1 & Heq & Ht & Hb).
  assert (Hy : exists c y, tag ++ s1 = c :: y /\ c <> backtick).
  { destruct tag as [|t0 tag]; unfold tag_ok in Ht.
    - destruct (tail_block_head _ _ _ Hb) as (c & s' & -> & [H|H]);
        exists c, s'; (split; [reflexivity|]); intros ->; discriminate.
    - apply same_text_cons in Ht as (c & t & [= -> ->] & Hc' & _).
      apply letter_like in Hc' as (_ & ? & _); [|reflexivity]. simpl. eauto. }
  destruct Hy as (c & y & Hy & Hcb). rewrite Hy in Heq.
  change fence with [backtick; backtick; backtick] in *.
  destruct p2 as [|a [|b [|d p2]]]; [contradiction| | |].
  - simpl in Heq. injection Heq. intros. congruence.
  - simpl in Heq. injection Heq. intros. congruence.
  - simpl in Heq. injection Heq. intros _ -> -> ->.
    pose proof (contains_app [backtick; backtick; backtick] [] p2) as Hin.
    cbn [app] in Hin. congruence.
Qed.

Lemma suffix_last (a l : str) (x : char) (b : str) :
  l <> [] -> a ++ l = b ++ [x] -> exists l', l = l' ++ [x].
Proof.
  intros Hne H. destruct (exists_last Hne) as (l' & y & ->).
  rewrite app_assoc in H. apply app_inj_tail in H as [_ ->]. now exists l'.
Qed.

Lemma space_run_then_fence (w rest l' r : str) :
  forallb is_space w = true ->
  w ++ fence ++ rest = l' ++ 62 :: r ->
  exists m, l' = w ++ fence ++ m.
Proof.
  intros Hw H. apply app_eq_app in H as [m [[-> H]|[-> H]]].
  - destruct m as [|x m].
    + discriminate H.
    + injection H as <- _. rewrite forallb_app in Hw.
      apply andb_prop in Hw as [_ Hw]. discriminate Hw.
  - change fence with [backtick; backtick; backtick] in *.
    destruct m as [|m0 [|m1 [|m2 m]]]; try discriminate H.
    injection H as <- <- <- _. now exists m.
Qed.

Lemma contains_suffix (p a b : str) :
  contains p (a ++ b) = false -> contains p b = false.
Proof.
  induction a as [|x a IH]; [trivial|]. simpl. intros H.
  apply orb_false_elim in H as [_ H]. now apply IH.
Qed.

Lemma fence_extract_found (raw rest g : str) :
  search fence_flags fence_re raw = Some (rest, [(1%nat, g)]) ->
  fence_extract raw = g.
Proof. unfold fence_extract. now intros ->. Qed.

(** A fenced block that no fence precedes and whose content holds no fence
    is the one that the search finds. *)
Lemma fence_extract_clean_block (pre tag ws o body c ws' post : str) :
  tag_ok tag = true ->
  forallb is_space ws = true -> forallb is_space ws' = true ->
  same_text (lit "<svg") o = true -> same_text (lit "</svg>") c = true ->
  contains fence pre = false -> contains fence (o ++ body ++ c) = false ->
  fence_extract
    (pre ++ fence ++ tag ++ ws ++ (o ++ body ++ c) ++ ws' ++ fence ++ post)
  = o ++ body ++ c.
Proof.
  intros Ht Hws Hws' Ho Hc Hpre Hin.
  set (g0 := o ++ body ++ c) in *.
  set (s := fence ++ tag ++ ws ++ g0 ++ ws' ++ fence ++ post).
  assert (Hblock : fenced_then s g0 post).
  { exists tag, ws, ws'. repeat split; trivial. now exists o, body, c. }
  assert (Hsearch : search fence_flags fence_re (pre ++ s)
                    = match_at fence_flags fence_re s).
  { rewrite search_first, first_at_skip.
    - destruct (match_at fence_flags fence_re s) eqn:E.
      + now apply first_at_here.
      + exfalso. apply (match_fence_complete s g0); [now exists post|exact E].
    - intros p1 p2 Hp Hne.
      destruct (match_at fence_flags fence_re (p2 ++ s)) as [[rest cs]|] eqn:E;
        [|reflexivity].
      exfalso. destruct (match_fence_some _ _ _ E) as (g & _ & Hf & _).
      apply (no_block_before p2 (tag ++ ws ++ g0 ++ ws' ++ fence ++ post) g Hne).
      + apply (contains_suffix _ p1). now rewrite <- Hp.
      + now exists rest. }
  destruct (match_at fence_flags fence_re s) as [[rest cs]|] eqn:E.
  2:{ exfalso. apply (match_fence_complete s g0); [now exists post|exact E]. }
  destruct (match_fence_some _ _ _ E) as (g & -> & Hf & Hmin).
  rewrite (fence_extract_found _ _ _ Hsearch).
  assert (Hlen : (length g <= length g0)%nat) by (apply Hmin; now exists post).
  destruct (fenced_same_start _ _ _ _ _ Hf Hblock) as (w & w' & Hw & _ & Heq).
  apply app_eq_app in Heq as [l [[-> Hl]|[Hg0 Hl]]].
  - rewrite length_app in Hlen. destruct l; [apply app_nil_r|simpl in Hlen; lia].
  - destruct l as [|x l]; [now rewrite app_nil_r in Hg0|].
    exfalso. destruct (close_last _ Hc) as (c' & Hc' & _).
    assert (Hlast : exists l', x :: l = l' ++ [62]).
    { apply (suffix_last g (x :: l) 62 (o ++ body ++ c')); [discriminate|].
      rewrite <- Hg0. unfold g0. rewrite Hc', <- !app_assoc. reflexivity. }
    destruct Hlast as (l' & Hl').
    rewrite Hl', <- app_assoc in Hl. simpl in Hl.
    destruct (space_run_then_fence _ _ _ _ Hw Hl) as (m & ->).
    rewrite Hl' in Hg0.
    assert (Hhas : contains fence g0 = true).
    { rewrite Hg0.
      rewrite <- !app_assoc, (app_assoc g w).
      apply (contains_app fence (g ++ w) (m ++ [62])). }
    congruence.
Qed.

(** ** Substitution on a text cut in two *)

Lemma span_app_stop (p : char -> bool) (v t : str) :
  stops p t ->
  span p (v ++ t) = (fst (span p v), snd (span p v) ++ t).
Proof.
  intros Ht. induction v as [|c v IH]; simpl.
  - destruct t as [|c t]; [reflexivity|]. simpl in *. now rewrite Ht.
  - destruct (p c); [|reflexivity].
    rewrite IH. now destruct (span p v).
Qed.

Section SubApp.

Variables (fl : flags) (r : regex) (tpl : list piece).

(** Every match of [r] takes at least one character, and leaves a suffix. *)
Hypothesis consumes :
  forall v rest cs, match_at fl r v = Some (rest, cs) ->
    exists m, v = m ++ rest /\ m <> [].

Lemma sub_app (a t : str) :
  (forall u v, a = u ++ v -> v <> [] ->
     match_at fl r (v ++ t) = extend t (match_at fl r v)) ->
  sub fl r tpl (a ++ t) = sub fl r tpl a ++ sub fl r tpl t.
Proof.
  remember (length a) as n eqn:Hn. revert a Hn.
  induction n as [n IH] using lt_wf_ind. intros a Hn Hloc.
  destruct a as [|c a].
  - simpl. rewrite sub_nil; [reflexivity|].
    destruct (match_at fl r []) as [[rest cs]|] eqn:E; [|reflexivity].
    destruct (consumes _ _ _ E) as (m & Hm & Hne).
    destruct m; [contradiction|discriminate].
  - assert (Hc := Hloc [] (c :: a) eq_refl ltac:(discriminate)).
    destruct (match_at fl r (c :: a)) as [[rest cs]|] eqn:E.
    + destruct (consumes _ _ _ E) as (m & Hm & Hne).
      simpl extend in Hc. rewrite Hm in Hc, E |- *.
      rewrite <- app_assoc in Hc |- *.
      rewrite (sub_match fl r tpl m (rest ++ t) cs Hne) by exact Hc.
      rewrite (sub_match fl r tpl m rest cs Hne E), <- app_assoc. f_equal.
      apply (IH (length rest)); trivial.
      * rewrite Hn, Hm, length_app. destruct m; [contradiction|simpl; lia].
      * intros u v Hr. apply (Hloc (m ++ u)). now rewrite Hm, Hr, app_assoc.
    + simpl extend in Hc. simpl app in *.
      rewrite (sub_copy fl r tpl c (a ++ t)) by exact Hc.
      rewrite (sub_copy fl r tpl c a E). simpl. f_equal.
      apply (IH (length a)); trivial.
      * rewrite Hn. simpl. lia.
      * intros u v Ha. apply (Hloc (c :: u)). now rewrite Ha.
Qed.

End SubApp.

Lemma quote_consumes (v rest : str) (cs : caps) :
  match_at no_flags quote_re v = Some (rest, cs) ->
  exists m, v = m ++ rest /\ m <> [].
Proof.
  rewrite match_quote. destruct (quote_match v) as [[[key val] rest']|] eqn:E;
    [|discriminate].
  intros [= <- _]. destruct (quote_match_split _ _ _ _ E) as (-> & Hk & _).
  exists (key ++ [eq_sign] ++ val). rewrite <- !app_assoc. split; [reflexivity|].
  destruct key; [contradiction|discriminate].
Qed.

Lemma empty_consumes (v rest : str) (cs : caps) :
  match_at no_flags empty_re v = Some (rest, cs) ->
  exists m, v = m ++ rest /\ m <> [].
Proof.
  rewrite match_empty. destruct (empty_match v) as [[name rest']|] eqn:E;
    [|discriminate].
  intros [= <- _]. destruct (empty_match_split _ _ _ E) as (ws & -> & Hw & _).
  exists (ws ++ name ++ [eq_sign; dq; dq]). rewrite <- !app_assoc.
  split; [reflexivity|]. destruct ws; [contradiction|discriminate].
Qed.

Lemma name_is_value (c : char) : is_name_char c = true -> is_value_char c = true.
Proof.
  unfold is_name_char, is_value_char. simpl. intros H.
  rewrite !orb_false_r in *.
  assert (Hc : 45 <= c <= 122).
  { repeat match goal with
    | H : _ || _ = true |- _ => apply orb_prop in H as [H|H]
    | H : _ && _ = true |- _ => apply andb_prop in H as [? ?]
    | H : (_ <=? _) = true |- _ => apply N.leb_le in H
    | H : (_ =? _) = true |- _ => apply N.eqb_eq in H
    end; lia. }
  rewrite printable_no_space by lia.
  replace (dq =? c) with false by (symmetry; apply N.eqb_neq; unfold dq; lia).
  replace (62 =? c) with false; [reflexivity|].
  symmetry. apply N.eqb_neq. intros <-.
  revert H. vm_compute. discriminate.
Qed.

Lemma stops_value_name (t : str) : stops is_value_char t -> stops is_name_char t.
Proof.
  destruct t as [|c t]; simpl; [trivial|]. intros H.
  destruct (is_name_char c) eqn:E; [|reflexivity].
  apply name_is_value in E. congruence.
Qed.

(** Step 3's pattern never looks beyond a character that no value holds. *)
Lemma quote_match_local (v t : str) :
  stops is_value_char t ->
  quote_match (v ++ t) =
  match quote_match v with
  | Some (key, val, rest) => Some (key, val, rest ++ t)
  | None => None
  end.
Proof.
  intros Ht. unfold quote_match.
  rewrite (span_app_stop is_name_char v t (stops_value_name _ Ht)).
  destruct (span is_name_char v) as [key s1]. cbn [fst snd].
  destruct key as [|k0 key].
  - now destruct (s1 ++ t).
  - destruct s1 as [|c s2]; cbn [app].
    + destruct t as [|c t]; [reflexivity|]. simpl in Ht.
      destruct (N.eqb_spec c eq_sign) as [->|]; [discriminate Ht|reflexivity].
    + destruct (c =? eq_sign); [|reflexivity].
      rewrite (span_app_stop is_value_char s2 t Ht).
      destruct (span is_value_char s2) as [val rest]. cbn [fst snd].
      now destruct val.
Qed.

Lemma quote_attrs_app (a t : str) :
  stops is_value_char t ->
  quote_attrs (a ++ t) = quote_attrs a ++ quote_attrs t.
Proof.
  intros Ht. apply sub_app; [exact quote_consumes|].
  intros u v _ _. rewrite !match_quote, (quote_match_local v t Ht).
  now destruct (quote_match v) as [[[key val] rest]|].
Qed.

Lemma quote_match_occurrence (key value post : str) :
  key <> [] -> forallb is_name_char key = true ->
  value <> [] -> forallb is_value_char value = true ->
  stops is_value_char post ->
  quote_match (key ++ [eq_sign] ++ value ++ post) = Some (key, value, post).
Proof.
  intros Hk Hkn Hv Hvn Hp. unfold quote_match.
  rewrite (span_run is_name_char key _ Hkn) by reflexivity.
  destruct key as [|k0 key]; [contradiction|].
  cbn [app]. rewrite N.eqb_refl.
  rewrite (span_run is_value_char value post Hvn) by exact Hp.
  destruct value; [contradiction|reflexivity].
Qed.

(** Step 3 on an unquoted assignment that ends where no value goes on. *)
Lemma quote_attrs_occurrence (key value post : str) :
  key <> [] -> forallb is_name_char key = true ->
  value <> [] -> forallb is_value_char value = true ->
  stops is_value_char post ->
  quote_attrs (key ++ [eq_sign] ++ value ++ post) =
  key ++ [eq_sign; dq] ++ value ++ [dq] ++ quote_attrs post.
Proof.
  intros Hk Hkn Hv Hvn Hp.
  now rewrite (quote_attrs_match _ key value post)
    by now apply quote_match_occurrence.
Qed.

Lemma quote_attrs_stopper (z : char) (t : str) :
  is_value_char z = false -> quote_attrs (z :: t) = z :: quote_attrs t.
Proof.
  intros Hz. apply quote_attrs_copy. unfold quote_match. simpl span.
  destruct (is_name_char z) eqn:E; [|reflexivity].
  apply name_is_value in E. congruence.
Qed.

(** The text before a stopper is repaired on its own. *)
Lemma quote_attrs_snoc (a : str) (z : char) :
  is_value_char z = false -> quote_attrs (a ++ [z]) = quote_attrs a ++ [z].
Proof.
  intros Hz. rewrite quote_attrs_app by exact Hz.
  now rewrite quote_attrs_stopper.
Qed.

Lemma eat_empty_local (r t : str) :
  match t with
  | [] => True
  | c :: _ => c <> eq_sign /\ c <> dq
  end ->
  eat no_flags [eq_sign; dq; dq] (r ++ t) =
  match eat no_flags [eq_sign; dq; dq] r with
  | Some rest => Some (rest ++ t)
  | None => None
  end.
Proof.
  intros Ht.
  destruct r as [|a [|b [|c r]]]; cbn [app eat]; rewrite ?lit_ok_plain.
  - destruct t as [|c t]; [reflexivity|]. cbn [eat]. rewrite lit_ok_plain.
    destruct Ht as [Ht _]. now destruct (N.eqb_spec eq_sign c); [subst|].
  - destruct (eq_sign =? a); [|reflexivity].
    destruct t as [|c t]; [reflexivity|]. cbn [eat]. rewrite lit_ok_plain.
    destruct Ht as [_ Ht]. now destruct (N.eqb_spec dq c); [subst|].
  - destruct (eq_sign =? a); [|reflexivity].
    destruct (dq =? b); [|reflexivity].
    destruct t as [|c t]; [reflexivity|]. cbn [eat]. rewrite lit_ok_plain.
    destruct Ht as [_ Ht]. now destruct (N.eqb_spec dq c); [subst|].
  - destruct (eq_sign =? a); [|reflexivity].
    destruct (dq =? b); [|reflexivity].
    now destruct (dq =? c).
Qed.

Lemma span_snoc_stop (p : char -> bool) (v : str) (z : char) (t : str) :
  p z = false ->
  span p ((v ++ [z]) ++ t) = (fst (span p (v ++ [z])), snd (span p (v ++ [z])) ++ t).
Proof.
  intros Hz. rewrite <- app_assoc. cbn [app].
  rewrite (span_app_stop p v (z :: t)), (span_app_stop p v [z]) by exact Hz.
  cbn [fst snd]. now rewrite <- app_assoc.
Qed.

(** Step 4's pattern, started before a character that is no space, never
    looks beyond a following space. *)
Lemma empty_match_local_space (v : str) (z : char) (t : str) :
  is_space z = false ->
  match t with [] => True | c :: _ => is_space c = true end ->
  empty_match ((v ++ [z]) ++ t) = extend_empty t (empty_match (v ++ [z])).
Proof.
  intros Hz Ht. unfold empty_match.
  rewrite (span_snoc_stop is_space v z t Hz).
  destruct (span is_space (v ++ [z])) as [ws r1]. cbn [fst snd].
  destruct ws as [|w0 ws]; [reflexivity|].
  rewrite (span_app_stop is_name_char r1 t).
  2:{ destruct t as [|c t]; simpl; [trivial|].
      destruct (is_name_char c) eqn:E; [|reflexivity].
      apply name_not_space in E. congruence. }
  destruct (span is_name_char r1) as [name r2]. cbn [fst snd].
  destruct name as [|n0 name]; [reflexivity|].
  rewrite eat_empty_local.
  - now destruct (eat no_flags [eq_sign; dq; dq] r2).
  - destruct t as [|c t]; [trivial|].
    split; intros ->; discriminate.
Qed.

(** ... nor into a quoted assignment that follows a stopper. *)
Lemma empty_match_local_quoted (v : str) (z : char) (key : str) (v0 : char) (t : str) :
  is_value_char z = false ->
  key <> [] -> forallb is_name_char key = true -> v0 <> dq ->
  empty_match ((v ++ [z]) ++ key ++ [eq_sign; dq] ++ v0 :: t) =
  extend_empty (key ++ [eq_sign; dq] ++ v0 :: t) (empty_match (v ++ [z])).
Proof.
  intros Hz Hk Hkn Hv0.
  set (T := key ++ [eq_sign; dq] ++ v0 :: t).
  assert (Hhead : exists k0 T', T = k0 :: T' /\ is_name_char k0 = true).
  { destruct key as [|k0 key]; [contradiction|]. simpl in Hkn.
    apply andb_prop in Hkn as [Hk0 _]. now exists k0, (key ++ [eq_sign; dq] ++ v0 :: t). }
  destruct Hhead as (k0 & T' & HT & Hk0).
  unfold empty_match.
  rewrite (span_app_stop is_space (v ++ [z]) T)
    by (rewrite HT; simpl; now apply name_not_space).
  destruct (span is_space (v ++ [z])) as [ws r1] eqn:Esp. cbn [fst snd].
  destruct ws as [|w0 ws]; [reflexivity|].
  destruct r1 as [|c1 r1].
  - cbn [app span]. unfold T.
    rewrite (span_run is_name_char key _ Hkn) by reflexivity.
    destruct key as [|k1 key]; [contradiction|].
    cbn [app eat]. rewrite !lit_ok_plain, !N.eqb_refl.
    destruct (N.eqb_spec dq v0); [congruence|reflexivity].
  - assert (Hr1 : exists r, c1 :: r1 = r ++ [z]).
    { pose proof (span_app is_space (v ++ [z])) as Happ. rewrite Esp in Happ.
      cbn [fst snd] in Happ. symmetry in Happ.
      apply (suffix_last (w0 :: ws) (c1 :: r1) z v); [discriminate|].
      now rewrite <- Happ. }
    destruct Hr1 as (r & ->).
    assert (Hzn : is_name_char z = false).
    { destruct (is_name_char z) eqn:E; [|reflexivity].
      apply name_is_value in E. congruence. }
    rewrite (span_snoc_stop is_name_char r z T Hzn).
    destruct (span is_name_char (r ++ [z])) as [name r2]. cbn [fst snd].
    destruct name as [|n0 name]; [reflexivity|].
    rewrite eat_empty_local.
    + now destruct (eat no_flags [eq_sign; dq; dq] r2).
    + rewrite HT. split; intros ->; discriminate.
Qed.

Lemma suffix_snoc (a : str) (z : char) (u v : str) :
  a ++ [z] = u ++ v -> v <> [] -> exists v', v = v' ++ [z].
Proof. intros H Hv. apply (suffix_last u v z a Hv). now rewrite H. Qed.

Lemma forallb_imp {A : Type} (p q : A -> bool) (l : list A) :
  (forall x, p x = true -> q x = true) -> forallb p l = true -> forallb q l = true.
Proof.
  intros H. induction l as [|x l IH]; simpl; [trivial|].
  intros Hl. apply andb_prop in Hl as [Hx Hl]. now rewrite (H x Hx), IH.
Qed.

Lemma value_no_space (c : char) : is_value_char c = true -> no_space c = true.
Proof.
  unfold is_value_char, no_space. simpl. rewrite orb_false_r.
  destruct (is_space c); [|reflexivity].
  now rewrite orb_true_r.
Qed.

Lemma name_no_space (c : char) : is_name_char c = true -> no_space c = true.
Proof. intros H. unfold no_space. now rewrite (name_not_space c H). Qed.

Lemma empty_match_no_space (c : char) (s : str) :
  is_space c = false -> empty_match (c :: s) = None.
Proof. intros H. unfold empty_match. simpl span. now rewrite H. Qed.

(** Step 4 copies a text without spaces. *)
Lemma drop_no_space (m b : str) :
  forallb no_space m = true ->
  drop_empty_attrs (m ++ b) = m ++ drop_empty_attrs b.
Proof.
  induction m as [|c m IH]; [reflexivity|]. simpl. intros H.
  apply andb_prop in H as [Hc Hm]. apply negb_true_iff in Hc.
  rewrite drop_empty_attrs_copy by now apply empty_match_no_space.
  now rewrite IH.
Qed.

Lemma quoted_no_space (key value : str) :
  forallb is_name_char key = true -> forallb is_value_char value = true ->
  forallb no_space (key ++ [eq_sign; dq] ++ value ++ [dq]) = true.
Proof.
  intros Hk Hv. rewrite !forallb_app.
  rewrite (forallb_imp _ _ _ name_no_space Hk).
  rewrite (forallb_imp _ _ _ value_no_space Hv). reflexivity.
Qed.

(** Step 4 treats the text before a quoted assignment on its own, when that
    text ends with a stopper. *)
Lemma drop_before_quoted (a : str) (z : char) (key value b : str) :
  is_value_char z = false ->
  key <> [] -> forallb is_name_char key = true ->
  value <> [] -> forallb is_value_char value = true ->
  drop_empty_attrs ((a ++ [z]) ++ key ++ [eq_sign; dq] ++ value ++ [dq] ++ b) =
  drop_empty_attrs (a ++ [z]) ++
  key ++ [eq_sign; dq] ++ value ++ [dq] ++ drop_empty_attrs b.
Proof.
  intros Hz Hk Hkn Hv Hvn.
  destruct value as [|v0 value]; [contradiction|].
  assert (Hv0 : v0 <> dq).
  { simpl in Hvn. apply andb_prop in Hvn as [H0 _]. intros ->. discriminate H0. }
  unfold drop_empty_attrs at 1.
  rewrite sub_app.
  - fold (drop_empty_attrs (a ++ [z])). f_equal.
    change (sub no_flags empty_re []) with drop_empty_attrs.
    pose proof (drop_no_space (key ++ [eq_sign; dq] ++ (v0 :: value) ++ [dq])
                  b (quoted_no_space key (v0 :: value) Hkn Hvn)) as Hd.
    rewrite <- !app_assoc in Hd. exact Hd.
  - exact empty_consumes.
  - intros u v Hsplit Hne.
    destruct (suffix_snoc _ _ _ _ Hsplit Hne) as (v' & ->).
    rewrite !match_empty.
    change ((v0 :: value) ++ [dq] ++ b) with (v0 :: value ++ [dq] ++ b).
    rewrite (empty_match_local_quoted v' z key v0 _ Hz Hk Hkn Hv0).
    now destruct (empty_match (v' ++ [z])) as [[name rest]|].
Qed.

(** Step 4 treats the text before a run of spaces on its own, when that text
    does not end with a space. *)
Lemma drop_before_space (a : str) (z : char) (t : str) :
  is_space z = false ->
  match t with [] => True | c :: _ => is_space c = true end ->
  drop_empty_attrs ((a ++ [z]) ++ t) =
  drop_empty_attrs (a ++ [z]) ++ drop_empty_attrs t.
Proof.
  intros Hz Ht. apply sub_app; [exact empty_consumes|].
  intros u v Hsplit Hne.
  destruct (suffix_snoc _ _ _ _ Hsplit Hne) as (v' & ->).
  rewrite !match_empty, (empty_match_local_space v' z t Hz Ht).
  now destruct (empty_match (v' ++ [z])) as [[name rest]|].
Qed.

Lemma empty_match_attribute (ws key post : str) :
  ws <> [] -> forallb is_space ws = true ->
  key <> [] -> forallb is_name_char key = true ->
  empty_match (ws ++ key ++ [eq_sign; dq; dq] ++ post) = Some (key, post).
Proof.
  intros Hw Hws Hk Hkn. unfold empty_match.
  destruct key as [|k0 key]; [contradiction|].
  rewrite (span_run is_space ws _ Hws).
  2:{ simpl in Hkn. apply andb_prop in Hkn as [H0 _]. now apply name_not_space. }
  destruct ws as [|w0 ws]; [contradiction|].
  rewrite (span_run is_name_char (k0 :: key) _ Hkn) by reflexivity.
  cbn [app eat]. now rewrite !lit_ok_plain, !N.eqb_refl.
Qed.

Lemma clean_steps (raw : str) :
  clean_svg_response (Some raw) =
  drop_empty_attrs (quote_attrs (working_text raw)).
Proof. destruct raw; reflexivity. Qed.

Lemma last_cases (pre : str) (d : char) :
  pre = [] \/ exists a, pre = a ++ [last pre d].
Proof.
  destruct pre as [|c pre]; [now left|right].
  exists (removelast (c :: pre)). apply app_removelast_last. discriminate.
Qed.

(** ** The last character through steps 3 and 4 *)

Lemma last_any_default {A : Type} (y : list A) (d d' : A) :
  y <> [] -> last y d = last y d'.
Proof.
  induction y as [|a y IH]; [contradiction|]. intros _.
  destruct y as [|b y]; [reflexivity|]. apply IH. discriminate.
Qed.

Lemma last_cons_default {A : Type} (c : A) (s : list A) (d : A) :
  last (c :: s) d = last s c.
Proof.
  destruct s as [|b s]; [reflexivity|].
  change (last (c :: b :: s) d) with (last (b :: s) d).
  apply last_any_default. discriminate.
Qed.

Lemma last_app_default {A : Type} (x y : list A) (d : A) :
  last (x ++ y) d = last y (last x d).
Proof.
  revert d. induction x as [|a x IH]; intros d; [reflexivity|].
  cbn [app]. now rewrite !last_cons_default, IH.
Qed.

(** Step 3 keeps the last character, or ends with the quote it wrote. *)
Lemma quote_attrs_last (s : str) (d : char) :
  is_space (last s d) = false -> is_space (last (quote_attrs s) d) = false.
Proof.
  remember (length s) as n eqn:Hn. revert s d Hn.
  induction n as [n IH] using lt_wf_ind. intros s d Hn H.
  destruct s as [|c s]; [exact H|].
  destruct (quote_match (c :: s)) as [[[key v] rest]|] eqn:E.
  - rewrite (quote_attrs_match _ _ _ _ E).
    destruct (quote_match_split _ _ _ _ E) as (Hs & Hk & Hv & _ & Hvn & _).
    replace (key ++ [eq_sign] ++ [dq] ++ v ++ [dq] ++ quote_attrs rest)
      with (((key ++ [eq_sign] ++ [dq] ++ v) ++ [dq]) ++ quote_attrs rest)
      by (now rewrite <- !app_assoc).
    rewrite last_app_default, last_last.
    apply (IH (length rest)); trivial.
    + rewrite Hn, Hs, !length_app. destruct key; [contradiction|simpl; lia].
    + destruct rest as [|r0 rest]; [reflexivity|].
      rewrite Hs in H.
      replace (key ++ [eq_sign] ++ v ++ r0 :: rest)
        with ((key ++ [eq_sign] ++ v) ++ r0 :: rest) in H
        by (now rewrite <- !app_assoc).
      rewrite last_app_default in H.
      now rewrite (last_any_default (r0 :: rest) _ (last (key ++ [eq_sign] ++ v) d))
        by discriminate.
  - rewrite (quote_attrs_copy _ _ E). rewrite last_cons_default in *.
    apply (IH (length s)); trivial. rewrite Hn. simpl. lia.
Qed.

(** ** Unquoted and empty attributes in the working text *)

Lemma value_stops_stops (post : str) :
  value_stops post = true -> stops is_value_char post.
Proof.
  unfold value_stops. destruct post as [|c post]; simpl; [trivial|].
  apply negb_true_iff.
Qed.

Lemma quote_attrs_around (pre key value post : str) :
  truthy key = true -> forallb is_name_char key = true ->
  truthy value = true -> forallb is_value_char value = true ->
  ends_token pre = true -> value_stops post = true ->
  quote_attrs (pre ++ key ++ [eq_sign] ++ value ++ post) =
  quote_attrs pre ++ key ++ [eq_sign; dq] ++ value ++ [dq] ++ quote_attrs post.
Proof.
  intros Hk Hkn Hv Hvn Hpre Hpost.
  assert (Hk' : key <> []) by (destruct key; [discriminate|discriminate]).
  assert (Hv' : value <> []) by (destruct value; [discriminate|discriminate]).
  apply value_stops_stops in Hpost.
  destruct (last_cases pre sp) as [->|(a & Ha)].
  - cbn [app]. now apply quote_attrs_occurrence.
  - unfold ends_token in Hpre. apply negb_true_iff in Hpre.
    pose proof (quote_attrs_occurrence key value post Hk' Hkn Hv' Hvn Hpost) as Hocc.
    set (occ := key ++ [eq_sign] ++ value ++ post) in *.
    rewrite Ha. rewrite <- app_assoc.
    change ([last pre sp] ++ occ) with (last pre sp :: occ).
    rewrite quote_attrs_app by exact Hpre.
    rewrite quote_attrs_stopper by exact Hpre.
    rewrite quote_attrs_snoc by exact Hpre.
    now rewrite Hocc, <- app_assoc.
Qed.

Lemma quote_attrs_ends_token (pre : str) :
  ends_token pre = true ->
  quote_attrs pre = [] \/
  exists a z, quote_attrs pre = a ++ [z] /\ is_value_char z = false.
Proof.
  intros Hpre. destruct (last_cases pre sp) as [->|(a & Ha)]; [now left|right].
  unfold ends_token in Hpre. apply negb_true_iff in Hpre.
  exists (quote_attrs a), (last pre sp). split; [|exact Hpre].
  rewrite Ha at 1. now apply quote_attrs_snoc.
Qed.

Lemma quote_match_before_quote (key t : str) :
  forallb is_name_char key = true ->
  quote_match (key ++ eq_sign :: dq :: t) = None.
Proof.
  intros Hk. unfold quote_match.
  rewrite (span_run is_name_char key _ Hk) by reflexivity.
  destruct key as [|k0 key]; [reflexivity|].
  now rewrite N.eqb_refl.
Qed.

(** Step 3 leaves an explicitly empty attribute as it is. *)
Lemma quote_attrs_empty_attr (key t : str) :
  forallb is_name_char key = true ->
  quote_attrs (key ++ [eq_sign; dq; dq] ++ t) =
  key ++ [eq_sign; dq; dq] ++ quote_attrs t.
Proof.
  intros Hk. induction key as [|k0 key IH].
  - cbn [app]. rewrite quote_attrs_copy by reflexivity.
    now rewrite !quote_attrs_stopper by reflexivity.
  - do 2 rewrite <- (app_comm_cons key _ k0).
    rewrite quote_attrs_copy
      by exact (quote_match_before_quote (k0 :: key) (dq :: t) Hk).
    simpl in Hk. apply andb_prop in Hk as [_ Hk].
    now rewrite (IH Hk).
Qed.

Lemma quote_attrs_spaces (ws t : str) :
  forallb is_space ws = true -> quote_attrs (ws ++ t) = ws ++ quote_attrs t.
Proof.
  induction ws as [|w ws IH]; [reflexivity|]. simpl. intros H.
  apply andb_prop in H as [Hw H].
  rewrite quote_attrs_stopper, (IH H); [reflexivity|].
  unfold is_value_char. simpl. now rewrite Hw, orb_true_r.
Qed.

Lemma space_stops_value (c : char) : is_space c = true -> is_value_char c = false.
Proof. intros H. unfold is_value_char. simpl. now rewrite H, orb_true_r. Qed.

(** ** What a sanitized text looks like *)

Lemma replace_nbsp_clean (s : str) : no_nbsp (replace_nbsp s) = true.
Proof.
  induction s as [|c s IH]; [reflexivity|]. unfold no_nbsp in *. simpl.
  rewrite IH, andb_true_r.
  destruct (N.eqb_spec c nbsp) as [->|H]; [reflexivity|].
  now apply negb_true_iff, N.eqb_neq.
Qed.

Lemma replace_nbsp_id (s : str) : no_nbsp s = true -> replace_nbsp s = s.
Proof.
  induction s as [|c s IH]; [reflexivity|]. unfold no_nbsp in *. simpl.
  intros H. apply andb_prop in H as [Hc H].
  apply negb_true_iff in Hc. now rewrite Hc, IH.
Qed.

Lemma lstrip_suffix (s : str) : exists w, s = w ++ lstrip s.
Proof.
  induction s as [|c s [w IH]]; [now exists []|]. simpl.
  destruct (is_space c).
  - exists (c :: w). simpl. now rewrite <- IH.
  - now exists [].
Qed.

Lemma rstrip_prefix (s : str) : exists w, s = rstrip s ++ w.
Proof.
  unfold rstrip. destruct (lstrip_suffix (rev s)) as [w H].
  exists (rev w). rewrite <- rev_app_distr, <- H. symmetry. apply rev_involutive.
Qed.

Lemma no_nbsp_app (a b : str) :
  no_nbsp (a ++ b) = no_nbsp a && no_nbsp b.
Proof. apply forallb_app. Qed.

Lemma no_nbsp_strip (s : str) : no_nbsp s = true -> no_nbsp (strip s) = true.
Proof.
  intros H. unfold strip.
  destruct (lstrip_suffix s) as [w Hw]. rewrite Hw, no_nbsp_app in H.
  apply andb_prop in H as [_ H].
  destruct (rstrip_prefix (lstrip s)) as [w' Hw']. rewrite Hw', no_nbsp_app in H.
  now apply andb_prop in H as [H _].
Qed.

Lemma no_nbsp_quote (s : str) : no_nbsp s = true -> no_nbsp (quote_attrs s) = true.
Proof.
  remember (length s) as n eqn:Hn. revert s Hn.
  induction n as [n IH] using lt_wf_ind. intros s Hn H.
  destruct s as [|c s]; [reflexivity|].
  destruct (quote_match (c :: s)) as [[[key v] rest]|] eqn:E.
  - rewrite (quote_attrs_match _ _ _ _ E).
    destruct (quote_match_split _ _ _ _ E) as (Hs & Hk & _).
    rewrite Hs in H. rewrite !no_nbsp_app in *.
    apply andb_prop in H as [H1 H]. apply andb_prop in H as [_ H].
    apply andb_prop in H as [H2 H3].
    rewrite H1, H2. rewrite (IH (length rest)); trivial.
    rewrite Hn, Hs, !length_app. destruct key; [contradiction|simpl; lia].
  - rewrite (quote_attrs_copy _ _ E). unfold no_nbsp in *. simpl in *.
    apply andb_prop in H as [Hc H]. rewrite Hc.
    apply (IH (length s)); trivial. rewrite Hn. simpl. lia.
Qed.

Lemma no_nbsp_drop (s : str) :
  no_nbsp s = true -> no_nbsp (drop_empty_attrs s) = true.
Proof.
  remember (length s) as n eqn:Hn. revert s Hn.
  induction n as [n IH] using lt_wf_ind. intros s Hn H.
  destruct s as [|c s]; [reflexivity|].
  destruct (empty_match (c :: s)) as [[name rest]|] eqn:E.
  - rewrite (drop_empty_attrs_match _ _ _ E).
    destruct (empty_match_split _ _ _ E) as (ws & Hs & Hw & _).
    rewrite Hs in H. rewrite !no_nbsp_app in H.
    apply andb_prop in H as [_ H]. apply andb_prop in H as [_ H].
    apply andb_prop in H as [_ H].
    apply (IH (length rest)); trivial.
    rewrite Hn, Hs, !length_app. destruct ws; [contradiction|simpl; lia].
  - rewrite (drop_empty_attrs_copy _ _ E). unfold no_nbsp in *. simpl in *.
    apply andb_prop in H as [Hc H]. rewrite Hc.
    apply (IH (length s)); trivial. rewrite Hn. simpl. lia.
Qed.

Lemma hd_lstrip (s : str) : is_space (hd 0 (lstrip s)) = false.
Proof.
  induction s as [|c s IH]; [reflexivity|]. simpl.
  destruct (is_space c) eqn:E; [exact IH|exact E].
Qed.

Lemma lstrip_id (s : str) : is_space (hd 0 s) = false -> lstrip s = s.
Proof. destruct s as [|c s]; [reflexivity|]. simpl. now intros ->. Qed.

Lemma hd_rev (s : str) (d : char) : hd d (rev s) = last s d.
Proof.
  destruct (last_cases s d) as [->|(a & Ha)]; [reflexivity|].
  rewrite Ha at 1. now rewrite rev_app_distr.
Qed.

Lemma last_rstrip (s : str) : is_space (last (rstrip s) 0) = false.
Proof. unfold rstrip. rewrite <- hd_rev, rev_involutive. apply hd_lstrip. Qed.

Lemma rstrip_id (s : str) : is_space (last s 0) = false -> rstrip s = s.
Proof.
  intros H. unfold rstrip. rewrite lstrip_id by now rewrite hd_rev.
  apply rev_involutive.
Qed.

Lemma hd_rstrip (s : str) :
  is_space (hd 0 s) = false -> is_space (hd 0 (rstrip s)) = false.
Proof.
  intros H. destruct (rstrip_prefix s) as [w Hw].
  destruct (rstrip s) as [|c r]; [reflexivity|].
  rewrite Hw in H. exact H.
Qed.

Lemma strip_stripped (s : str) : stripped (strip s).
Proof.
  split; unfold strip.
  - apply hd_rstrip, hd_lstrip.
  - apply last_rstrip.
Qed.

Lemma stripped_strip (s : str) : stripped s -> strip s = s.
Proof.
  intros [Hh Hl]. unfold strip. rewrite (lstrip_id s Hh). now apply rstrip_id.
Qed.

Lemma quote_attrs_hd (s : str) (d : char) : hd d (quote_attrs s) = hd d s.
Proof.
  destruct s as [|c s]; [reflexivity|].
  destruct (quote_match (c :: s)) as [[[key v] rest]|] eqn:E.
  - rewrite (quote_attrs_match _ _ _ _ E).
    destruct (quote_match_split _ _ _ _ E) as (Hs & Hk & _).
    rewrite Hs. destruct key; [contradiction|reflexivity].
  - now rewrite (quote_attrs_copy _ _ E).
Qed.

Lemma drop_hd (s : str) :
  is_space (hd 0 s) = false -> is_space (hd 0 (drop_empty_attrs s)) = false.
Proof.
  destruct s as [|c s]; [trivial|]. simpl. intros H.
  now rewrite drop_empty_attrs_copy by now apply empty_match_no_space.
Qed.

(** A match of step 4's pattern found after a space starts at that space. *)
Lemma empty_match_more_space (c : char) (s name rest : str) :
  is_space c = true -> empty_match s = Some (name, rest) ->
  empty_match (c :: s) = Some (name, rest).
Proof.
  intros Hc. unfold empty_match. simpl span. rewrite Hc.
  destruct (span is_space s) as [ws s1].
  destruct ws as [|w0 ws]; [discriminate|]. trivial.
Qed.

Lemma drop_nil_inv (s : str) :
  drop_empty_attrs s = [] -> s = [] \/ exists name rest, empty_match s = Some (name, rest).
Proof.
  intros H. destruct s as [|c s]; [now left|right].
  destruct (empty_match (c :: s)) as [[name rest]|] eqn:E; [eauto|].
  rewrite (drop_empty_attrs_copy _ _ E) in H. discriminate.
Qed.

(** Step 4 never leaves a space at the end of a text that had none there. *)
Lemma drop_last (s : str) (d : char) :
  is_space d = false -> is_space (last s d) = false ->
  is_space (last (drop_empty_attrs s) d) = false.
Proof.
  remember (length s) as n eqn:Hn. revert s d Hn.
  induction n as [n IH] using lt_wf_ind. intros s d Hn Hd H.
  destruct s as [|c s]; [exact H|].
  destruct (empty_match (c :: s)) as [[name rest]|] eqn:E.
  - rewrite (drop_empty_attrs_match _ _ _ E).
    destruct (empty_match_split _ _ _ E) as (ws & Hs & Hw & _).
    apply (IH (length rest)); trivial.
    + rewrite Hn, Hs, !length_app. destruct ws; [contradiction|simpl; lia].
    + destruct rest as [|r0 rest]; [exact Hd|].
      rewrite Hs in H.
      replace (ws ++ name ++ [eq_sign; dq; dq] ++ r0 :: rest)
        with ((ws ++ name ++ [eq_sign; dq; dq]) ++ r0 :: rest) in H
        by (now rewrite <- !app_assoc).
      rewrite last_app_default in H.
      now rewrite (last_any_default (r0 :: rest) _
                     (last (ws ++ name ++ [eq_sign; dq; dq]) d)) by discriminate.
  - rewrite (drop_empty_attrs_copy _ _ E). rewrite last_cons_default in *.
    destruct (is_space c) eqn:Ec.
    + destruct s as [|c' s]; [simpl in H; congruence|].
      destruct (drop_empty_attrs (c' :: s)) as [|e es] eqn:Ed.
      * exfalso. apply drop_nil_inv in Ed as [Ed|(name & rest & Ed)]; [discriminate|].
        rewrite (empty_match_more_space c _ _ _ Ec Ed) in E. discriminate.
      * rewrite (last_any_default (e :: es) c d) by discriminate.
        rewrite <- Ed. apply (IH (length (c' :: s))); trivial.
        -- rewrite Hn. simpl. lia.
        -- now rewrite (last_any_default (c' :: s) d c) by discriminate.
    + apply (IH (length s)); trivial. rewrite Hn. simpl. lia.
Qed.

Lemma working_text_shape (raw : str) :
  stripped (working_text raw) /\ no_nbsp (working_text raw) = true.
Proof.
  unfold working_text, normalize. split.
  - apply strip_stripped.
  - apply no_nbsp_strip, replace_nbsp_clean.
Qed.

(** The output of the sanitizer is stripped and free of non-breaking spaces. *)
Lemma clean_shape (x : option str) :
  stripped (clean_svg_response x) /\ no_nbsp (clean_svg_response x) = true.
Proof.
  destruct x as [raw|]; [|now repeat split].
  rewrite clean_steps.
  destruct (working_text_shape raw) as [[Hh Hl] Hn].
  repeat split.
  - apply drop_hd. now rewrite quote_attrs_hd.
  - apply drop_last; [reflexivity|]. now apply quote_attrs_last.
  - now apply no_nbsp_drop, no_nbsp_quote.
Qed.

Lemma normalize_id (y : str) : stripped y -> no_nbsp y = true -> normalize y = y.
Proof.
  intros Hs Hn. unfold normalize. rewrite (replace_nbsp_id y Hn).
  now apply stripped_strip.
Qed.

(** ** Texts without a fence, and what steps 3 and 4 write and delete *)

Lemma search_fence_without_fence (raw : str) :
  contains fence raw = false -> search fence_flags fence_re raw = None.
Proof.
  intros H. destruct (search fence_flags fence_re raw) as [[rest cs]|] eqn:E;
    [|reflexivity].
  destruct (search_fence_some _ _ _ E) as (pre & s & g & -> & _ & Hf & _).
  destruct Hf as (tag & ws & ws' & -> & _).
  now rewrite contains_app in H.
Qed.

Lemma fence_extract_without_fence (raw : str) :
  contains fence raw = false -> fence_extract raw = raw.
Proof.
  intros H. unfold fence_extract. now rewrite search_fence_without_fence.
Qed.

Lemma no_eq_sign_app (a b : str) :
  no_eq_sign (a ++ b) = no_eq_sign a && no_eq_sign b.
Proof. apply forallb_app. Qed.

Lemma filter_none {A : Type} (p q : A -> bool) (l : list A) :
  (forall x, q x = true -> p x = false) -> forallb q l = true -> filter p l = [].
Proof.
  intros Hpq. induction l as [|x l IH]; [reflexivity|]. simpl. intros H.
  apply andb_prop in H as [Hx H]. now rewrite (Hpq x Hx), IH.
Qed.

(** Step 3 writes double quotes and nothing else. *)
Lemma quote_attrs_filter (p : char -> bool) (s : str) :
  p dq = false -> filter p (quote_attrs s) = filter p s.
Proof.
  intros Hp. remember (length s) as n eqn:Hn. revert s Hn.
  induction n as [n IH] using lt_wf_ind. intros s Hn.
  destruct s as [|c s]; [reflexivity|].
  destruct (quote_match (c :: s)) as [[[key v] rest]|] eqn:E.
  - rewrite (quote_attrs_match _ _ _ _ E).
    destruct (quote_match_split _ _ _ _ E) as (Hs & Hk & _).
    rewrite Hs, !filter_app. cbn [filter]. rewrite Hp, !app_nil_l.
    rewrite (IH (length rest)); trivial.
    rewrite Hn, Hs, !length_app. destruct key; [contradiction|simpl; lia].
  - rewrite (quote_attrs_copy _ _ E). cbn [filter].
    rewrite (IH (length s)); trivial. rewrite Hn. simpl. lia.
Qed.

(** Step 4 deletes white space, name characters, equals signs and double
    quotes, and nothing else. *)
Lemma drop_filter (p : char -> bool) (s : str) :
  (forall c, is_space c = true -> p c = false) ->
  (forall c, is_name_char c = true -> p c = false) ->
  p eq_sign = false -> p dq = false ->
  filter p (drop_empty_attrs s) = filter p s.
Proof.
  intros Hsp Hnm Heq Hdq. remember (length s) as n eqn:Hn. revert s Hn.
  induction n as [n IH] using lt_wf_ind. intros s Hn.
  destruct s as [|c s]; [reflexivity|].
  destruct (empty_match (c :: s)) as [[name rest]|] eqn:E.
  - rewrite (drop_empty_attrs_match _ _ _ E).
    destruct (empty_match_split _ _ _ E) as (ws & Hs & Hw & _ & Hws & Hname).
    rewrite Hs, !filter_app.
    rewrite (filter_none p is_space ws Hsp Hws).
    rewrite (filter_none p is_name_char name Hnm Hname).
    cbn [filter]. rewrite Heq, Hdq, !app_nil_l.
    apply (IH (length rest)); trivial.
    rewrite Hn, Hs, !length_app. destruct ws; [contradiction|simpl; lia].
  - rewrite (drop_empty_attrs_copy _ _ E). cbn [filter].
    rewrite (IH (length s)); trivial. rewrite Hn. simpl. lia.
Qed.

(** ** Suffixes *)

Lemma each_suffix_cons (f : str -> bool) (c : char) (s : str) :
  each_suffix f (c :: s) = f (c :: s) && each_suffix f s.
Proof. reflexivity. Qed.

Lemma each_suffix_here (f : str -> bool) (s : str) :
  each_suffix f s = true -> f s = true.
Proof. destruct s; simpl; intros H; now apply andb_prop in H as [H _]. Qed.

Lemma each_suffix_tail (f : str -> bool) (c : char) (s : str) :
  each_suffix f (c :: s) = true -> each_suffix f s = true.
Proof. simpl. intros H. now apply andb_prop in H as [_ H]. Qed.

Lemma each_suffix_app (f : str -> bool) (a t : str) :
  each_suffix f (a ++ t) = true -> each_suffix f t = true.
Proof.
  induction a as [|c a IH]; [trivial|]. intros H.
  apply IH. exact (each_suffix_tail f c _ H).
Qed.

(** A prefix at whose positions [f] holds whatever follows. *)
Lemma each_suffix_prefix (f : str -> bool) (a t : str) :
  (forall u v, a = u ++ v -> v <> [] -> f (v ++ t) = true) ->
  each_suffix f t = true -> each_suffix f (a ++ t) = true.
Proof.
  induction a as [|c a IH]; intros Ha Ht; [exact Ht|].
  change ((c :: a) ++ t) with (c :: a ++ t). rewrite each_suffix_cons.
  apply andb_true_intro. split.
  - apply (Ha [] (c :: a)); [reflexivity|discriminate].
  - apply IH; trivial. intros u v -> Hv. now apply (Ha (c :: u) v).
Qed.

(** ** The two attribute patterns at the head of a text *)

Lemma span_cut (p : char -> bool) (t : str) :
  exists run rest,
    t = run ++ rest /\ forallb p run = true /\ stops p rest /\
    span p t = (run, rest).
Proof.
  exists (fst (span p t)), (snd (span p t)). repeat split.
  - symmetry. apply span_app.
  - apply span_all.
  - pose proof (span_stop p t) as H. unfold stops.
    now destruct (snd (span p t)).
  - now destruct (span p t).
Qed.

Lemma stops_cons (p : char -> bool) (c : char) (s : str) :
  p c = false -> stops p (c :: s).
Proof. trivial. Qed.

Lemma quote_match_stop (t : str) : stops is_name_char t -> quote_match t = None.
Proof.
  intros H. unfold quote_match. destruct t as [|c t]; [reflexivity|].
  simpl in H. simpl. now rewrite H.
Qed.

Lemma quote_match_names (nm s2 : str) :
  nm <> [] -> forallb is_name_char nm = true -> stops is_name_char s2 ->
  quote_match (nm ++ s2) =
  match s2 with
  | c :: s3 =>
      if c =? eq_sign then
        match span is_value_char s3 with
        | ([], _) => None
        | (v, rest) => Some (nm, v, rest)
        end
      else None
  | [] => None
  end.
Proof.
  intros Hne Hnm Hs. unfold quote_match.
  rewrite (span_run is_name_char nm s2 Hnm Hs).
  destruct nm as [|n0 nm]; [contradiction|].
  destruct s2 as [|c s3]; [reflexivity|].
  destruct (c =? eq_sign); [|reflexivity].
  destruct (span is_value_char s3) as [v rest]. now destruct v.
Qed.

(** After a name, the pattern of step 3 fails exactly when no equals sign
    follows or none that a value character follows. *)
Lemma quote_match_names_none (nm s2 : str) :
  nm <> [] -> forallb is_name_char nm = true -> stops is_name_char s2 ->
  quote_match (nm ++ s2) = None <->
  match s2 with
  | c :: s3 => c = eq_sign -> stops is_value_char s3
  | [] => True
  end.
Proof.
  intros Hne Hnm Hs. rewrite (quote_match_names nm s2 Hne Hnm Hs).
  destruct s2 as [|c s3]; [tauto|].
  destruct (N.eqb_spec c eq_sign) as [->|Hc].
  - destruct s3 as [|e s4]; [simpl; tauto|]. simpl.
    destruct (is_value_char e) eqn:E.
    + destruct (span is_value_char s4). split; [discriminate|].
      intros H. specialize (H eq_refl). discriminate.
    + tauto.
  - split; [intros _ H; contradiction|reflexivity].
Qed.

Lemma eat_empty_tail (s : str) :
  eat no_flags [eq_sign; dq; dq] s =
  match s with
  | a :: b :: c :: r =>
      if (a =? eq_sign) && (b =? dq) && (c =? dq) then Some r else None
  | _ => None
  end.
Proof.
  destruct s as [|a [|b [|c r]]]; cbn [eat]; rewrite ?lit_ok_plain;
    rewrite ?(N.eqb_sym eq_sign), ?(N.eqb_sym dq).
  - reflexivity.
  - now destruct (a =? eq_sign).
  - destruct (a =? eq_sign); [|reflexivity]. now destruct (b =? dq).
  - destruct (a =? eq_sign); [|reflexivity].
    destruct (b =? dq); [|reflexivity]. now destruct (c =? dq).
Qed.

Lemma empty_match_spaces (ws s1 : str) :
  ws <> [] -> forallb is_space ws = true -> stops is_space s1 ->
  empty_match (ws ++ s1) =
  match span is_name_char s1 with
  | ([], _) => None
  | (name, s2) =>
      match eat no_flags [eq_sign; dq; dq] s2 with
      | Some rest => Some (name, rest)
      | None => None
      end
  end.
Proof.
  intros Hne Hws Hs. unfold empty_match.
  rewrite (span_run is_space ws s1 Hws Hs).
  destruct ws; [contradiction|].
  destruct (span is_name_char s1) as [name s2]. now destruct name.
Qed.

Lemma empty_match_names (ws nm s2 : str) :
  ws <> [] -> forallb is_space ws = true ->
  nm <> [] -> forallb is_name_char nm = true -> stops is_name_char s2 ->
  empty_match (ws ++ nm ++ s2) =
  match eat no_flags [eq_sign; dq; dq] s2 with
  | Some rest => Some (nm, rest)
  | None => None
  end.
Proof.
  intros Hne Hws Hnn Hnm Hs.
  rewrite empty_match_spaces; trivial.
  - rewrite (span_run is_name_char nm s2 Hnm Hs). now destruct nm.
  - destruct nm as [|n0 nm]; [contradiction|]. simpl in Hnm.
    apply andb_prop in Hnm as [Hn _]. simpl. now apply name_not_space.
Qed.

Lemma empty_match_no_name (ws s1 : str) :
  forallb is_space ws = true -> stops is_name_char s1 -> stops is_space s1 ->
  empty_match (ws ++ s1) = None.
Proof.
  intros Hws Hn Hs. destruct ws as [|w ws].
  - destruct s1 as [|c s1]; [reflexivity|]. now apply empty_match_no_space.
  - rewrite empty_match_spaces; trivial; [|discriminate].
    pose proof (span_run is_name_char [] s1 eq_refl Hn) as E.
    cbn [app] in E. now rewrite E.
Qed.

Lemma empty_attr_closed_eq (t : str) :
  empty_attr_closed t =
  match empty_match t with
  | Some (_, rest) => follow_ok rest
  | None => true
  end.
Proof.
  unfold empty_attr_closed. rewrite match_empty.
  now destruct (empty_match t) as [[name rest]|].
Qed.

(** ** Step 4 on a text whose empty attributes are closed *)

Lemma drop_ind (P : str -> str -> Prop) :
  P [] [] ->
  (forall c s, empty_match (c :: s) = None ->
     P s (drop_empty_attrs s) -> P (c :: s) (c :: drop_empty_attrs s)) ->
  (forall s name rest, empty_match s = Some (name, rest) ->
     P rest (drop_empty_attrs rest) -> P s (drop_empty_attrs rest)) ->
  forall s, P s (drop_empty_attrs s).
Proof.
  intros Hnil Hcopy Hmatch s.
  remember (length s) as n eqn:Hn. revert s Hn.
  induction n as [n IH] using lt_wf_ind. intros s Hn. subst n.
  destruct (empty_match s) as [[name rest]|] eqn:E.
  - rewrite (drop_empty_attrs_match _ _ _ E). apply (Hmatch s name rest E).
    apply (IH (length rest)); trivial.
    destruct (empty_match_split _ _ _ E) as (ws & -> & Hws & _).
    rewrite !length_app. destruct ws; [contradiction|simpl; lia].
  - destruct s as [|c s]; [now rewrite drop_empty_attrs_nil|].
    rewrite (drop_empty_attrs_copy _ _ E). apply Hcopy; trivial.
    apply (IH (length s)); trivial. simpl. lia.
Qed.

Lemma empty_match_rest (s name rest : str) :
  empty_match s = Some (name, rest) -> exists a, s = a ++ rest.
Proof.
  intros E. destruct (empty_match_split _ _ _ E) as (ws & -> & _).
  exists (ws ++ name ++ [eq_sign; dq; dq]). now rewrite <- !app_assoc.
Qed.

Lemma drop_cons_text (c : char) (s : str) :
  is_space c = false -> drop_empty_attrs (c :: s) = c :: drop_empty_attrs s.
Proof. intros H. now apply drop_empty_attrs_copy, empty_match_no_space. Qed.

Lemma stops_space_drop (s : str) :
  stops is_space s -> stops is_space (drop_empty_attrs s).
Proof.
  destruct s as [|c s]; [now rewrite drop_empty_attrs_nil|].
  simpl. intros H. now rewrite (drop_cons_text c s H).
Qed.

(** What step 4 leaves of a text that starts after an empty attribute. *)
Lemma drop_follow (t : str) :
  each_suffix empty_attr_closed t = true -> follow_ok t = true ->
  follow_ok (drop_empty_attrs t) = true.
Proof.
  pattern t, (drop_empty_attrs t). apply drop_ind; clear t.
  - trivial.
  - intros c s _ _ _ H. exact H.
  - intros s name rest E IH HC _.
    pose proof (each_suffix_here _ _ HC) as Hh.
    rewrite empty_attr_closed_eq, E in Hh.
    destruct (empty_match_rest _ _ _ E) as [a ->].
    apply IH; [exact (each_suffix_app _ a rest HC)|exact Hh].
Qed.

Lemma follow_ok_space (c : char) (s : str) :
  is_space c = true -> follow_ok (c :: s) = true.
Proof.
  intros H. simpl.
  destruct (is_name_char c) eqn:En.
  - apply name_not_space in En. congruence.
  - destruct (N.eqb_spec c eq_sign) as [->|]; [discriminate H|].
    destruct (N.eqb_spec c dq) as [->|]; [discriminate H|reflexivity].
Qed.

Lemma follow_ok_inv (t : str) :
  follow_ok t = true ->
  stops is_name_char t /\
  match t with [] => True | c :: _ => c <> eq_sign /\ c <> dq end.
Proof.
  destruct t as [|c t]; [now split|]. simpl. intros H.
  apply negb_true_iff in H. apply orb_false_elim in H as [H Hd].
  apply orb_false_elim in H as [Hn He].
  repeat split; trivial; intros ->; discriminate.
Qed.

(** What step 4 leaves of [t] starts like [t], or after an empty attribute. *)
Lemma drop_head (t : str) :
  each_suffix empty_attr_closed t = true ->
  match t with
  | [] => drop_empty_attrs t = []
  | c :: s =>
      if is_space c then follow_ok (drop_empty_attrs t) = true
      else drop_empty_attrs t = c :: drop_empty_attrs s
  end.
Proof.
  intros HC. destruct t as [|c s]; [apply drop_empty_attrs_nil|].
  destruct (is_space c) eqn:E.
  - apply drop_follow; trivial. now apply follow_ok_space.
  - now apply drop_cons_text.
Qed.

Lemma stops_name_drop (t : str) :
  each_suffix empty_attr_closed t = true ->
  stops is_name_char t -> stops is_name_char (drop_empty_attrs t).
Proof.
  intros HC Hn. pose proof (drop_head t HC) as H.
  destruct t as [|c s]; [now rewrite H|].
  destruct (is_space c); [now apply follow_ok_inv|now rewrite H].
Qed.

Lemma drop_spaces (ws s1 : str) :
  forallb is_space ws = true -> stops is_space s1 ->
  empty_match (ws ++ s1) = None ->
  drop_empty_attrs (ws ++ s1) = ws ++ drop_empty_attrs s1.
Proof.
  intros Hws Hs. induction ws as [|c ws IH]; [reflexivity|]. intros E.
  simpl in Hws. apply andb_prop in Hws as [Hc Hws].
  change ((c :: ws) ++ s1) with (c :: ws ++ s1) in *.
  rewrite (drop_empty_attrs_copy _ _ E). cbn [app]. f_equal.
  destruct ws as [|d ws]; [reflexivity|]. apply IH; trivial.
  assert (Hall : forallb is_space (c :: d :: ws) = true)
    by (cbn [forallb]; now rewrite Hc).
  change (c :: (d :: ws) ++ s1) with ((c :: d :: ws) ++ s1) in E.
  rewrite (empty_match_spaces (c :: d :: ws) s1) in E; trivial;
    [|discriminate].
  rewrite (empty_match_spaces (d :: ws) s1); trivial. discriminate.
Qed.

Lemma drop_names (nm s2 : str) :
  forallb is_name_char nm = true ->
  drop_empty_attrs (nm ++ s2) = nm ++ drop_empty_attrs s2.
Proof.
  intros H. apply drop_no_space.
  apply (forallb_imp is_name_char); [exact name_no_space|exact H].
Qed.

Lemma drop_starts (t : str) (x : char) (r : str) :
  each_suffix empty_attr_closed t = true ->
  x = eq_sign \/ x = dq ->
  drop_empty_attrs t = x :: r ->
  exists s, t = x :: s /\ r = drop_empty_attrs s.
Proof.
  intros HC Hx E. pose proof (drop_head t HC) as H.
  destruct t as [|c s]; [congruence|].
  destruct (is_space c).
  - rewrite E in H. apply follow_ok_inv in H as (_ & H1 & H2).
    destruct Hx; contradiction.
  - rewrite H in E. injection E as -> <-. now exists s.
Qed.

Lemma eat_empty_tail_some (s r : str) :
  eat no_flags [eq_sign; dq; dq] s = Some r <-> s = eq_sign :: dq :: dq :: r.
Proof.
  rewrite eat_empty_tail. split.
  - destruct s as [|a [|b [|c s]]]; try discriminate.
    destruct (N.eqb_spec a eq_sign) as [->|]; [|discriminate].
    destruct (N.eqb_spec b dq) as [->|]; [|discriminate].
    destruct (N.eqb_spec c dq) as [->|]; [|discriminate].
    now intros [= ->].
  - intros ->. reflexivity.
Qed.

(** Step 4 forms no empty attribute value behind a name. *)
Lemma eat_drop (s2 : str) :
  each_suffix empty_attr_closed s2 = true ->
  eat no_flags [eq_sign; dq; dq] s2 = None ->
  eat no_flags [eq_sign; dq; dq] (drop_empty_attrs s2) = None.
Proof.
  intros HC E.
  destruct (eat no_flags [eq_sign; dq; dq] (drop_empty_attrs s2)) as [r|] eqn:E2;
    [|reflexivity].
  exfalso. apply eat_empty_tail_some in E2.
  destruct (drop_starts _ _ _ HC (or_introl eq_refl) E2) as (s3 & -> & E3).
  pose proof (each_suffix_tail _ _ _ HC) as HC3. symmetry in E3.
  destruct (drop_starts _ _ _ HC3 (or_intror eq_refl) E3) as (s4 & -> & E4).
  pose proof (each_suffix_tail _ _ _ HC3) as HC4. symmetry in E4.
  destruct (drop_starts _ _ _ HC4 (or_intror eq_refl) E4) as (s5 & -> & _).
  discriminate E.
Qed.

Lemma empty_match_stop (s1 : str) : stops is_space s1 -> empty_match s1 = None.
Proof.
  destruct s1 as [|c s1]; [reflexivity|]. intros H.
  now apply empty_match_no_space.
Qed.

Lemma space_run (c : char) (s : str) :
  is_space c = true ->
  exists ws s1, s = ws ++ s1 /\ forallb is_space (c :: ws) = true /\
                stops is_space s1.
Proof.
  intros Hc. destruct (span_cut is_space s) as (ws & s1 & -> & Hws & Hs & _).
  exists ws, s1. repeat split; trivial. simpl. now rewrite Hc.
Qed.

Lemma name_run (c : char) (s : str) :
  is_name_char c = true ->
  exists nm s2, s = nm ++ s2 /\ forallb is_name_char (c :: nm) = true /\
                stops is_name_char s2.
Proof.
  intros Hc. destruct (span_cut is_name_char s) as (nm & s2 & -> & Hn & Hs & _).
  exists nm, s2. repeat split; trivial. simpl. now rewrite Hc.
Qed.

(** Where step 4 copies a character, the pattern of step 4 still fails
    there once the rest of the text has been through step 4. *)
Lemma empty_match_drop_tail (c : char) (s : str) :
  each_suffix empty_attr_closed (c :: s) = true ->
  empty_match (c :: s) = None ->
  empty_match (c :: drop_empty_attrs s) = None.
Proof.
  intros HC E. destruct (is_space c) eqn:Hc; [|now apply empty_match_no_space].
  destruct (space_run c s Hc) as (ws & s1 & -> & Hws & Hs1).
  change (c :: ws ++ s1) with ((c :: ws) ++ s1) in *.
  assert (Hd : drop_empty_attrs (ws ++ s1) = ws ++ drop_empty_attrs s1).
  { pose proof Hws as Hws'. simpl in Hws'. apply andb_prop in Hws' as [_ Hws'].
    apply drop_spaces; trivial.
    destruct ws as [|d ws]; [now apply empty_match_stop|].
    rewrite empty_match_spaces in *; trivial; discriminate. }
  rewrite Hd. change (c :: ws ++ ?x) with ((c :: ws) ++ x).
  destruct (span_cut is_name_char s1) as (nm & s2 & -> & Hnm & Hs2 & _).
  assert (HC2 : each_suffix empty_attr_closed s2 = true).
  { apply (each_suffix_app _ ((c :: ws) ++ nm)). now rewrite <- app_assoc. }
  rewrite (drop_names nm s2 Hnm).
  pose proof (stops_name_drop s2 HC2 Hs2) as Hs2'.
  destruct nm as [|n0 nm].
  - cbn [app] in *. apply (empty_match_no_name (c :: ws)); trivial.
    now apply stops_space_drop.
  - rewrite (empty_match_names (c :: ws) (n0 :: nm) s2) in E; trivial;
      try discriminate.
    rewrite (empty_match_names (c :: ws) (n0 :: nm)); trivial;
      try discriminate.
    destruct (eat no_flags [eq_sign; dq; dq] s2) eqn:E2; [discriminate|].
    now rewrite (eat_drop s2 HC2 E2).
Qed.

(** Step 4 is idempotent on a text whose empty attributes are closed. *)
Lemma drop_twice (q : str) :
  each_suffix empty_attr_closed q = true ->
  drop_empty_attrs (drop_empty_attrs q) = drop_empty_attrs q.
Proof.
  pattern q, (drop_empty_attrs q). apply drop_ind; clear q.
  - intros _. apply drop_empty_attrs_nil.
  - intros c s E IH HC.
    rewrite (drop_empty_attrs_copy c _ (empty_match_drop_tail c s HC E)).
    f_equal. apply IH. exact (each_suffix_tail _ _ _ HC).
  - intros s name rest E IH HC. apply IH.
    destruct (empty_match_rest _ _ _ E) as [a ->].
    exact (each_suffix_app _ a rest HC).
Qed.

(** ** Step 3 after step 4 *)

Lemma no_quote_match_eq (t : str) :
  no_quote_match t = true <-> quote_match t = None.
Proof.
  unfold no_quote_match. rewrite match_quote.
  destruct (quote_match t) as [[[key v] rest]|]; split; congruence.
Qed.

Lemma quote_attrs_nil : quote_attrs [] = [].
Proof. reflexivity. Qed.

Lemma eq_before_text_inv (s3 : str) :
  eq_before_text (eq_sign :: s3) = true -> stops is_space s3.
Proof.
  destruct s3 as [|e s4]; [intros _; exact I|]. unfold eq_before_text, stops.
  change (eq_sign =? eq_sign) with true. now destruct (is_space e).
Qed.

(** Where step 4 copies a character, the pattern of step 3 still fails
    there once the rest of the text has been through step 4. *)
Lemma quote_match_drop_tail (c : char) (s : str) :
  each_suffix eq_before_text (c :: s) = true ->
  each_suffix empty_attr_closed (c :: s) = true ->
  quote_match (c :: s) = None ->
  quote_match (c :: drop_empty_attrs s) = None.
Proof.
  intros HB HC E.
  destruct (is_name_char c) eqn:Hc; [|now apply quote_match_stop].
  destruct (name_run c s Hc) as (nm & s2 & -> & Hnm & Hs2).
  assert (Hnm' : forallb is_name_char nm = true)
    by (simpl in Hnm; now apply andb_prop in Hnm as [_ Hnm]).
  rewrite (drop_names nm s2 Hnm').
  change (c :: nm ++ ?x) with ((c :: nm) ++ x) in *.
  assert (HC2 : each_suffix empty_attr_closed s2 = true)
    by exact (each_suffix_app _ (c :: nm) s2 HC).
  assert (HB2 : each_suffix eq_before_text s2 = true)
    by exact (each_suffix_app _ (c :: nm) s2 HB).
  pose proof (stops_name_drop s2 HC2 Hs2) as Hs2'.
  apply (quote_match_names_none (c :: nm) s2) in E; trivial; [|discriminate].
  apply (quote_match_names_none (c :: nm)); trivial; [discriminate|].
  destruct (drop_empty_attrs s2) as [|e u3] eqn:Ed; [trivial|]. intros ->.
  destruct (drop_starts _ _ _ HC2 (or_introl eq_refl) Ed) as (s3 & -> & ->).
  specialize (E eq_refl).
  pose proof (eq_before_text_inv s3 (each_suffix_here _ _ HB2)) as Hsp.
  destruct s3 as [|e s4]; [now rewrite drop_empty_attrs_nil|].
  simpl in Hsp, E. now rewrite (drop_cons_text e s4 Hsp).
Qed.

(** Step 3 finds nothing in what step 4 leaves of a text in which step 3
    finds nothing. *)
Lemma quote_after_drop (q : str) :
  each_suffix no_quote_match q = true ->
  each_suffix eq_before_text q = true ->
  each_suffix empty_attr_closed q = true ->
  quote_attrs (drop_empty_attrs q) = drop_empty_attrs q.
Proof.
  pattern q, (drop_empty_attrs q). apply drop_ind; clear q.
  - intros _ _ _. apply quote_attrs_nil.
  - intros c s _ IH HQ HB HC.
    pose proof (each_suffix_here _ _ HQ) as E. apply no_quote_match_eq in E.
    rewrite (quote_attrs_copy c _ (quote_match_drop_tail c s HB HC E)).
    f_equal.
    apply IH; [exact (each_suffix_tail _ _ _ HQ)
              |exact (each_suffix_tail _ _ _ HB)
              |exact (each_suffix_tail _ _ _ HC)].
  - intros s name rest E IH HQ HB HC.
    destruct (empty_match_rest _ _ _ E) as [a ->].
    apply IH; [exact (each_suffix_app _ a rest HQ)
              |exact (each_suffix_app _ a rest HB)
              |exact (each_suffix_app _ a rest HC)].
Qed.

(** ** Step 3 on its own output *)

Lemma quote_ind (P : str -> str -> Prop) :
  P [] [] ->
  (forall c s, quote_match (c :: s) = None ->
     P s (quote_attrs s) -> P (c :: s) (c :: quote_attrs s)) ->
  (forall key v rest,
     key <> [] -> forallb is_name_char key = true ->
     v <> [] -> forallb is_value_char v = true ->
     stops is_value_char rest ->
     P rest (quote_attrs rest) ->
     P (key ++ [eq_sign] ++ v ++ rest)
       (key ++ [eq_sign] ++ [dq] ++ v ++ [dq] ++ quote_attrs rest)) ->
  forall s, P s (quote_attrs s).
Proof.
  intros Hnil Hcopy Hmatch s.
  remember (length s) as n eqn:Hn. revert s Hn.
  induction n as [n IH] using lt_wf_ind. intros s Hn. subst n.
  destruct (quote_match s) as [[[key v] rest]|] eqn:E.
  - rewrite (quote_attrs_match _ _ _ _ E).
    destruct (quote_match_split _ _ _ _ E) as (-> & Hk & Hv & Hkn & Hvn & Hr).
    apply Hmatch; trivial.
    apply (IH (length rest)); trivial.
    rewrite !length_app. simpl. lia.
  - destruct s as [|c s]; [exact Hnil|].
    rewrite (quote_attrs_copy _ _ E). apply Hcopy; trivial.
    apply (IH (length s)); trivial. simpl. lia.
Qed.

Lemma quote_attrs_cons (c : char) (s : str) :
  exists u, quote_attrs (c :: s) = c :: u.
Proof.
  pose proof (quote_attrs_hd (c :: s) (c + 1)) as H. simpl in H.
  destruct (quote_attrs (c :: s)) as [|d u]; simpl in H; [lia|].
  subst d. now exists u.
Qed.

Lemma stops_quote (p : char -> bool) (s : str) :
  stops p s -> stops p (quote_attrs s).
Proof.
  destruct s as [|c s]; [trivial|].
  destruct (quote_attrs_cons c s) as [u ->]. trivial.
Qed.

Lemma quote_cons_stop (c : char) (s : str) :
  is_name_char c = false -> quote_attrs (c :: s) = c :: quote_attrs s.
Proof. intros H. now apply quote_attrs_copy, quote_match_stop. Qed.

Lemma quote_starts (t : str) (x : char) (u : str) :
  is_name_char x = false -> quote_attrs t = x :: u ->
  exists s, t = x :: s /\ u = quote_attrs s.
Proof.
  intros Hx E. destruct t as [|c s]; [discriminate E|].
  destruct (quote_attrs_cons c s) as [u' E'].
  rewrite E' in E. injection E as -> ->.
  rewrite (quote_cons_stop x s Hx) in E'. injection E' as <-. now exists s.
Qed.

Lemma quote_names (nm s2 : str) :
  forallb is_name_char nm = true -> stops is_name_char s2 ->
  no_value_after s2 ->
  quote_attrs (nm ++ s2) = nm ++ quote_attrs s2.
Proof.
  intros Hnm Hs Hc. induction nm as [|c nm IH]; [reflexivity|].
  cbn [app]. rewrite quote_attrs_copy.
  - f_equal. apply IH. simpl in Hnm. now apply andb_prop in Hnm as [_ Hnm].
  - change (c :: nm ++ s2) with ((c :: nm) ++ s2).
    apply quote_match_names_none; trivial. discriminate.
Qed.

Lemma no_value_after_quote (s2 : str) :
  no_value_after s2 -> no_value_after (quote_attrs s2).
Proof.
  intros H. destruct (quote_attrs s2) as [|e u] eqn:E; [exact I|].
  intros ->. destruct (quote_starts s2 eq_sign u eq_refl E) as (s3 & -> & ->).
  apply stops_quote. now apply H.
Qed.

(** Where step 3 copies a character, its pattern still fails there once the
    rest of the text has been through step 3. *)
Lemma quote_match_quote_tail (c : char) (s : str) :
  quote_match (c :: s) = None -> quote_match (c :: quote_attrs s) = None.
Proof.
  intros E. destruct (is_name_char c) eqn:Hc; [|now apply quote_match_stop].
  destruct (name_run c s Hc) as (nm & s2 & -> & Hnm & Hs2).
  change (c :: nm ++ s2) with ((c :: nm) ++ s2) in E.
  apply quote_match_names_none in E; trivial; [|discriminate].
  assert (Hnm' : forallb is_name_char nm = true)
    by (simpl in Hnm; now apply andb_prop in Hnm as [_ Hnm]).
  rewrite (quote_names nm s2 Hnm' Hs2 E).
  change (c :: nm ++ ?x) with ((c :: nm) ++ x).
  apply quote_match_names_none; trivial; [discriminate| |].
  - now apply stops_quote.
  - now apply no_value_after_quote.
Qed.

Lemma no_eq_sign_suffix (u v : str) :
  no_eq_sign (u ++ v) = true -> no_eq_sign v = true.
Proof. rewrite no_eq_sign_app. intros H. now apply andb_prop in H as [_ H]. Qed.

Lemma forallb_suffix {A : Type} (p : A -> bool) (u v : list A) :
  forallb p (u ++ v) = true -> forallb p v = true.
Proof. rewrite forallb_app. intros H. now apply andb_prop in H as [_ H]. Qed.

Lemma quote_match_no_eq (a t : str) :
  no_eq_sign a = true -> quote_match (a ++ dq :: t) = None.
Proof.
  intros Ha.
  destruct (span_cut is_name_char a) as (nm & a2 & -> & Hnm & Hs & _).
  apply no_eq_sign_suffix in Ha.
  assert (Hs' : stops is_name_char (a2 ++ dq :: t))
    by (destruct a2; [reflexivity|exact Hs]).
  rewrite <- app_assoc. destruct nm as [|n0 nm]; [now apply quote_match_stop|].
  apply quote_match_names_none; trivial; [discriminate|].
  destruct a2 as [|e a2]; simpl.
  - intros H. discriminate H.
  - intros ->. simpl in Ha. discriminate Ha.
Qed.

Lemma single_eq_value (v rest : str) :
  forallb is_value_char v = true -> stops is_value_char rest ->
  single_eq (eq_sign :: v ++ rest) = true -> no_eq_sign v = true.
Proof.
  intros Hv Hr. unfold single_eq.
  rewrite (span_run is_value_char v rest Hv Hr). now rewrite N.eqb_refl.
Qed.

(** Step 3 leaves no match of its pattern when no value holds an equals
    sign. *)
Lemma quote_leaves_none (w : str) :
  each_suffix single_eq w = true ->
  each_suffix no_quote_match (quote_attrs w) = true.
Proof.
  pattern w, (quote_attrs w). apply quote_ind; clear w.
  - reflexivity.
  - intros c s E IH HA. rewrite each_suffix_cons.
    apply andb_true_intro. split.
    + now apply no_quote_match_eq, quote_match_quote_tail.
    + apply IH. exact (each_suffix_tail _ _ _ HA).
  - intros key v rest Hk Hkn Hv Hvn Hr IH HA.
    assert (Hve : no_eq_sign v = true).
    { apply (single_eq_value v rest Hvn Hr).
      apply each_suffix_here, (each_suffix_app _ key). exact HA. }
    assert (HAr : each_suffix single_eq rest = true).
    { apply (each_suffix_app _ (key ++ [eq_sign] ++ v)).
      now rewrite <- !app_assoc. }
    apply each_suffix_prefix.
    { intros u k' -> Hk'. apply no_quote_match_eq.
      apply (quote_match_before_quote k'). exact (forallb_suffix _ u k' Hkn). }
    cbn [app]. rewrite !each_suffix_cons.
    rewrite (proj2 (no_quote_match_eq _)) by (now apply quote_match_stop).
    rewrite (proj2 (no_quote_match_eq _)) by (now apply quote_match_stop).
    cbn [andb]. apply each_suffix_prefix.
    { intros u v' -> Hv'. apply no_quote_match_eq, quote_match_no_eq.
      exact (no_eq_sign_suffix u v' Hve). }
    rewrite each_suffix_cons.
    rewrite (proj2 (no_quote_match_eq _)) by (now apply quote_match_stop).
    now apply IH.
Qed.

(** ** What step 3 keeps of the shape of a text *)

Lemma eq_before_text_quote (c : char) (s : str) :
  eq_before_text (c :: quote_attrs s) = eq_before_text (c :: s).
Proof.
  destruct s as [|d s]; [reflexivity|].
  now destruct (quote_attrs_cons d s) as [u ->].
Qed.

Lemma eq_before_text_run (m : str) (z : char) (t : str) :
  forallb no_space m = true -> is_space z = false ->
  each_suffix eq_before_text (z :: t) = true ->
  each_suffix eq_before_text (m ++ z :: t) = true.
Proof.
  intros Hm Hz Ht. induction m as [|c m IH]; [exact Ht|].
  simpl in Hm. apply andb_prop in Hm as [_ Hm]. specialize (IH Hm).
  cbn [app]. rewrite each_suffix_cons, IH, andb_true_r.
  unfold eq_before_text. destruct m as [|d m]; cbn [app].
  - now rewrite Hz, andb_false_r.
  - simpl in Hm. apply andb_prop in Hm as [Hd _].
    unfold no_space in Hd. apply negb_true_iff in Hd.
    now rewrite Hd, andb_false_r.
Qed.

Lemma quote_keeps_eq_before_text (w : str) :
  each_suffix eq_before_text w = true ->
  each_suffix eq_before_text (quote_attrs w) = true.
Proof.
  pattern w, (quote_attrs w). apply quote_ind; clear w.
  - reflexivity.
  - intros c s _ IH HB. rewrite each_suffix_cons in *.
    apply andb_prop in HB as [Hh HB].
    now rewrite eq_before_text_quote, Hh, (IH HB).
  - intros key v rest Hk Hkn Hv Hvn Hr IH HB.
    assert (HBr : each_suffix eq_before_text rest = true).
    { apply (each_suffix_app _ (key ++ [eq_sign] ++ v)).
      now rewrite <- !app_assoc. }
    replace (key ++ [eq_sign] ++ [dq] ++ v ++ [dq] ++ quote_attrs rest)
      with ((key ++ [eq_sign; dq] ++ v) ++ dq :: quote_attrs rest)
      by (now rewrite <- !app_assoc).
    apply eq_before_text_run.
    + rewrite !forallb_app. cbn [forallb].
      rewrite (forallb_imp _ _ _ name_no_space Hkn).
      now rewrite (forallb_imp _ _ _ value_no_space Hvn).
    + reflexivity.
    + rewrite each_suffix_cons. apply andb_true_intro. split.
      * now destruct (quote_attrs rest).
      * now apply IH.
Qed.

Lemma empty_attr_closed_text (m t : str) :
  forallb no_space m = true ->
  each_suffix empty_attr_closed t = true ->
  each_suffix empty_attr_closed (m ++ t) = true.
Proof.
  intros Hm Ht. apply each_suffix_prefix; trivial.
  intros u v -> Hv. apply forallb_suffix in Hm.
  destruct v as [|d v]; [contradiction|]. simpl in Hm.
  apply andb_prop in Hm as [Hd _]. apply negb_true_iff in Hd.
  cbn [app]. now rewrite empty_attr_closed_eq, (empty_match_no_space d _ Hd).
Qed.

Lemma follow_ok_quote (r : str) : follow_ok (quote_attrs r) = follow_ok r.
Proof.
  destruct r as [|c r]; [reflexivity|].
  now destruct (quote_attrs_cons c r) as [u ->].
Qed.

(** An empty attribute at the head of what step 3 returns was one before. *)
Lemma empty_match_quote (t nm r : str) :
  empty_match (quote_attrs t) = Some (nm, r) ->
  exists r0, empty_match t = Some (nm, r0) /\ r = quote_attrs r0.
Proof.
  intros E. destruct t as [|c s]; [discriminate E|].
  destruct (is_space c) eqn:Hc.
  2:{ destruct (quote_attrs_cons c s) as [u Hu]. rewrite Hu in E.
      now rewrite (empty_match_no_space c u Hc) in E. }
  destruct (space_run c s Hc) as (ws & s1 & -> & Hws & Hs1).
  change (c :: ws ++ s1) with ((c :: ws) ++ s1) in *.
  rewrite (quote_attrs_spaces (c :: ws) s1 Hws) in E.
  destruct (span_cut is_name_char s1) as (n & s2 & -> & Hn & Hs2 & _).
  destruct n as [|n0 n].
  { change ([] ++ s2) with s2 in *.
    rewrite (empty_match_no_name (c :: ws) (quote_attrs s2)) in E; trivial;
      [discriminate E| |]; now apply stops_quote. }
  destruct (quote_match ((n0 :: n) ++ s2)) as [[[key v] rest]|] eqn:Eq.
  - exfalso. rewrite (quote_attrs_match _ _ _ _ Eq) in E.
    destruct (quote_match_split _ _ _ _ Eq) as (_ & Hk & Hv & Hkn & Hvn & _).
    rewrite (empty_match_names (c :: ws) key) in E; trivial;
      try discriminate; [|reflexivity].
    destruct (eat no_flags [eq_sign; dq; dq]
                ([eq_sign] ++ [dq] ++ v ++ [dq] ++ quote_attrs rest))
      as [r'|] eqn:Ee; [|discriminate E].
    apply eat_empty_tail_some in Ee. destruct v as [|v0 v]; [contradiction|].
    injection Ee as -> _. discriminate Hvn.
  - apply quote_match_names_none in Eq; trivial; [|discriminate].
    rewrite (quote_names _ s2 Hn Hs2 Eq) in E.
    rewrite (empty_match_names (c :: ws) (n0 :: n)) in E; trivial;
      try discriminate; [|now apply stops_quote].
    destruct (eat no_flags [eq_sign; dq; dq] (quote_attrs s2)) as [r'|] eqn:Ee;
      [|discriminate E].
    injection E as <- <-. apply eat_empty_tail_some in Ee.
    destruct (quote_starts _ eq_sign _ eq_refl Ee) as (s3 & -> & E3).
    symmetry in E3.
    destruct (quote_starts _ dq _ eq_refl E3) as (s4 & -> & E4).
    symmetry in E4.
    destruct (quote_starts _ dq _ eq_refl E4) as (s5 & -> & ->).
    exists s5. split; [|reflexivity].
    rewrite (empty_match_names (c :: ws) (n0 :: n)); trivial; discriminate.
Qed.

Lemma quote_keeps_closed (w : str) :
  each_suffix empty_attr_closed w = true ->
  each_suffix empty_attr_closed (quote_attrs w) = true.
Proof.
  pattern w, (quote_attrs w). apply quote_ind; clear w.
  - reflexivity.
  - intros c s E IH HC. rewrite each_suffix_cons.
    apply andb_true_intro. split; [|apply IH; exact (each_suffix_tail _ _ _ HC)].
    rewrite <- (quote_attrs_copy c s E), empty_attr_closed_eq.
    destruct (empty_match (quote_attrs (c :: s))) as [[nm r]|] eqn:Ee;
      [|reflexivity].
    destruct (empty_match_quote _ _ _ Ee) as (r0 & E0 & ->).
    apply each_suffix_here in HC. rewrite empty_attr_closed_eq, E0 in HC.
    now rewrite follow_ok_quote.
  - intros key v rest Hk Hkn Hv Hvn Hr IH HC.
    assert (HCr : each_suffix empty_attr_closed rest = true).
    { apply (each_suffix_app _ (key ++ [eq_sign] ++ v)).
      now rewrite <- !app_assoc. }
    replace (key ++ [eq_sign] ++ [dq] ++ v ++ [dq] ++ quote_attrs rest)
      with ((key ++ [eq_sign; dq] ++ v ++ [dq]) ++ quote_attrs rest)
      by (now rewrite <- !app_assoc).
    apply empty_attr_closed_text; [|now apply IH].
    rewrite !forallb_app. cbn [forallb].
    rewrite (forallb_imp _ _ _ name_no_space Hkn).
    now rewrite (forallb_imp _ _ _ value_no_space Hvn).
Qed.

(** ** Backticks *)

Lemma no_backtick_filter (s : str) :
  no_backtick s = true <-> filter (fun c => c =? backtick) s = [].
Proof.
  unfold no_backtick. induction s as [|c s IH]; [tauto|]. simpl.
  destruct (c =? backtick); simpl; [split; discriminate|exact IH].
Qed.

Lemma no_backtick_fence (s : str) :
  no_backtick s = true -> contains fence s = false.
Proof.
  induction s as [|c s IH]; [reflexivity|]. simpl. intros H.
  apply andb_prop in H as [Hc H]. rewrite (IH H), orb_false_r.
  assert (Hb : (96 =? c) = false)
    by (apply N.eqb_neq; intros <-; discriminate Hc).
  now rewrite Hb.
Qed.

Lemma no_backtick_steps (w : str) :
  no_backtick w = true ->
  no_backtick (drop_empty_attrs (quote_attrs w)) = true.
Proof.
  rewrite !no_backtick_filter. intros H.
  rewrite drop_filter, quote_attrs_filter; trivial.
  - intros c Hc. destruct (N.eqb_spec c backtick) as [->|]; [discriminate|trivial].
  - intros c Hc. destruct (N.eqb_spec c backtick) as [->|]; [discriminate|trivial].
Qed.

(** * The claims *)

(** C1: the fenced scenario-A text sanitizes to exactly the root element
    with width quoted as before, transform=scale(2) quoted and the empty
    from attribute removed. *)
Theorem clean_scenario_A :
  clean_svg_response (Some scenario_A_input) = scenario_A_output.
Proof. vm_compute. reflexivity. Qed.

(** C2, as stated, fails: a fenced block whose fence carries the language
    tag xml is not extracted, the whole text, fences included, is kept; of
    two fenced blocks only the first is extracted; and a content that holds
    a fence is cut at the first closing tag before that fence. *)
Lemma fenced_block_not_extracted :
  (xml_fenced = fence ++ lit "xml" ++ [nl] ++ lit "<svg></svg>" ++ [nl] ++ fence /\
   fence_extract xml_fenced = xml_fenced /\
   fence_extract xml_fenced <> lit "<svg></svg>") /\
  (two_blocks = lit "```<svg>a</svg>``` or " ++ fence ++ lit "<svg>b</svg>" ++ fence /\
   fence_extract two_blocks = lit "<svg>a</svg>" /\
   fence_extract two_blocks <> lit "<svg>b</svg>") /\
  (fence_inside = fence ++ lit "<svg><svg>a</svg>```</svg>" ++ fence /\
   fence_extract fence_inside = lit "<svg><svg>a</svg>" /\
   fence_extract fence_inside <> lit "<svg><svg>a</svg>```</svg>").
Proof. repeat split; vm_compute; discriminate. Qed.

(** C2, amended: when the text is [pre], a fence with no tag or the tag svg
    in any letter case, spaces, a content that opens with the root tag and
    closes with its closing tag (in any letter case), spaces, a fence and
    [post], and neither [pre] nor the content holds a fence, then step 1
    yields exactly the content.  When no suffix of the text starts with a
    fenced block, step 1 keeps the text as it is. *)
Theorem fence_extraction :
  (forall pre tag ws o body c ws' post,
     tag_ok tag = true ->
     forallb is_space ws = true -> forallb is_space ws' = true ->
     same_text (lit "<svg") o = true -> same_text (lit "</svg>") c = true ->
     contains fence pre = false -> contains fence (o ++ body ++ c) = false ->
     fence_extract
       (pre ++ fence ++ tag ++ ws ++ (o ++ body ++ c) ++ ws' ++ fence ++ post)
     = o ++ body ++ c) /\
  (forall raw,
     (forall p s g, raw = p ++ s -> ~ fenced s g) -> fence_extract raw = raw).
Proof.
  split.
  - exact fence_extract_clean_block.
  - intros raw Hnone. unfold fence_extract.
    destruct (search fence_flags fence_re raw) as [[rest cs]|] eqn:E;
      [|reflexivity].
    destruct (search_fence_some _ _ _ E) as (pre & s & g & Hraw & _ & Hf & _).
    exfalso. apply (Hnone pre s g Hraw). now exists rest.
Qed.

Lemma fence_extraction_witness :
  (tag_ok (lit "SVG") = true /\
   contains fence (lit "Here it is: ") = false /\
   contains fence (lit "<svg" ++ lit ">a" ++ lit "</SVG>") = false /\
   fence_extract
     (lit "Here it is: " ++ fence ++ lit "SVG" ++ [nl] ++
      (lit "<svg" ++ lit ">a" ++ lit "</SVG>") ++ [nl] ++ fence ++ lit " Enjoy!")
   = lit "<svg" ++ lit ">a" ++ lit "</SVG>") /\
  fence_extract refusal = refusal.
Proof.
  split.
  - do 3 (split; [reflexivity|]).
    apply (proj1 fence_extraction (lit "Here it is: ") (lit "SVG") [nl]
             (lit "<svg") (lit ">a") (lit "</SVG>") [nl] (lit " Enjoy!"));
      reflexivity.
  - apply (proj2 fence_extraction). apply search_fence_none. reflexivity.
Defined.

(** C3, as stated, fails: in a=b=c the assignment b=c lies inside the value
    of a, and the output holds no quoted b; and an assignment in the prose
    around a fenced block is dropped with the prose. *)
Lemma inner_assignment_not_quoted :
  (lit "a=b=c" = lit "a=" ++ lit "b" ++ [eq_sign] ++ lit "c" /\
   forallb is_name_char (lit "b") = true /\
   forallb is_value_char (lit "c") = true /\
   contains (lit "b=" ++ [dq] ++ lit "c" ++ [dq])
     (clean_svg_response (Some (lit "a=b=c"))) = false) /\
  (assignment_in_prose = lit "x" ++ [eq_sign] ++ lit "1" ++ lit " ```<svg></svg>```" /\
   contains (lit "x=" ++ [dq] ++ lit "1" ++ [dq])
     (clean_svg_response (Some assignment_in_prose)) = false).
Proof. repeat split. Qed.

(** C3, amended: for every assignment key=value of the working text (the
    text after steps 1 and 2) that lies outside the double-quoted values
    and starts a token, that is, stands at the start of the text or after
    white space, [>] or a closing double quote, and whose value runs up to
    the end of the text or to such a character, the output holds key, [=]
    and the value in double quotes, between the sanitized text before it
    and the sanitized text after it. *)
Theorem unquoted_assignment_quoted (raw pre key value post : str) :
  working_text raw = pre ++ key ++ [eq_sign] ++ value ++ post ->
  truthy key = true -> forallb is_name_char key = true ->
  truthy value = true -> forallb is_value_char value = true ->
  outside_quotes pre = true ->
  ends_token pre = true -> value_stops post = true ->
  clean_svg_response (Some raw) =
  drop_empty_attrs (quote_attrs pre) ++
  key ++ [eq_sign; dq] ++ value ++ [dq] ++
  drop_empty_attrs (quote_attrs post).
Proof.
  intros Hw Hk Hkn Hv Hvn _ Hpre Hpost.
  rewrite clean_steps, Hw, quote_attrs_around by trivial.
  assert (Hk' : key <> []) by (destruct key; [discriminate|discriminate]).
  assert (Hv' : value <> []) by (destruct value; [discriminate|discriminate]).
  destruct (quote_attrs_ends_token pre Hpre) as [->|(a & z & -> & Hz)].
  - rewrite drop_empty_attrs_nil, !app_nil_l.
    pose proof (drop_no_space (key ++ [eq_sign; dq] ++ value ++ [dq])
                  (quote_attrs post) (quoted_no_space key value Hkn Hvn)) as Hd.
    rewrite <- !app_assoc in Hd. exact Hd.
  - now apply drop_before_quoted.
Qed.

Lemma unquoted_assignment_quoted_witness :
  working_text scenario_A_input =
    (lit "<svg width=" ++ [dq] ++ lit "1" ++ [dq] ++ lit " ") ++
    lit "transform" ++ [eq_sign] ++ lit "scale(2)" ++
    (lit " from=" ++ [dq; dq] ++ lit ">content</svg>") /\
  clean_svg_response (Some scenario_A_input) =
    drop_empty_attrs
      (quote_attrs (lit "<svg width=" ++ [dq] ++ lit "1" ++ [dq] ++ lit " ")) ++
    lit "transform" ++ [eq_sign; dq] ++ lit "scale(2)" ++ [dq] ++
    drop_empty_attrs
      (quote_attrs (lit " from=" ++ [dq; dq] ++ lit ">content</svg>")).
Proof.
  split; [reflexivity|].
  apply unquoted_assignment_quoted; reflexivity.
Defined.

(** C4 fails on the code: step 3 rewrites inside the double-quoted value of
    style in <svg style=[dq]a=b[dq]></svg>, wrapping b in quotes of its own. *)
Theorem quoted_value_rewritten :
  quote_attrs styled_svg = styled_svg_quoted /\
  clean_svg_response (Some styled_svg) = styled_svg_quoted.
Proof. split; reflexivity. Qed.

(** C5, as stated, fails: an empty attribute that follows a quoted value
    without white space stays in the output, and so does one at the start
    of the text, whose leading white space step 2 strips. *)
Lemma glued_empty_attribute_kept :
  contains (lit "to=" ++ [dq; dq])
    (clean_svg_response (Some glued_empty_attr)) = true /\
  clean_svg_response (Some (lit " from=" ++ [dq; dq])) = lit "from=" ++ [dq; dq].
Proof. split; reflexivity. Qed.

(** C5, amended: for every empty attribute of the working text that follows
    a run of white space, where the text before that run is empty or ends
    with a character that is no white space, the attribute and the whole run
    are deleted: the output is the sanitized text before the run followed
    directly by the sanitized text after the attribute. *)
Theorem empty_attribute_removed (raw pre ws key post : str) :
  working_text raw = pre ++ ws ++ key ++ [eq_sign; dq; dq] ++ post ->
  truthy ws = true -> forallb is_space ws = true ->
  truthy key = true -> forallb is_name_char key = true ->
  no_trailing_space pre = true ->
  clean_svg_response (Some raw) =
  drop_empty_attrs (quote_attrs pre) ++ drop_empty_attrs (quote_attrs post).
Proof.
  intros Hw Hws Hwsp Hk Hkn Hpre.
  assert (Hws' : ws <> []) by (destruct ws; [discriminate|discriminate]).
  assert (Hk' : key <> []) by (destruct key; [discriminate|discriminate]).
  rewrite clean_steps, Hw.
  rewrite quote_attrs_app.
  2:{ destruct ws as [|w0 ws]; [contradiction|]. simpl in *.
      apply andb_prop in Hwsp as [H0 _]. now apply space_stops_value. }
  rewrite quote_attrs_spaces, quote_attrs_empty_attr by trivial.
  unfold no_trailing_space in Hpre. apply negb_true_iff in Hpre.
  apply (quote_attrs_last pre 0) in Hpre.
  remember (quote_attrs pre) as q eqn:Hq. clear Hq.
  assert (Hmatch : drop_empty_attrs (ws ++ key ++ [eq_sign; dq; dq] ++ quote_attrs post)
                   = drop_empty_attrs (quote_attrs post)).
  { apply (drop_empty_attrs_match _ key). now apply empty_match_attribute. }
  destruct (last_cases q 0) as [->|(a & Ha)].
  - rewrite drop_empty_attrs_nil, !app_nil_l. exact Hmatch.
  - rewrite Ha at 1. rewrite drop_before_space.
    + now rewrite <- Ha, Hmatch.
    + exact Hpre.
    + destruct ws as [|w0 ws]; [contradiction|]. simpl in *.
      now apply andb_prop in Hwsp as [H0 _].
Qed.

Lemma empty_attribute_removed_witness :
  working_text scenario_A_input =
    (lit "<svg width=" ++ [dq] ++ lit "1" ++ [dq] ++ lit " transform=scale(2)") ++
    lit " " ++ lit "from" ++ [eq_sign; dq; dq] ++ lit ">content</svg>" /\
  clean_svg_response (Some scenario_A_input) =
    drop_empty_attrs
      (quote_attrs
         (lit "<svg width=" ++ [dq] ++ lit "1" ++ [dq] ++ lit " transform=scale(2)")) ++
    drop_empty_attrs (quote_attrs (lit ">content</svg>")).
Proof.
  split; [reflexivity|].
  apply (empty_attribute_removed scenario_A_input _ (lit " ") (lit "from"));
    reflexivity.
Defined.

(** C6, as stated, fails: on a x y=[dq][dq]=[dq][dq] the first pass removes
    the attribute y and so forms the empty attribute x, which only a second
    pass removes. *)
Lemma second_pass_differs :
  clean_svg_response (Some cascading_empty_attrs) = lit "a x=" ++ [dq; dq] /\
  clean_svg_response (Some (clean_svg_response (Some cascading_empty_attrs)))
  = lit "a" /\
  clean_svg_response (Some (clean_svg_response (Some cascading_empty_attrs)))
  <> clean_svg_response (Some cascading_empty_attrs).
Proof. repeat split. vm_compute. discriminate. Qed.

(** C6, amended: a second application returns the once-sanitized output
    unchanged for every reply whose working text (the text after steps 1
    and 2) is tidy: it holds no backtick; no run of characters free of white
    space, double quotes and [>] holds two equals signs; no equals sign
    stands directly before white space; and every empty attribute is
    followed by the end of the text or by a character that is no name
    character, equals sign or double quote. *)
Theorem second_pass_unchanged (x : str) :
  tidy (working_text x) = true ->
  clean_svg_response (Some (clean_svg_response (Some x)))
  = clean_svg_response (Some x).
Proof.
  intros H. unfold tidy in H.
  apply andb_prop in H as [H HC]. apply andb_prop in H as [H HB].
  apply andb_prop in H as [HD HA].
  destruct (clean_shape (Some x)) as [Hs Hn].
  rewrite (clean_steps x) in *. rewrite clean_steps.
  set (w := working_text x) in *. unfold working_text.
  pose proof (quote_keeps_closed _ HC) as HC'.
  rewrite fence_extract_without_fence
    by (now apply no_backtick_fence, no_backtick_steps).
  rewrite (normalize_id _ Hs Hn).
  rewrite (quote_after_drop (quote_attrs w));
    [now apply drop_twice| |now apply quote_keeps_eq_before_text|exact HC'].
  now apply quote_leaves_none.
Qed.

Lemma second_pass_unchanged_witness :
  tidy (working_text scenario_A_input) = true /\
  clean_svg_response (Some (clean_svg_response (Some scenario_A_input)))
  = clean_svg_response (Some scenario_A_input).
Proof.
  split; [vm_compute; reflexivity|].
  apply (second_pass_unchanged scenario_A_input). vm_compute. reflexivity.
Defined.

(** The other three conditions of C6 as amended are needed as well: a
    second pass quotes again inside a value that holds an equals sign,
    quotes the text that an equals sign meets once the empty attribute
    between them is removed, and extracts a fenced block whose closing fence
    was formed by such a removal. *)
Lemma second_pass_needs_tidy :
  (clean_svg_response (Some chained_assignment)
     = lit "a=" ++ [dq] ++ lit "b=c" ++ [dq] /\
   clean_svg_response (Some (clean_svg_response (Some chained_assignment)))
     = lit "a=" ++ [dq] ++ lit "b=" ++ [dq] ++ lit "c" ++ [dq; dq]) /\
  (clean_svg_response (Some dangling_assignment) = lit "a=/" /\
   clean_svg_response (Some (clean_svg_response (Some dangling_assignment)))
     = lit "a=" ++ [dq] ++ lit "/" ++ [dq]) /\
  (clean_svg_response (Some fence_closed_by_removal)
     = lit "```<svg></svg>```" /\
   clean_svg_response
     (Some (clean_svg_response (Some fence_closed_by_removal)))
     = lit "<svg></svg>").
Proof. repeat split; vm_compute; reflexivity. Qed.

(** C7: for absent or empty raw input the sanitizer returns the empty
    string, and the handler's acceptance check rejects that result: it shows
    the error and neither renders the result nor offers it for download. *)
Theorem absent_input_rejected (rejected_details : str -> list event) :
  clean_svg_response None = [] /\
  clean_svg_response (Some []) = [] /\
  acceptable (Some (clean_svg_response None)) = false /\
  acceptable (Some (clean_svg_response (Some []))) = false /\
  renders (present rejected_details (Some (clean_svg_response None))) = false /\
  renders (present rejected_details (Some (clean_svg_response (Some [])))) = false.
Proof. repeat split. Qed.

Lemma str_eqb_refl (a : str) : str_eqb a a = true.
Proof. induction a as [|x a IH]; simpl; [reflexivity|]. now rewrite N.eqb_refl. Qed.

(** C8: when the endpoint, the key or the deployment name equals its
    placeholder, get_animated_svg reports the configuration error and
    returns None without creating the client or sending a request, for
    every input; the handler then reaches the network for no input. *)
Theorem placeholder_refuses_call
    (SYSTEM_PROMPT : str) (cfg : config) (chat_completion : request -> reply)
    (rejected_details : str -> list event)
    (svg_code description animation_instructions : str) :
  AZURE_OPENAI_ENDPOINT cfg = ENDPOINT_PLACEHOLDER \/
  AZURE_OPENAI_API_KEY cfg = API_KEY_PLACEHOLDER \/
  AZURE_OPENAI_DEPLOYMENT_NAME cfg = DEPLOYMENT_PLACEHOLDER ->
  get_animated_svg SYSTEM_PROMPT cfg chat_completion
    svg_code description animation_instructions
  = ([StError CREDENTIALS_ERROR], None) /\
  calls_remote
    (on_animate SYSTEM_PROMPT cfg chat_completion rejected_details
       svg_code description animation_instructions) = false.
Proof.
  intros H.
  assert (Hc : configured cfg = false).
  { unfold configured. cbn [forallb].
    destruct H as [-> | [-> | ->]]; rewrite str_eqb_refl; cbn [negb andb];
      rewrite ?andb_false_r; reflexivity. }
  assert (Hg : get_animated_svg SYSTEM_PROMPT cfg chat_completion
                 svg_code description animation_instructions
               = ([StError CREDENTIALS_ERROR], None)).
  { unfold get_animated_svg. now rewrite Hc. }
  split; [exact Hg|].
  unfold on_animate. rewrite Hg.
  now destruct (negb (truthy svg_code) || negb (truthy description)
                || negb (truthy animation_instructions)).
Qed.

Lemma placeholder_refuses_call_witness :
  AZURE_OPENAI_API_KEY keyless_config = API_KEY_PLACEHOLDER /\
  get_animated_svg [] keyless_config (fun _ => Content (Some scenario_A_input))
    scenario_A_output (lit "a box") (lit "spin it")
  = ([StError CREDENTIALS_ERROR], None) /\
  calls_remote
    (on_animate [] keyless_config (fun _ => Content (Some scenario_A_input))
       (fun _ => []) scenario_A_output (lit "a box") (lit "spin it")) = false.
Proof.
  split; [reflexivity|].
  apply placeholder_refuses_call. right. left. reflexivity.
Defined.

(** C9, as stated, fails: a non-breaking space of the markup is replaced by
    an ordinary space before interpolation, so the message sent is not the
    one with the markup put in unchanged. *)
Lemma nbsp_markup_altered :
  sent_user_message [] some_config (fun _ => Content None)
    [nbsp] (lit "a box") (lit "spin it")
  = Some (verbatim_message [sp] (lit "a box") (lit "spin it")) /\
  sent_user_message [] some_config (fun _ => Content None)
    [nbsp] (lit "a box") (lit "spin it")
  <> Some (verbatim_message [nbsp] (lit "a box") (lit "spin it")).
Proof. split; [reflexivity|]. vm_compute. discriminate. Qed.

(** C9, amended: the user message sent to the endpoint holds the
    description and the animation instructions unchanged, and the markup
    with every non-breaking space replaced by an ordinary space and no
    other character altered; a markup without non-breaking spaces is put in
    unchanged. *)
Theorem user_message_interpolation
    (SYSTEM_PROMPT : str) (cfg : config) (chat_completion : request -> reply)
    (svg_code description animation_instructions m : str) :
  sent_user_message SYSTEM_PROMPT cfg chat_completion
    svg_code description animation_instructions = Some m ->
  m = verbatim_message (replace_nbsp svg_code) description animation_instructions /\
  length (replace_nbsp svg_code) = length svg_code /\
  (forall i c, nth_error svg_code i = Some c ->
     nth_error (replace_nbsp svg_code) i = Some (if c =? nbsp then sp else c)) /\
  (no_nbsp svg_code = true ->
   m = verbatim_message svg_code description animation_instructions).
Proof.
  unfold sent_user_message, get_animated_svg. intros H.
  assert (Hm : m = verbatim_message (replace_nbsp svg_code) description
                     animation_instructions).
  { destruct (negb (configured cfg)); [discriminate|].
    destruct (chat_completion _); cbn in H; now injection H as <-. }
  split; [exact Hm|]. split; [apply length_map|]. split.
  - intros i c Hi. exact (map_nth_error _ i svg_code Hi).
  - intros Hn. now rewrite Hm, (replace_nbsp_id _ Hn).
Qed.

Lemma user_message_interpolation_witness :
  sent_user_message [] some_config (fun _ => Content None)
    scenario_A_output (lit "a box") (lit "spin it")
  = Some (verbatim_message scenario_A_output (lit "a box") (lit "spin it")) /\
  (verbatim_message scenario_A_output (lit "a box") (lit "spin it")
   = verbatim_message (replace_nbsp scenario_A_output) (lit "a box") (lit "spin it") /\
   length (replace_nbsp scenario_A_output) = length scenario_A_output /\
   (forall i c, nth_error scenario_A_output i = Some c ->
      nth_error (replace_nbsp scenario_A_output) i
      = Some (if c =? nbsp then sp else c)) /\
   (no_nbsp scenario_A_output = true ->
    verbatim_message scenario_A_output (lit "a box") (lit "spin it")
    = verbatim_message scenario_A_output (lit "a box") (lit "spin it"))).
Proof.
  split; [reflexivity|].
  exact (user_message_interpolation [] some_config (fun _ => Content None)
           scenario_A_output (lit "a box") (lit "spin it") _ eq_refl).
Defined.

(** C10, as stated, fails: for a fenced document with a nested root element
    the extracted content runs to the second closing tag, not the first,
    and nothing of the document is discarded. *)
Lemma nested_document_kept_whole :
  fence_extract nested_fenced = lit "<svg><svg></svg></svg>" /\
  ends_at_first_close (fence_extract nested_fenced) = false /\
  clean_svg_response (Some nested_fenced) = lit "<svg><svg></svg></svg>".
Proof. repeat split. Qed.

(** C10, amended: when the fence search matches, the extracted content is
    that of the first fenced block of the text and ends at the first
    closing tag that is followed by optional white space and the closing
    fence: no fenced block at that place has a shorter content.  What
    follows the closing fence is discarded. *)
Theorem extraction_ends_at_first_fenced_close (raw rest : str) (cs : caps) :
  search fence_flags fence_re raw = Some (rest, cs) ->
  exists pre s,
    raw = pre ++ s /\
    fenced_then s (fence_extract raw) rest /\
    (forall g, fenced s g -> (length (fence_extract raw) <= length g)%nat) /\
    (forall p1 p2 g, pre = p1 ++ p2 -> p2 <> [] -> ~ fenced (p2 ++ s) g).
Proof.
  intros H.
  destruct (search_fence_some _ _ _ H)
    as (pre & s & g & Hraw & -> & Hf & Hmin & Hleft).
  exists pre, s. rewrite (fence_extract_found _ _ _ H). auto.
Qed.

Lemma extraction_ends_at_first_fenced_close_witness :
  exists pre s,
    nested_fenced = pre ++ s /\
    fenced_then s (fence_extract nested_fenced) [] /\
    (forall g, fenced s g ->
       (length (fence_extract nested_fenced) <= length g)%nat) /\
    (forall p1 p2 g, pre = p1 ++ p2 -> p2 <> [] -> ~ fenced (p2 ++ s) g).
Proof.
  apply (extraction_ends_at_first_fenced_close nested_fenced []
           [(1%nat, lit "<svg><svg></svg></svg>")]).
  reflexivity.
Defined.

(** * Further properties *)

(** ** Texts that the patterns do not touch *)

Lemma quote_match_without_eq (s : str) :
  no_eq_sign s = true -> quote_match s = None.
Proof.
  intros H. destruct (quote_match s) as [[[key v] rest]|] eqn:E; [|reflexivity].
  destruct (quote_match_split _ _ _ _ E) as (Hs & _).
  rewrite Hs, !no_eq_sign_app in H.
  apply andb_prop in H as [_ H]. apply andb_prop in H as [H _]. discriminate H.
Qed.

Lemma empty_match_without_eq (s : str) :
  no_eq_sign s = true -> empty_match s = None.
Proof.
  intros H. destruct (empty_match s) as [[name rest]|] eqn:E; [|reflexivity].
  destruct (empty_match_split _ _ _ E) as (ws & Hs & _).
  rewrite Hs, !no_eq_sign_app in H.
  apply andb_prop in H as [_ H]. apply andb_prop in H as [_ H].
  apply andb_prop in H as [H _]. discriminate H.
Qed.

Lemma quote_attrs_without_eq (s : str) :
  no_eq_sign s = true -> quote_attrs s = s.
Proof.
  induction s as [|c s IH]; [reflexivity|]. intros H.
  rewrite quote_attrs_copy by now apply quote_match_without_eq.
  unfold no_eq_sign in H. simpl in H. apply andb_prop in H as [_ H].
  now rewrite IH.
Qed.

Lemma drop_without_eq (s : str) :
  no_eq_sign s = true -> drop_empty_attrs s = s.
Proof.
  induction s as [|c s IH]; [reflexivity|]. intros H.
  rewrite drop_empty_attrs_copy by now apply empty_match_without_eq.
  unfold no_eq_sign in H. simpl in H. apply andb_prop in H as [_ H].
  now rewrite IH.
Qed.

Lemma no_eq_sign_normalize (s : str) :
  no_eq_sign s = true -> no_eq_sign (normalize s) = true.
Proof.
  intros H. unfold normalize, strip.
  assert (Hr : no_eq_sign (replace_nbsp s) = true).
  { clear -H. induction s as [|c s IH]; [reflexivity|].
    unfold no_eq_sign in *. simpl in *. apply andb_prop in H as [Hc H].
    rewrite (IH H), andb_true_r. now destruct (c =? nbsp). }
  destruct (lstrip_suffix (replace_nbsp s)) as [w Hw].
  rewrite Hw, no_eq_sign_app in Hr. apply andb_prop in Hr as [_ Hr].
  destruct (rstrip_prefix (lstrip (replace_nbsp s))) as [w' Hw'].
  rewrite Hw', no_eq_sign_app in Hr. now apply andb_prop in Hr as [Hr _].
Qed.

(** X3: a reply with no run of three backticks and no equals sign (a plain
    sentence, say a refusal) comes back with its non-breaking spaces
    replaced and its ends stripped, and with no other change. *)
Theorem plain_text_only_normalized (raw : str) :
  contains fence raw = false -> no_eq_sign raw = true ->
  clean_svg_response (Some raw) = strip (replace_nbsp raw).
Proof.
  intros Hf He. rewrite clean_steps. unfold working_text.
  rewrite (fence_extract_without_fence raw Hf).
  pose proof (no_eq_sign_normalize raw He) as Hn.
  now rewrite (quote_attrs_without_eq _ Hn), (drop_without_eq _ Hn).
Qed.

Lemma plain_text_only_normalized_witness :
  contains fence ([nbsp] ++ refusal ++ [nl]) = false /\
  no_eq_sign ([nbsp] ++ refusal ++ [nl]) = true /\
  clean_svg_response (Some ([nbsp] ++ refusal ++ [nl])) = refusal.
Proof.
  split; [reflexivity|]. split; [reflexivity|].
  rewrite plain_text_only_normalized; reflexivity.
Defined.

(** ** The shape of the output *)

Lemma no_nbsp_In (s : str) : no_nbsp s = true -> ~ In nbsp s.
Proof.
  unfold no_nbsp. intros H Hin.
  rewrite forallb_forall in H. specialize (H _ Hin).
  now rewrite N.eqb_refl in H.
Qed.

(** X1: the sanitizer never returns a non-breaking space, whatever the
    reply was: step 2 replaces each one and steps 3 and 4 write none. *)
Theorem output_without_nbsp (x : option str) :
  ~ In nbsp (clean_svg_response x).
Proof. apply no_nbsp_In, clean_shape. Qed.

Lemma truthy_startswith (p s : str) :
  truthy p = true -> startswith p s = true -> truthy s = true.
Proof. destruct p, s; simpl; congruence. Qed.

Lemma acceptable_clean (x : option str) :
  acceptable (Some (clean_svg_response x))
  = startswith (lit "<svg") (clean_svg_response x).
Proof.
  destruct (clean_shape x) as [Hs _].
  unfold acceptable. rewrite (stripped_strip _ Hs).
  destruct (startswith (lit "<svg") (clean_svg_response x)) eqn:E.
  - now rewrite (truthy_startswith (lit "<svg") _ eq_refl E).
  - apply andb_false_r.
Qed.

(** X2: the sanitizer's result carries no white space at either end, so
    the strip in the handler's check changes nothing, and the check on a
    sanitized result is exactly: the result starts with the lower-case root
    tag. *)
Theorem output_stripped (x : option str) :
  strip (clean_svg_response x) = clean_svg_response x /\
  acceptable (Some (clean_svg_response x))
  = startswith (lit "<svg") (clean_svg_response x).
Proof.
  split; [|apply acceptable_clean].
  apply stripped_strip, clean_shape.
Qed.

Lemma lstrip_spaces (s : str) : forallb is_space s = true -> lstrip s = [].
Proof.
  induction s as [|c s IH]; [reflexivity|]. simpl. intros H.
  apply andb_prop in H as [Hc H]. now rewrite Hc, IH.
Qed.

Lemma spaces_without_fence (s : str) :
  forallb is_space s = true -> contains fence s = false.
Proof.
  induction s as [|c s IH]; [reflexivity|]. simpl. intros H.
  apply andb_prop in H as [Hc H]. rewrite (IH H), orb_false_r.
  assert (Hb : (96 =? c) = false)
    by (apply N.eqb_neq; intros <-; discriminate Hc).
  now rewrite Hb.
Qed.

Lemma replace_nbsp_spaces (s : str) :
  forallb is_space s = true -> forallb is_space (replace_nbsp s) = true.
Proof.
  induction s as [|c s IH]; [reflexivity|]. simpl. intros H.
  apply andb_prop in H as [Hc H]. rewrite (IH H), andb_true_r.
  now destruct (c =? nbsp).
Qed.

(** X4: a reply made of white space only (non-breaking spaces included)
    sanitizes to the empty string, and the handler's check rejects it. *)
Theorem blank_reply_rejected (raw : str) :
  forallb is_space raw = true ->
  clean_svg_response (Some raw) = [] /\
  acceptable (Some (clean_svg_response (Some raw))) = false.
Proof.
  intros H.
  assert (Hc : clean_svg_response (Some raw) = []).
  { rewrite clean_steps. unfold working_text, normalize, strip.
    rewrite (fence_extract_without_fence raw (spaces_without_fence raw H)).
    now rewrite (lstrip_spaces _ (replace_nbsp_spaces raw H)). }
  now rewrite Hc.
Qed.

Lemma blank_reply_rejected_witness :
  forallb is_space [sp; nbsp; nl; 9; 8203 - 1] = true /\
  clean_svg_response (Some [sp; nbsp; nl; 9; 8203 - 1]) = [].
Proof.
  split; [reflexivity|].
  apply (blank_reply_rejected [sp; nbsp; nl; 9; 8203 - 1]). reflexivity.
Defined.

(** ** What steps 3 and 4 write and delete *)

Lemma quote_attrs_length (s : str) : (length s <= length (quote_attrs s))%nat.
Proof.
  remember (length s) as n eqn:Hn. revert s Hn.
  induction n as [n IH] using lt_wf_ind. intros s Hn. subst n.
  destruct s as [|c s]; [apply Nat.le_0_l|].
  destruct (quote_match (c :: s)) as [[[key v] rest]|] eqn:E.
  - rewrite (quote_attrs_match _ _ _ _ E).
    destruct (quote_match_split _ _ _ _ E) as (Hs & Hk & _).
    assert (Hr : (length rest <= length (quote_attrs rest))%nat).
    { apply (IH (length rest)); trivial.
      rewrite Hs, !length_app. destruct key; [contradiction|simpl; lia]. }
    rewrite Hs at 1. rewrite !length_app. simpl. lia.
  - rewrite (quote_attrs_copy _ _ E). simpl.
    apply le_n_S, (IH (length s)); trivial. simpl. lia.
Qed.

(** X5: step 3 only inserts double quotes: without its double quotes the
    text reads the same before and after, and the text never gets
    shorter. *)
Theorem quoting_only_adds_quotes (s : str) :
  filter not_dq (quote_attrs s) = filter not_dq s /\
  (length s <= length (quote_attrs s))%nat.
Proof.
  split; [now apply quote_attrs_filter | apply quote_attrs_length].
Qed.

Lemma drop_length (s : str) : (length (drop_empty_attrs s) <= length s)%nat.
Proof.
  remember (length s) as n eqn:Hn. revert s Hn.
  induction n as [n IH] using lt_wf_ind. intros s Hn. subst n.
  destruct s as [|c s]; [reflexivity|].
  destruct (empty_match (c :: s)) as [[name rest]|] eqn:E.
  - rewrite (drop_empty_attrs_match _ _ _ E).
    destruct (empty_match_split _ _ _ E) as (ws & Hs & Hw & _).
    assert (Hr : (length (drop_empty_attrs rest) <= length rest)%nat).
    { apply (IH (length rest)); trivial.
      rewrite Hs, !length_app. destruct ws; [contradiction|simpl; lia]. }
    rewrite Hs, !length_app. lia.
  - rewrite (drop_empty_attrs_copy _ _ E). simpl.
    apply le_n_S, (IH (length s)); trivial. simpl. lia.
Qed.

Lemma structural_space (c : char) : is_space c = true -> structural c = false.
Proof. intros H. unfold structural. now rewrite H. Qed.

Lemma structural_name (c : char) : is_name_char c = true -> structural c = false.
Proof. intros H. unfold structural. now rewrite H, orb_true_r. Qed.

(** X6: step 4 only deletes white space, name characters, equals signs and
    double quotes: every other character (angle brackets, slashes, ...)
    stays, in order, and the text never gets longer. *)
Theorem removal_keeps_structure (s : str) :
  filter structural (drop_empty_attrs s) = filter structural s /\
  (length (drop_empty_attrs s) <= length s)%nat.
Proof.
  split; [|apply drop_length].
  apply drop_filter; [apply structural_space|apply structural_name| |]; reflexivity.
Qed.

Lemma filter_lstrip (p : char -> bool) (s : str) :
  (forall c, is_space c = true -> p c = false) ->
  filter p (lstrip s) = filter p s.
Proof.
  intros Hsp. induction s as [|c s IH]; [reflexivity|]. simpl.
  destruct (is_space c) eqn:E; [|reflexivity].
  now rewrite (Hsp c E).
Qed.

Lemma filter_rev {A : Type} (p : A -> bool) (l : list A) :
  filter p (rev l) = rev (filter p l).
Proof.
  induction l as [|x l IH]; [reflexivity|]. simpl.
  rewrite filter_app, IH. simpl. destruct (p x); simpl.
  - reflexivity.
  - apply app_nil_r.
Qed.

Lemma filter_strip (p : char -> bool) (s : str) :
  (forall c, is_space c = true -> p c = false) ->
  filter p (strip s) = filter p s.
Proof.
  intros Hsp. unfold strip, rstrip.
  rewrite filter_rev, (filter_lstrip p _ Hsp), filter_rev, rev_involutive.
  now apply filter_lstrip.
Qed.

Lemma filter_replace_nbsp (p : char -> bool) (s : str) :
  (forall c, is_space c = true -> p c = false) ->
  filter p (replace_nbsp s) = filter p s.
Proof.
  intros Hsp. induction s as [|c s IH]; [reflexivity|]. simpl.
  destruct (N.eqb_spec c nbsp) as [->|].
  - now rewrite (Hsp sp eq_refl), (Hsp nbsp eq_refl).
  - now rewrite IH.
Qed.

(** X8: after the fence step, the sanitizer keeps every character other
    than white space, name characters, equals signs and double quotes, in
    order: no angle bracket or slash of the extracted text is lost, none is
    added. *)
Theorem structure_survives_repairs (raw : str) :
  filter structural (clean_svg_response (Some raw))
  = filter structural (fence_extract raw).
Proof.
  rewrite clean_steps. unfold working_text, normalize.
  rewrite drop_filter, quote_attrs_filter; try reflexivity;
    try apply structural_space; try apply structural_name.
  rewrite filter_strip by apply structural_space.
  now apply filter_replace_nbsp, structural_space.
Qed.

(** X9: the fence step returns a contiguous part of the reply: either the
    whole reply, or a part that starts with the root tag and ends with its
    closing tag, in whatever case. *)
Theorem extraction_is_a_part (raw : str) :
  exists a b,
    raw = a ++ fence_extract raw ++ b /\
    ((a = [] /\ b = []) \/ svg_doc (fence_extract raw)).
Proof.
  unfold fence_extract.
  destruct (search fence_flags fence_re raw) as [[rest cs]|] eqn:E.
  - destruct (search_fence_some _ _ _ E) as (pre & s & g & -> & -> & Hf & _).
    destruct Hf as (tag & ws & ws' & -> & _ & _ & _ & Hdoc).
    exists (pre ++ fence ++ tag ++ ws), (ws' ++ fence ++ rest).
    split; [now rewrite <- !app_assoc|]. right. exact Hdoc.
  - exists [], []. split; [now rewrite app_nil_r|]. now left.
Qed.

(** ** Steps 1, 2 and 4 on their own *)

Lemma contains_tail (p : str) (c : char) (s : str) :
  contains p (c :: s) = false -> contains p s = false.
Proof. simpl. intros H. now apply orb_false_elim in H as [_ H]. Qed.

Lemma empty_match_needs_empty_value (s : str) :
  contains [dq; dq] s = false -> empty_match s = None.
Proof.
  intros H. destruct (empty_match s) as [[name rest]|] eqn:E; [|reflexivity].
  destruct (empty_match_split _ _ _ E) as (ws & Hs & _).
  assert (Hin : contains [dq; dq] s = true).
  { rewrite Hs.
    replace (ws ++ name ++ [eq_sign; dq; dq] ++ rest)
      with ((ws ++ name ++ [eq_sign]) ++ [dq; dq] ++ rest)
      by (now rewrite <- !app_assoc).
    apply contains_app. }
  congruence.
Qed.

(** X7: step 4 leaves a text that holds no two adjacent double quotes as
    it is. *)
Theorem removal_needs_empty_value (s : str) :
  contains [dq; dq] s = false -> drop_empty_attrs s = s.
Proof.
  induction s as [|c s IH]; [reflexivity|]. intros H.
  rewrite drop_empty_attrs_copy by now apply empty_match_needs_empty_value.
  now rewrite (IH (contains_tail _ _ _ H)).
Qed.

Lemma removal_needs_empty_value_witness :
  contains [dq; dq] scenario_A_output = false /\
  drop_empty_attrs scenario_A_output = scenario_A_output.
Proof.
  split; [reflexivity|].
  apply removal_needs_empty_value. reflexivity.
Defined.

(** X11: step 2 (replace the non-breaking spaces, strip) is
    idempotent. *)
Theorem normalization_idempotent (s : str) :
  normalize (normalize s) = normalize s.
Proof.
  apply normalize_id.
  - apply strip_stripped.
  - apply no_nbsp_strip, replace_nbsp_clean.
Qed.

(** No fenced block starts inside the content that the search extracts. *)
Lemma extracted_holds_no_block (raw rest g : str) :
  search fence_flags fence_re raw = Some (rest, [(1%nat, g)]) ->
  search fence_flags fence_re g = None.
Proof.
  intros H.
  destruct (search_fence_some _ _ _ H) as (pre & s & g0 & -> & [= <-] & Hf & Hmin & _).
  destruct (search fence_flags fence_re g) as [[rest' cs']|] eqn:E; [|reflexivity].
  exfalso.
  destruct (search_fence_some _ _ _ E) as (pre' & s' & g' & Hg & _ & Hf' & _).
  destruct Hf' as (tag' & ws1 & ws2 & -> & Ht' & Hws1 & Hws2 & o' & body' & c' & -> & Ho' & Hc').
  destruct Hf as (tag & ws & ws' & -> & Ht & Hws & Hws' & o & body & c & Hgo & Ho & Hc).
  (* the part of [g] that ends with the inner closing tag is a shorter content *)
  set (P := pre' ++ fence ++ tag' ++ ws1 ++ o' ++ body') in *.
  assert (HgP : g = (P ++ c') ++ ws2 ++ fence ++ rest')
    by (rewrite Hg; unfold P; now rewrite <- !app_assoc).
  assert (HP : exists m, P = o ++ m).
  { rewrite Hgo, <- app_assoc in HgP.
    apply app_eq_app in HgP as [l [[Hol Hl]|[HPl Hl]]].
    - exfalso. assert (Hlen : (length o = length P + length l)%nat)
        by (now rewrite Hol, length_app).
      rewrite (same_text_length _ _ Ho) in Hlen. unfold P in Hlen.
      rewrite !length_app, (same_text_length _ _ Ho') in Hlen.
      change (length fence) with 3%nat in Hlen. simpl in Hlen. lia.
    - now exists l. }
  destruct HP as (m & HP).
  assert (Hshort : fenced (fence ++ tag ++ ws ++ g ++ ws' ++ fence ++ rest) (P ++ c')).
  { exists (rest' ++ ws' ++ fence ++ rest), tag, ws, ws2.
    split; [rewrite HgP at 1; now rewrite <- !app_assoc|].
    repeat split; trivial.
    exists o, m, c'. rewrite HP, <- app_assoc. auto. }
  apply Hmin in Hshort. apply (f_equal (@length char)) in HgP.
  rewrite !length_app in HgP. rewrite !length_app in Hshort.
  change (length fence) with 3%nat in HgP. lia.
Qed.

(** X10: the fence step is idempotent: inside the content that it
    extracts, the pattern finds no fenced document again. *)
Theorem extraction_idempotent (raw : str) :
  fence_extract (fence_extract raw) = fence_extract raw.
Proof.
  unfold fence_extract at 2 3.
  destruct (search fence_flags fence_re raw) as [[rest cs]|] eqn:E.
  - destruct (search_fence_some _ _ _ E) as (pre & s & g & _ & -> & _).
    cbn [group Nat.eqb]. unfold fence_extract.
    now rewrite (extracted_holds_no_block _ _ _ E).
  - unfold fence_extract. now rewrite E.
Qed.

(** ** A fenced reply and the acceptance check *)

Lemma letter_like_range (x c : char) :
  is_lower x = true -> lit_ok fence_flags x c = true -> 65 <= c.
Proof.
  unfold lit_ok, is_lower. cbn [ignorecase fence_flags]. intros Hx H.
  rewrite Hx in H. apply andb_prop in Hx as [H1 H2].
  apply N.leb_le in H1, H2.
  assert (Hc : c = x \/ c = x - 32 \/ c = 304 \/ c = 305 \/ c = 383 \/ c = 8490).
  { apply orb_prop in H as [H|H]; [apply N.eqb_eq in H; auto|].
    rewrite andb_true_l in H.
    apply orb_prop in H as [H|H].
    - apply orb_prop in H as [H|H].
      + apply orb_prop in H as [H|H]; [apply N.eqb_eq in H; auto|].
        apply andb_prop in H as [_ H].
        apply orb_prop in H as [H|H]; apply N.eqb_eq in H; auto.
      + apply andb_prop in H as [_ H]. apply N.eqb_eq in H; auto 6.
    - apply andb_prop in H as [_ H]. apply N.eqb_eq in H; auto 6. }
  destruct Hc as [ -> | [ -> | [ -> | [ -> | [ -> | -> ] ] ] ] ]; lia.
Qed.

(** The opening tag of a fenced block, in whatever case, holds no space and
    no equals sign. *)
Lemma open_tag_chars (o : str) :
  same_text (lit "<svg") o = true ->
  length o = 4%nat /\ forallb no_space o = true /\ no_eq_sign o = true.
Proof.
  intros H. pose proof (same_text_length _ _ H) as Hlen.
  apply same_text_cons in H as (c1 & m1 & -> & H1 & H).
  apply same_text_cons in H as (c2 & m2 & -> & H2 & H).
  apply same_text_cons in H as (c3 & m3 & -> & H3 & H).
  apply same_text_cons in H as (c4 & m4 & -> & H4 & H).
  destruct m4; [|discriminate H].
  rewrite lit_ok_nonletter in H1 by reflexivity. apply N.eqb_eq in H1 as <-.
  pose proof (letter_like 115 _ eq_refl H2) as (S2 & _).
  pose proof (letter_like 118 _ eq_refl H3) as (S3 & _).
  pose proof (letter_like 103 _ eq_refl H4) as (S4 & _).
  pose proof (letter_like_range 115 _ eq_refl H2) as R2.
  pose proof (letter_like_range 118 _ eq_refl H3) as R3.
  pose proof (letter_like_range 103 _ eq_refl H4) as R4.
  split; [exact Hlen|]. split.
  - unfold no_space. simpl. now rewrite S2, S3, S4.
  - unfold no_eq_sign, eq_sign. simpl.
    replace (c2 =? 61) with false by (symmetry; apply N.eqb_neq; lia).
    replace (c3 =? 61) with false by (symmetry; apply N.eqb_neq; lia).
    replace (c4 =? 61) with false by (symmetry; apply N.eqb_neq; lia).
    reflexivity.
Qed.

(** Step 3 keeps a start of the text that holds no equals sign. *)
Lemma quote_attrs_prefix (p s : str) :
  no_eq_sign p = true -> exists t, quote_attrs (p ++ s) = p ++ t.
Proof.
  induction p as [|c p IH]; intros Hp.
  - now exists (quote_attrs s).
  - destruct (quote_match ((c :: p) ++ s)) as [[[key v] rest]|] eqn:E.
    + rewrite (quote_attrs_match _ _ _ _ E).
      destruct (quote_match_split _ _ _ _ E) as (Hs & _).
      apply app_eq_app in Hs as [l [[Hk Hl]|[Hk Hl]]].
      * destruct l as [|x l].
        -- rewrite app_nil_r in Hk. rewrite Hk. eauto.
        -- exfalso. injection Hl as <- _. rewrite Hk, !no_eq_sign_app in Hp.
           apply andb_prop in Hp as [_ Hp]. discriminate Hp.
      * rewrite Hk, <- app_assoc. eauto.
    + cbn [app] in *. rewrite (quote_attrs_copy _ _ E).
      unfold no_eq_sign in Hp. simpl in Hp. apply andb_prop in Hp as [_ Hp].
      destruct (IH Hp) as [t Ht]. rewrite Ht. now exists t.
Qed.

Lemma no_space_no_nbsp (s : str) : forallb no_space s = true -> no_nbsp s = true.
Proof.
  apply forallb_imp. intros c Hc. unfold no_space in Hc.
  apply negb_true_iff. apply N.eqb_neq. intros ->. discriminate Hc.
Qed.

Lemma no_space_hd (s : str) (d : char) :
  is_space d = false -> forallb no_space s = true -> is_space (hd d s) = false.
Proof.
  destruct s as [|c s]; [trivial|]. simpl. intros _ H.
  apply andb_prop in H as [H _]. now apply negb_true_iff.
Qed.

Lemma replace_nbsp_app (a b : str) :
  replace_nbsp (a ++ b) = replace_nbsp a ++ replace_nbsp b.
Proof. apply map_app. Qed.

(** Step 2 keeps the opening tag of a document at the start. *)
Lemma normalize_doc (o body c : str) :
  same_text (lit "<svg") o = true -> same_text (lit "</svg>") c = true ->
  exists y, normalize (o ++ body ++ c) = o ++ y.
Proof.
  intros Ho Hc. destruct (open_tag_chars o Ho) as (Hlen & Hsp & _).
  destruct (close_last c Hc) as (c' & -> & _).
  unfold normalize. rewrite !replace_nbsp_app.
  rewrite (replace_nbsp_id o (no_space_no_nbsp o Hsp)).
  change (replace_nbsp [62]) with [62].
  exists (replace_nbsp body ++ replace_nbsp c' ++ [62]).
  apply stripped_strip. split.
  - destruct o as [|o1 o]; [discriminate Hlen|].
    simpl in Hsp. apply andb_prop in Hsp as [H1 _]. now apply negb_true_iff.
  - now rewrite !app_assoc, last_last.
Qed.

Lemma startswith_same_length (p o t : str) :
  length p = length o -> startswith p (o ++ t) = str_eqb p o.
Proof.
  revert o. induction p as [|x p IH]; intros [|y o] Hlen; try discriminate.
  - reflexivity.
  - simpl. injection Hlen as Hlen. now rewrite IH.
Qed.

(** X12: for a reply with one fenced document (as in C2: no backtick run
    before the block or inside the document), the handler's check accepts
    the sanitized result exactly when the opening tag is written in lower
    case, although the fence pattern itself accepts the tag in any case. *)
Theorem fenced_reply_accepted_in_lower_case (pre tag ws o body c ws' post : str) :
  tag_ok tag = true ->
  forallb is_space ws = true -> forallb is_space ws' = true ->
  same_text (lit "<svg") o = true -> same_text (lit "</svg>") c = true ->
  contains fence pre = false -> contains fence (o ++ body ++ c) = false ->
  acceptable
    (Some (clean_svg_response
             (Some (pre ++ fence ++ tag ++ ws ++ (o ++ body ++ c) ++ ws' ++
                    fence ++ post))))
  = str_eqb (lit "<svg") o.
Proof.
  intros Ht Hws Hws' Ho Hc Hpre Hin.
  rewrite acceptable_clean, clean_steps. unfold working_text.
  rewrite (fence_extract_clean_block pre tag ws o body c ws' post) by trivial.
  destruct (normalize_doc o body c Ho Hc) as [y ->].
  destruct (open_tag_chars o Ho) as (Hlen & Hsp & Heq).
  destruct (quote_attrs_prefix o y Heq) as [t ->].
  rewrite (drop_no_space o t Hsp).
  apply startswith_same_length. now rewrite Hlen.
Qed.

Lemma fenced_reply_accepted_in_lower_case_witness :
  same_text (lit "<svg") (lit "<SVG") = true /\
  acceptable (Some (clean_svg_response (Some capital_fenced))) = false.
Proof.
  split; [reflexivity|].
  exact (fenced_reply_accepted_in_lower_case
           (lit "Here you go:" ++ [nl]) (lit "svg") [nl]
           (lit "<SVG") (lit " width=10>") (lit "</SVG>") [nl] []
           eq_refl eq_refl eq_refl eq_refl eq_refl eq_refl eq_refl).
Defined.

(** ** The request and the handler *)

Section Handler.

Variable SYSTEM_PROMPT : str.
Variable cfg : config.
Variable chat_completion : request -> reply.
Variable rejected_details : str -> list event.
Variables svg_code description animation_instructions : str.

Lemma get_animated_svg_configured :
  configured cfg = true ->
  get_animated_svg SYSTEM_PROMPT cfg chat_completion
    svg_code description animation_instructions
  = match chat_completion
            (request_for SYSTEM_PROMPT cfg svg_code description
               animation_instructions) with
    | Content animated_svg =>
        ([client_for cfg;
          ChatRequest (request_for SYSTEM_PROMPT cfg svg_code description
                         animation_instructions)],
         Some (clean_svg_response animated_svg))
    | Raised e =>
        ([client_for cfg;
          ChatRequest (request_for SYSTEM_PROMPT cfg svg_code description
                         animation_instructions);
          StError (lit "An error occurred with the API request: " ++ e)], None)
    end.
Proof. intros H. unfold get_animated_svg. now rewrite H. Qed.

Lemma get_animated_svg_unconfigured :
  configured cfg = false ->
  get_animated_svg SYSTEM_PROMPT cfg chat_completion
    svg_code description animation_instructions
  = ([StError CREDENTIALS_ERROR], None).
Proof. intros H. unfold get_animated_svg. now rewrite H. Qed.

Lemma on_animate_filled :
  truthy svg_code = true -> truthy description = true ->
  truthy animation_instructions = true ->
  on_animate SYSTEM_PROMPT cfg chat_completion rejected_details
    svg_code description animation_instructions
  = fst (get_animated_svg SYSTEM_PROMPT cfg chat_completion
           svg_code description animation_instructions) ++
    present rejected_details
      (snd (get_animated_svg SYSTEM_PROMPT cfg chat_completion
              svg_code description animation_instructions)).
Proof.
  intros H1 H2 H3. unfold on_animate. rewrite H1, H2, H3. cbn [negb orb].
  now destruct (get_animated_svg _ _ _ _ _ _).
Qed.

(** X14: with all three inputs filled in and the settings configured, an
    exception of the endpoint is caught: the handler shows the API error
    with the exception's text, then the could-not-create error, and nothing
    else (no result, no download). *)
Theorem endpoint_failure_reported (e : str) :
  truthy svg_code = true -> truthy description = true ->
  truthy animation_instructions = true ->
  configured cfg = true ->
  chat_completion
    (request_for SYSTEM_PROMPT cfg svg_code description
       animation_instructions) = Raised e ->
  on_animate SYSTEM_PROMPT cfg chat_completion rejected_details
    svg_code description animation_instructions
  = [ client_for cfg;
      ChatRequest (request_for SYSTEM_PROMPT cfg svg_code description
                     animation_instructions);
      StError (lit "An error occurred with the API request: " ++ e);
      ResultError (lit "Could not create a valid SVG animation. Please try a different description or check your original SVG code.") ].
Proof.
  intros H1 H2 H3 Hc He.
  rewrite (on_animate_filled H1 H2 H3), (get_animated_svg_configured Hc), He.
  reflexivity.
Qed.

Lemma on_animate_missing :
  truthy svg_code && truthy description && truthy animation_instructions = false ->
  on_animate SYSTEM_PROMPT cfg chat_completion rejected_details
    svg_code description animation_instructions
  = [StWarning (lit "Please fill in all fields to continue.")].
Proof.
  unfold on_animate.
  destruct (truthy svg_code), (truthy description),
    (truthy animation_instructions); (discriminate || reflexivity).
Qed.

(** X16: the handler reaches the endpoint only if all three inputs are
    non-empty and none of the three settings is its placeholder. *)
Theorem network_needs_inputs_and_configuration :
  calls_remote
    (on_animate SYSTEM_PROMPT cfg chat_completion rejected_details
       svg_code description animation_instructions) = true ->
  truthy svg_code = true /\ truthy description = true /\
  truthy animation_instructions = true /\ configured cfg = true.
Proof.
  intros H.
  destruct (truthy svg_code && truthy description
            && truthy animation_instructions) eqn:Ht.
  - apply andb_prop in Ht as [Ht H3]. apply andb_prop in Ht as [H1 H2].
    rewrite (on_animate_filled H1 H2 H3) in H.
    destruct (configured cfg) eqn:Hc; [now repeat split|].
    rewrite (get_animated_svg_unconfigured Hc) in H. discriminate H.
  - rewrite (on_animate_missing Ht) in H. discriminate H.
Qed.

End Handler.

Lemma endpoint_failure_reported_witness :
  on_animate [] some_config failing_endpoint (fun _ => [])
    scenario_A_output (lit "a box") (lit "spin it")
  = [ client_for some_config;
      ChatRequest (request_for [] some_config scenario_A_output
                     (lit "a box") (lit "spin it"));
      StError (lit "An error occurred with the API request: " ++ lit "timeout");
      ResultError (lit "Could not create a valid SVG animation. Please try a different description or check your original SVG code.") ].
Proof.
  apply (endpoint_failure_reported [] some_config failing_endpoint);
    reflexivity.
Defined.

Lemma network_needs_inputs_and_configuration_witness :
  calls_remote
    (on_animate [] some_config answering_endpoint (fun _ => [])
       scenario_A_output (lit "a box") (lit "spin it")) = true /\
  (truthy scenario_A_output = true /\ truthy (lit "a box") = true /\
   truthy (lit "spin it") = true /\ configured some_config = true).
Proof.
  split; [reflexivity|].
  apply (network_needs_inputs_and_configuration [] some_config
           answering_endpoint (fun _ => [])).
  reflexivity.
Defined.

(** X15: with all three inputs filled in and the settings configured, when
    the endpoint answers, the handler's effects are the client, the request
    and then, if the sanitized answer starts with the lower-case root tag,
    the success message and the rendered result, followed by the download of
    the UTF-8 bytes of the sanitized text under the name
    animated_graphic.svg and by the code view, or, when the text cannot be
    encoded (it holds a surrogate), by the encoder's exception alone;
    otherwise the error, followed by the sanitized text shown as plain code
    when it is not empty. *)
Theorem handler_decides_on_prefix
    (SYSTEM_PROMPT : str) (cfg : config) (chat_completion : request -> reply)
    (svg_code description animation_instructions : str)
    (animated_svg : option str) :
  truthy svg_code = true -> truthy description = true ->
  truthy animation_instructions = true ->
  configured cfg = true ->
  chat_completion
    (request_for SYSTEM_PROMPT cfg svg_code description
       animation_instructions) = Content animated_svg ->
  on_animate SYSTEM_PROMPT cfg chat_completion show_rejected
    svg_code description animation_instructions
  = [ client_for cfg;
      ChatRequest (request_for SYSTEM_PROMPT cfg svg_code description
                     animation_instructions) ] ++
    if startswith (lit "<svg") (clean_svg_response animated_svg) then
      StSuccess (lit "Animation created successfully!") ::
      ResultMarkdown (display_html (clean_svg_response animated_svg)) ::
      match encode_utf8 (clean_svg_response animated_svg) with
      | Some data =>
          [ DownloadButton data (lit "animated_graphic.svg")
              (lit "image/svg+xml");
            CodeExpander (clean_svg_response animated_svg) ]
      | None => [Uncaught (lit "UnicodeEncodeError")]
      end
    else
      ResultError (lit "Could not create a valid SVG animation. Please try a different description or check your original SVG code.")
      :: (if truthy (clean_svg_response animated_svg)
          then [StCode (clean_svg_response animated_svg) (lit "text")]
          else []).
Proof.
  intros H1 H2 H3 Hc Hr.
  rewrite (on_animate_filled _ _ _ _ _ _ _ H1 H2 H3).
  rewrite (get_animated_svg_configured _ _ _ _ _ _ Hc), Hr.
  cbn [fst snd]. f_equal. unfold present.
  rewrite acceptable_clean.
  destruct (startswith (lit "<svg") (clean_svg_response animated_svg));
    [reflexivity|].
  now destruct (clean_svg_response animated_svg).
Qed.

Lemma handler_decides_on_prefix_witness :
  startswith (lit "<svg") (clean_svg_response (Some scenario_A_input)) = true /\
  encode_utf8 scenario_A_output = Some scenario_A_output /\
  on_animate [] some_config answering_endpoint show_rejected
    scenario_A_output (lit "a box") (lit "spin it")
  = [ client_for some_config;
      ChatRequest (request_for [] some_config scenario_A_output
                     (lit "a box") (lit "spin it"));
      StSuccess (lit "Animation created successfully!");
      ResultMarkdown (display_html scenario_A_output);
      DownloadButton scenario_A_output
        (lit "animated_graphic.svg") (lit "image/svg+xml");
      CodeExpander scenario_A_output ].
Proof.
  split; [reflexivity|]. split; [reflexivity|].
  exact (handler_decides_on_prefix [] some_config answering_endpoint
           scenario_A_output (lit "a box") (lit "spin it")
           (Some scenario_A_input) eq_refl eq_refl eq_refl eq_refl eq_refl).
Defined.
